(** * Anki Voice Assistant: utterance recorder, prefetch cache, sequencing guard

    A shallow embedding of the client's speech recorder ([client/src/stt.ts]),
    of the audio cache and its prefetch workers ([client/src/App.tsx]), of the
    sequencing guard of the record-answer flow ([client/src/App.tsx]) and of
    the text clamp of the server's [/api/tts] route ([server/index.js]).
    Further modules embed the autoplay effect and the teardown of the cache
    ([client/src/App.tsx]), the calls to AnkiConnect with their retries and
    the routes [/api/candidates] and [/api/review-chain] and the URL taken
    from the synthesis output ([server/index.js]), the conversations kept by
    [server/gpt.js], and the field extraction, the tag stripping and the
    whitespace tidying of [client/src/sanitize.ts].

    JS numbers are binary64: where the code computes with them (the energy
    of a frame, the elapsed time, the default of [endFrames]) the operations
    round as IEEE 754 does, see [Binary64].

    Layout: the definitions come first (Part I), one module per source file
    or concern; the theorems follow (Parts II and III). *)

From Stdlib Require Import ZArith QArith Qround Qabs Qpower Qreals Reals Lqa Lra
  Lia List Bool DecimalString.
From stdpp Require Import gmap list strings.

Open Scope Z_scope.

#[local] Set Warnings "-clear-no-such-hyp".

(* ===================================================================== *)
(** * Part I. Definitions                                                  *)
(* ===================================================================== *)

(** ** [client/src/App.tsx]: the audio cache *)

Module App.

(** [ttsCache] is a JS [Map<number, string>]: it iterates in insertion order,
    so it is kept as an association list [list (Z * string)], oldest entry
    first. *)

Definition MAX_CACHE : nat := 12.
Definition PREFETCH_COUNT : nat := 5.
Definition CONCURRENCY : nat := 4.

(** [Map.prototype.has]. *)
Definition map_has (m : list (Z * string)) (k : Z) : bool :=
  bool_decide (k ∈ m.*1).

(** [Map.prototype.get]. *)
Fixpoint map_get (m : list (Z * string)) (k : Z) : option string :=
  match m with
  | [] => None
  | (k', v) :: m' => if bool_decide (k' = k) then Some v else map_get m' k
  end.

(** [Map.prototype.set]: a key already present keeps its place and takes the
    new value, a new key goes to the end. *)
Fixpoint map_set (m : list (Z * string)) (k : Z) (v : string) : list (Z * string) :=
  match m with
  | [] => [(k, v)]
  | (k', v') :: m' =>
      if bool_decide (k' = k) then (k', v) :: m' else (k', v') :: map_set m' k v
  end.

(** [Map.prototype.delete]. *)
Definition map_delete (m : list (Z * string)) (k : Z) : list (Z * string) :=
  filter (λ p, p.1 ≠ k) m.

(** [m.keys().next().value]: the first key in insertion order. *)
Definition map_first_key (m : list (Z * string)) : option Z :=
  match m with
  | [] => None
  | (k, _) :: _ => Some k
  end.

(** The mutable objects the component closes over: the two refs and the log
    of the object URLs handed to [URL.revokeObjectURL]. *)
Record Store := mkStore {
  ttsCache : list (Z * string);
  inflight : gset Z;
  revoked : list string
}.

Definition emptyStore : Store := mkStore [] ∅ [].

(** [if (oldUrl.startsWith("blob:")) URL.revokeObjectURL(oldUrl)]. *)
Definition revokeIfBlob (url : string) (log : list string) : list string :=
  if String.prefix "blob:" url then log ++ [url] else log.

(** [cacheSet(cardId, blobUrl)]. *)
Definition cacheSet (cardId : Z) (blobUrl : string) (st : Store) : Store :=
  if map_has (ttsCache st) cardId then st
  else
    let m := map_set (ttsCache st) cardId blobUrl in
    if (MAX_CACHE <? length m)%nat then
      match map_first_key m with
      | Some oldest =>
          match map_get m oldest with
          | Some oldUrl =>
              mkStore (map_delete m oldest) (inflight st)
                      (revokeIfBlob oldUrl (revoked st))
          | None => mkStore (map_delete m oldest) (inflight st) (revoked st)
          end
      | None => mkStore m (inflight st) (revoked st)
      end
    else mkStore m (inflight st) (revoked st).

(** A run of [cacheSet] calls, in order. *)
Definition cacheSetAll (calls : list (Z * string)) (st : Store) : Store :=
  fold_left (λ s c, cacheSet c.1 c.2 s) calls st.

(** *** Awaited operations

    The component runs on one thread; an [async] function runs from one
    [await] to the next without interruption. Each function below is one such
    segment. What the network answers is the environment's choice. *)

(** How an awaited promise settles. *)
Inductive Settle :=
| Resolved (v : string)
| ResolvedNull
| Rejected.

(** Where [prefetchOneCard] or [ttsSpeakCardFront] is suspended:
    at [await API.cardsInfo([cardId])], or at
    [await ttsFetchToBlobUrl(speakable)]. *)
Inductive Phase :=
| AwaitInfo
| AwaitTts (speakable : string).

(** How a segment ends: at the next [await], by returning, or by throwing. *)
Inductive Flow :=
| Suspend (ph : Phase)
| Return
| Raise.

(** [ttsFetchToBlobUrl(text)]: [net] is how the chain [API.tts], [fetch],
    [arrayBuffer] settles ([Resolved url] is the object URL made from the
    clip, [ResolvedNull] a response without a URL). Empty text returns
    [null] without any request. *)
Definition ttsFetchToBlobUrl (text : string) (net : Settle) : Settle :=
  if bool_decide (text = "") then ResolvedNull else net.

(** What stands behind [net]: [API.tts(text)] rejects, or answers without a
    URL ([json.ok] false, which is what the server's error answers give);
    [fetch(url)] rejects, when no response arrives at all;
    [resp.arrayBuffer()] rejects; or the body arrives, whatever the status
    of the response, and [URL.createObjectURL] gives its [blob:] URL. *)
Inductive Download :=
| TtsRejected
| TtsNoUrl
| FetchRejected
| BodyRejected (status : Z)
| Body (status : Z) (objectUrl : string).

(** How [ttsFetchToBlobUrl] settles: [resp.status] and [resp.ok] are not
    read. *)
Definition settles (d : Download) : Settle :=
  match d with
  | Body _ objectUrl => Resolved objectUrl
  | TtsNoUrl => ResolvedNull
  | TtsRejected | FetchRejected | BodyRejected _ => Rejected
  end.

(** [resp.ok]: a status from 200 to 299. *)
Definition responseOk (status : Z) : bool := (200 <=? status) && (status <=? 299).

(** The download gave no clip: nothing arrived, or what arrived is the body
    of an error response. *)
Definition downloadFails (d : Download) : bool :=
  match d with
  | Body status _ => negb (responseOk status)
  | _ => true
  end.

(** Whether [ttsFetchToBlobUrl(text)] sends a synthesis request at all. *)
Definition ttsRequested (text : string) : bool := negb (bool_decide (text = "")).

Definition inflight_add (id : Z) (st : Store) : Store :=
  mkStore (ttsCache st) ({[id]} ∪ inflight st) (revoked st).

Definition inflight_delete (id : Z) (st : Store) : Store :=
  mkStore (ttsCache st) (inflight st ∖ {[id]}) (revoked st).

(** [prefetchOneCard(cardId)] up to its first [await]: [None] is the early
    [return], otherwise the id has been added to the in-flight set. *)
Definition prefetchOneCard_enter (cardId : Z) (st : Store) : option Store :=
  if map_has (ttsCache st) cardId || bool_decide (cardId ∈ inflight st)
  then None
  else Some (inflight_add cardId st).

(** The [try] block from [cardsInfo] to the next [await]. The payload is the
    speakable text the card's front field sanitizes to; a response without
    the card gives the empty text. *)
Definition prefetch_try_afterInfo (r : Settle) : Flow :=
  match r with
  | Resolved speakable => Suspend (AwaitTts speakable)
  | ResolvedNull => Suspend (AwaitTts "")
  | Rejected => Raise
  end.

(** The [try] block after [ttsFetchToBlobUrl]: [if (blobUrl) cacheSet(...)]. *)
Definition prefetch_try_afterTts (cardId : Z) (speakable : string) (r : Settle)
    (st : Store) : Store * Flow :=
  match ttsFetchToBlobUrl speakable r with
  | Resolved blobUrl =>
      (if bool_decide (blobUrl = "") then st else cacheSet cardId blobUrl st,
       Return)
  | ResolvedNull => (st, Return)
  | Rejected => (st, Raise)
  end.

(** [catch (e) { console.warn(...) } finally { inflight.current.delete(cardId) }]. *)
Definition prefetch_catch_finally (cardId : Z) (x : Store * Flow) : Store * Flow :=
  match x.2 with
  | Suspend ph => x
  | Return => (inflight_delete cardId x.1, Return)
  | Raise => (inflight_delete cardId x.1, Return)
  end.

(** [prefetchOneCard] resumed in phase [ph] with the settlement [r]. *)
Definition prefetchOneCard_resume (cardId : Z) (ph : Phase) (r : Settle)
    (st : Store) : Store * Flow :=
  prefetch_catch_finally cardId
    match ph with
    | AwaitInfo => (st, prefetch_try_afterInfo r)
    | AwaitTts speakable => prefetch_try_afterTts cardId speakable r st
    end.

(** [ttsSpeakCardFront(cur)] up to its first [await]. [cardId] is
    [snap.cardId], [speakable] the sanitized front. The result is the new
    [ttsUrl] state, if set, and how the segment ends; after [Return] the
    function has gone on to call [warmPrefetch]. *)
Definition ttsSpeakCardFront_enter (cardId : Z) (speakable : string)
    (st : Store) : option string * Flow :=
  if bool_decide (cardId = 0) then (None, Return)
  else
    match map_get (ttsCache st) cardId with
    | Some cached =>
        if bool_decide (cached = "") then (None, Suspend (AwaitTts speakable))
        else (Some cached, Return)
    | None => (None, Suspend (AwaitTts speakable))
    end.

(** [ttsSpeakCardFront] resumed after [await ttsFetchToBlobUrl(speakable)].
    There is no [try] here: a rejection leaves the function. *)
Definition ttsSpeakCardFront_resume (cardId : Z) (speakable : string)
    (r : Settle) (st : Store) : Store * option string * Flow :=
  match ttsFetchToBlobUrl speakable r with
  | Resolved blobUrl =>
      if bool_decide (blobUrl = "") then (st, None, Return)
      else (cacheSet cardId blobUrl st, Some blobUrl, Return)
  | ResolvedNull => (st, None, Return)
  | Rejected => (st, None, Raise)
  end.

(** *** The two paths side by side

    Calls of [prefetchOneCard] (from the workers of any number of
    [warmPrefetch] calls) and of [ttsSpeakCardFront] (from [handleStart] and
    [grade]) interleave at their [await]s. [tasks] lists the calls that are
    suspended. *)

Inductive Path := Speculative | OnDemand.

Record Task := mkTask {
  path : Path;
  card : Z;
  phase : Phase
}.

Record Sys := mkSys {
  store : Store;
  tasks : list Task;
  ttsUrl : option string
}.

Definition initSys : Sys := mkSys emptyStore [] None.

Inductive Event :=
| CallPrefetch (cardId : Z)
| CallSpeak (cardId : Z) (speakable : string)
| Settled (i : nat) (r : Settle).

Definition setTtsUrl (u : option string) (old : option string) : option string :=
  match u with
  | Some _ => u
  | None => old
  end.

Definition step (e : Event) (s : Sys) : Sys :=
  match e with
  | CallPrefetch id =>
      match prefetchOneCard_enter id (store s) with
      | None => s
      | Some st' => mkSys st' (tasks s ++ [mkTask Speculative id AwaitInfo]) (ttsUrl s)
      end
  | CallSpeak id speakable =>
      match ttsSpeakCardFront_enter id speakable (store s) with
      | (u, Suspend ph) =>
          mkSys (store s) (tasks s ++ [mkTask OnDemand id ph]) (setTtsUrl u (ttsUrl s))
      | (u, _) => mkSys (store s) (tasks s) (setTtsUrl u (ttsUrl s))
      end
  | Settled i r =>
      match tasks s !! i with
      | None => s
      | Some (mkTask Speculative id ph) =>
          match prefetchOneCard_resume id ph r (store s) with
          | (st', Suspend ph') =>
              mkSys st' (<[i := mkTask Speculative id ph']> (tasks s)) (ttsUrl s)
          | (st', _) => mkSys st' (delete i (tasks s)) (ttsUrl s)
          end
      | Some (mkTask OnDemand id ph) =>
          match ph with
          | AwaitTts speakable =>
              match ttsSpeakCardFront_resume id speakable r (store s) with
              | (st', u, _) =>
                  mkSys st' (delete i (tasks s)) (setTtsUrl u (ttsUrl s))
              end
          | AwaitInfo => s
          end
      end
  end.

Definition run (evs : list Event) (s : Sys) : Sys :=
  fold_left (λ s e, step e s) evs s.

#[global] Instance Path_eq_dec : EqDecision Path.
Proof. solve_decision. Defined.

(** A task has a synthesis request outstanding when it is suspended at
    [ttsFetchToBlobUrl] with non-empty text. *)
Definition requesting (t : Task) : bool :=
  match phase t with
  | AwaitTts speakable => ttsRequested speakable
  | AwaitInfo => false
  end.

(** Synthesis requests outstanding for [id], on either path. *)
Definition synthOutstanding (id : Z) (s : Sys) : nat :=
  length (filter (λ t, card t = id ∧ requesting t = true) (tasks s)).

(** [prefetchOneCard] calls outstanding for [id], in either phase. *)
Definition prefetchOutstanding (id : Z) (s : Sys) : nat :=
  length (filter (λ t, card t = id ∧ path t = Speculative) (tasks s)).

(** Synthesis requests outstanding for [id] on the speculative path. *)
Definition prefetchSynthOutstanding (id : Z) (s : Sys) : nat :=
  length (filter (λ t, card t = id ∧ path t = Speculative ∧ requesting t = true)
                 (tasks s)).

(** The ids of the suspended [prefetchOneCard] calls. *)
Definition specIds (ts : list Task) : list Z :=
  card <$> filter (λ t, path t = Speculative) ts.

(** *** [warmPrefetch]: the worker pool *)

(** A worker is the [async function run()]: suspended at
    [await prefetchOneCard(id)] with that call done ([Looping], next is the
    loop test) or itself suspended ([Blocked]), returned ([Finished]) or
    rejected ([Failed]). *)
Inductive Worker :=
| Looping
| Blocked (id : Z) (ph : Phase)
| Finished
| Failed.

(** [started], [stored] and [failed] are ghost logs: the ids for which
    [prefetchOneCard] began work, those it handed to [cacheSet], and those
    whose fetch or synthesis gave no clip. *)
Record Pool := mkPool {
  pstore : Store;
  queue : list Z;
  workers : list Worker;
  started : list Z;
  stored : list Z;
  failed : list Z
}.

(** [(cand.ok && cand.cardIds ? cand.cardIds : []).filter((id) => id !==
    excludeCardId).slice(0, n)]; [cand] is [None] for a response that is not
    ok or has no ids. *)
Definition candidateList (cand : option (list Z)) (excludeCardId : option Z)
    (n : nat) : list Z :=
  take n (filter (λ id, Some id ≠ excludeCardId) (default [] cand)).

(** One pass of [while (queue.length) { const id = queue.shift()!; await
    prefetchOneCard(id); }] from the loop test to the [await]. *)
Definition run_iterate (p : Pool) : Pool * Worker :=
  match queue p with
  | [] => (p, Finished)
  | id :: q =>
      match prefetchOneCard_enter id (pstore p) with
      | None =>
          (mkPool (pstore p) q (workers p) (started p) (stored p) (failed p),
           Looping)
      | Some st' =>
          (mkPool st' q (workers p) (started p ++ [id]) (stored p) (failed p),
           Blocked id AwaitInfo)
      end
  end.

Definition push_worker (w : Worker) (p : Pool) : Pool :=
  mkPool (pstore p) (queue p) (workers p ++ [w]) (started p) (stored p) (failed p).

Definition set_worker (i : nat) (w : Worker) (p : Pool) : Pool :=
  mkPool (pstore p) (queue p) (<[i := w]> (workers p)) (started p) (stored p)
         (failed p).

(** [for (let i = 0; i < Math.min(CONCURRENCY, queue.length); i++)
    workers.push((async function run() {...})())]: the bound is read again
    on every pass, after the worker just created has taken its first id. *)
Fixpoint spawn (fuel i : nat) (p : Pool) : Pool :=
  match fuel with
  | O => p
  | S fuel' =>
      if (i <? Nat.min CONCURRENCY (length (queue p)))%nat then
        let (p', w) := run_iterate p in
        spawn fuel' (S i) (push_worker w p')
      else p
  end.

(** [warmPrefetch] from the computed [list] to [await Promise.all(workers)]. *)
Definition warmPrefetch_start (list : list Z) (st : Store) : Pool :=
  spawn CONCURRENCY 0 (mkPool st list [] [] [] []).

(** The fetch or synthesis of a card fails in a way the code sees: a request
    was rejected, there was no URL, or there was no text to speak. *)
Definition fetchFails (ph : Phase) (r : Settle) : bool :=
  match ph with
  | AwaitInfo =>
      match r with
      | Rejected => true
      | _ => false
      end
  | AwaitTts speakable =>
      match ttsFetchToBlobUrl speakable r with
      | Resolved blobUrl => bool_decide (blobUrl = "")
      | _ => true
      end
  end.

(** The clip arrived: [cacheSet] is called. *)
Definition fetchStores (ph : Phase) (r : Settle) : bool :=
  match ph with
  | AwaitInfo => false
  | AwaitTts speakable =>
      match ttsFetchToBlobUrl speakable r with
      | Resolved blobUrl => negb (bool_decide (blobUrl = ""))
      | _ => false
      end
  end.

(** Worker [i] is resumed; [r] settles the request it waits for. *)
Definition poolStep (i : nat) (r : Settle) (p : Pool) : Pool :=
  match workers p !! i with
  | Some Looping =>
      let (p', w) := run_iterate p in set_worker i w p'
  | Some (Blocked id ph) =>
      let (st', fl) := prefetchOneCard_resume id ph r (pstore p) in
      let w :=
        match fl with
        | Suspend ph' => Blocked id ph'
        | Return => Looping
        | Raise => Failed
        end in
      mkPool st' (queue p) (<[i := w]> (workers p)) (started p)
             (if fetchStores ph r then stored p ++ [id] else stored p)
             (if fetchFails ph r then failed p ++ [id] else failed p)
  | _ => p
  end.

Definition poolRun (sched : list (nat * Settle)) (p : Pool) : Pool :=
  fold_left (λ p e, poolStep e.1 e.2 p) sched p.

Inductive PromiseState := Pending | Fulfilled | RejectedP.

Definition isFailed (w : Worker) : bool :=
  match w with Failed => true | _ => false end.

Definition isFinished (w : Worker) : bool :=
  match w with Finished => true | _ => false end.

(** [Promise.all(workers)]. *)
Definition warmPrefetch_settled (p : Pool) : PromiseState :=
  if existsb isFailed (workers p) then RejectedP
  else if forallb isFinished (workers p) then Fulfilled
  else Pending.

(** The ids the suspended workers are fetching. *)
Definition blockedIds (ws : list Worker) : list Z :=
  omap (λ w, match w with Blocked id _ => Some id | _ => None end) ws.

(** A worker that can still be resumed. *)
Definition suspended (w : Worker) : bool :=
  match w with
  | Looping | Blocked _ _ => true
  | Finished | Failed => false
  end.

(** Work left: a bound on the number of resumptions still possible. *)
Definition workerWeight (w : Worker) : nat :=
  match w with
  | Looping => 1
  | Blocked _ AwaitInfo => 3
  | Blocked _ (AwaitTts _) => 2
  | Finished | Failed => 0
  end.

Definition workLeft (p : Pool) : nat :=
  3 * length (queue p) + sum_list (workerWeight <$> workers p).

(** *** Statements, invariants and sample runs *)

(** Handles produced by [URL.createObjectURL] are [blob:] URLs. *)
Definition isObjectUrl (url : string) : Prop := String.prefix "blob:" url = true.

(** The bookkeeping invariant of the cache. *)
Definition cacheOk (st : Store) : Prop :=
  NoDup (ttsCache st).*1 ∧ (length (ttsCache st) ≤ MAX_CACHE)%nat.

(** Ids 1..13 with the object URLs of their clips. *)
Definition thirteenClips : list (Z * string) :=
  [(1, "blob:c01"); (2, "blob:c02"); (3, "blob:c03"); (4, "blob:c04");
   (5, "blob:c05"); (6, "blob:c06"); (7, "blob:c07"); (8, "blob:c08");
   (9, "blob:c09"); (10, "blob:c10"); (11, "blob:c11"); (12, "blob:c12");
   (13, "blob:c13")].

(** The in-flight set is exactly the set of suspended [prefetchOneCard]
    calls, none of them twice. *)
Definition inflightOk (s : Sys) : Prop :=
  NoDup (specIds (tasks s)) ∧
  ∀ id, id ∈ specIds (tasks s) ↔ id ∈ inflight (store s).

(** Card 5 is spoken and cached; a worker prefetching card 7 reaches its
    synthesis request; the user grades, card 7 becomes current and
    [ttsSpeakCardFront] is called for it. *)
Definition gradeDuringPrefetch : list Event :=
  [CallSpeak 5 "front of card 5"; Settled 0 (Resolved "blob:c05");
   CallPrefetch 7; Settled 0 (Resolved "front of card 7");
   CallSpeak 7 "front of card 7"].

(** What holds of a pool working through [cands] from the store [st0]. *)
Record poolInv (cands : list Z) (st0 : Store) (p : Pool) : Prop := mkPoolInv {
  inv_noFailed : Forall (λ w, w ≠ Failed) (workers p);
  inv_queue : ∃ taken, cands = taken ++ queue p ∧ sublist (started p) taken;
  inv_blocked_nodup : NoDup (blockedIds (workers p));
  inv_inflight :
    inflight (pstore p) = inflight st0 ∪ list_to_set (blockedIds (workers p));
  inv_blocked_new : ∀ id, id ∈ blockedIds (workers p) → id ∉ inflight st0;
  inv_started : started p ≡ₚ failed p ++ stored p ++ blockedIds (workers p);
  inv_started_new : ∀ id, id ∈ started p → id ∉ inflight st0;
  inv_finished : Finished ∈ workers p → queue p = [];
  inv_blocked_uncached :
    ∀ id, id ∈ blockedIds (workers p) → id ∉ (ttsCache (pstore p)).*1;
  inv_failed_uncached :
    NoDup cands → ∀ id, id ∈ failed p → id ∉ (ttsCache (pstore p)).*1
}.

(** Every candidate taken from the queue was fetched, unless it was cached
    or in flight already; what is cached was so before or was stored by this
    call. *)
Record poolProgress (cands : list Z) (st0 : Store) (p : Pool) : Prop :=
  mkPoolProgress {
  pr_cached :
    ∀ id, id ∈ (ttsCache (pstore p)).*1 →
          id ∈ (ttsCache st0).*1 ∨ id ∈ stored p;
  pr_taken :
    ∀ taken, cands = taken ++ queue p →
    ∀ id, id ∈ taken →
          id ∈ started p ∨ id ∈ (ttsCache st0).*1 ∨ id ∈ inflight st0
}.

(** Every step of the schedule resumes a worker that is suspended. *)
Fixpoint effective (sched : list (nat * Settle)) (p : Pool) : bool :=
  match sched with
  | [] => true
  | (i, r) :: sched' =>
      match workers p !! i with
      | Some w => suspended w && effective sched' (poolStep i r p)
      | None => false
      end
  end.

(** [warmPrefetch] over cards 1, 2, 3 with the synthesis of card 2 rejected. *)
Definition secondCardFails : list (nat * Settle) :=
  [(0%nat, Resolved "front 1"); (1%nat, Resolved "front 2");
   (1%nat, Rejected); (0%nat, Resolved "blob:c01");
   (1%nat, ResolvedNull); (0%nat, ResolvedNull);
   (1%nat, Resolved "front 3"); (1%nat, Resolved "blob:c03");
   (0%nat, ResolvedNull); (1%nat, ResolvedNull)].

(** [warmPrefetch] over card 1: the card's text arrives, the synthesis
    gives a URL, and the download of the clip is answered with 404. *)
Definition clipNotFound : list (nat * Settle) :=
  [(0%nat, Resolved "front 1"); (0%nat, settles (Body 404 "blob:e01"));
   (0%nat, ResolvedNull)].

End App.

(** ** [client/src/App.tsx]: the record-answer flow and the sequencing guard *)

Module Review.

Inductive Role := assistant | user.

(** [Msg]; [None] is a field left out. *)
Record Msg := mkMsg {
  role : Role;
  text : option string;
  html : option string
}.

Inductive RecState := idle | listening | recording.

(** The state the flow reads and writes: [currentSeqRef.current],
    [messages], [recState]. *)
Record Ui := mkUi {
  currentSeq : Z;
  messages : list Msg;
  recState : RecState
}.

Definition setRecState (r : RecState) (u : Ui) : Ui :=
  mkUi (currentSeq u) (messages u) r.

(** [setMessages((m) => [...m, msg])]. *)
Definition pushMessage (msg : Msg) (u : Ui) : Ui :=
  mkUi (currentSeq u) (messages u ++ [msg]) (recState u).

(** The answer of [/api/review-chain]; the empty string also stands for a
    field that is missing. *)
Record ChainOut := mkChainOut {
  ok : bool;
  transcript : string;
  reply : string;
  error : string
}.

(** [a || b] on strings. *)
Definition orElse (a b : string) : string :=
  if bool_decide (a = "") then b else a.

(** How the promise the flow awaits settles, or which of the recorder's
    callbacks runs meanwhile. *)
Inductive Wake :=
| WDone
| WThrow
| WBlob (blob : option N)
| WDataUrl (url : string)
| WChain (out : ChainOut)
| WStartRecording
| WStopRecording.

(** The [await] at which [startListeningForAnswer] is suspended. *)
Inductive Pc :=
| AtPlayback
| AtMicStart
| AtRecord
| AtStop (blob : option N)
| AtDataUrl
| AtChain
| AtFinallyStop
| Finished.

(** [if (seqAtStart !== currentSeqRef.current) return;] and on to
    [await waitForPlaybackToFinish()]. *)
Definition startListeningForAnswer_enter (seqAtStart : Z) (u : Ui) : Ui * Pc :=
  if bool_decide (seqAtStart ≠ currentSeq u) then (u, Finished)
  else (u, AtPlayback).

(** The block after [await API.reviewChain(...)]. *)
Definition applyChainOut (out : ChainOut) (u : Ui) : Ui :=
  if ok out then
    let u1 :=
      pushMessage (mkMsg user (Some (orElse (transcript out) "(no speech)")) None) u in
    if bool_decide (reply out = "") then u1
    else pushMessage (mkMsg assistant (Some (reply out)) None) u1
  else
    pushMessage (mkMsg assistant (Some (orElse (error out) "(review failed)")) None) u.

(** [startListeningForAnswer] from one [await] to the next. A rejection
    inside the [try] goes to the [catch], which sets [recState] to idle, and
    then to the [finally]. *)
Definition startListeningForAnswer_resume (seqAtStart : Z) (pc : Pc) (w : Wake)
    (u : Ui) : Ui * Pc :=
  match pc, w with
  | Finished, _ => (u, Finished)
  | AtFinallyStop, (WDone | WThrow) => (u, Finished)
  | AtPlayback, WDone => (u, AtMicStart)
  | AtMicStart, WDone => (setRecState listening u, AtRecord)
  | AtRecord, WStartRecording => (setRecState recording u, AtRecord)
  | AtRecord, WStopRecording => (setRecState idle u, AtRecord)
  | AtRecord, WBlob blob => (setRecState idle u, AtStop blob)
  | AtStop None, WDone => (u, AtFinallyStop)
  | AtStop (Some _), WDone => (u, AtDataUrl)
  | AtDataUrl, WDataUrl url =>
      if negb (String.prefix "data:audio" url) then (u, AtFinallyStop)
      else if bool_decide (seqAtStart ≠ currentSeq u) then (u, AtFinallyStop)
      else (u, AtChain)
  | AtChain, WChain out => (applyChainOut out u, AtFinallyStop)
  | (AtPlayback | AtMicStart | AtRecord | AtStop _ | AtDataUrl | AtChain), WThrow =>
      (setRecState idle u, AtFinallyStop)
  | _, _ => (u, pc)
  end.

(** The page: the state, the flow in progress with the [seqAtStart] it
    captured, if any ([sttLockRef] is held exactly while there is one). *)
Record Page := mkPage {
  ui : Ui;
  flow : option (Z * Pc)
}.

Definition initPage : Page := mkPage (mkUi 0 [] idle) None.

(** What can happen on the page. [frontHTML] is the front of the card
    [API.current()] returned, empty when there is none. *)
Inductive PageEvent :=
| RecordPressed
| Woken (w : Wake)
| StartPressed
| Started (frontHTML : string)
| Graded (frontHTML : string).

Definition settle (x : Ui * Pc) (seqAtStart : Z) : Page :=
  match x.2 with
  | Finished => mkPage x.1 None
  | pc => mkPage x.1 (Some (seqAtStart, pc))
  end.

(** - [RecordPressed]: the button's [onClick], with a card showing.
    - [Woken]: the flow goes on.
    - [StartPressed]: [handleStart] up to [await API.start(deck)].
    - [Started]: [handleStart] from [await API.current()] to its next
      [await]: [currentSeqRef.current += 1], then the card's front or
      "Reviewer not active.".
    - [Graded]: [grade] from [await API.current()] on:
      [currentSeqRef.current += 1], then the next card's front or
      "Session finished. No more cards.". *)
Definition pageStep (e : PageEvent) (p : Page) : Page :=
  match e with
  | RecordPressed =>
      match flow p with
      | Some _ => p
      | None =>
          let seqAtStart := currentSeq (ui p) in
          settle (startListeningForAnswer_enter seqAtStart (ui p)) seqAtStart
      end
  | Woken w =>
      match flow p with
      | None => p
      | Some (seqAtStart, pc) =>
          settle (startListeningForAnswer_resume seqAtStart pc w (ui p)) seqAtStart
      end
  | StartPressed => mkPage (mkUi (currentSeq (ui p)) [] (recState (ui p))) (flow p)
  | Started frontHTML =>
      let u := mkUi (currentSeq (ui p) + 1) (messages (ui p)) (recState (ui p)) in
      mkPage
        (pushMessage
           (if bool_decide (frontHTML = "")
            then mkMsg assistant (Some "Reviewer not active.") None
            else mkMsg assistant None (Some frontHTML)) u)
        (flow p)
  | Graded frontHTML =>
      let u := mkUi (currentSeq (ui p) + 1) (messages (ui p)) (recState (ui p)) in
      mkPage
        (pushMessage
           (if bool_decide (frontHTML = "")
            then mkMsg assistant (Some "Session finished. No more cards.") None
            else mkMsg assistant None (Some frontHTML)) u)
        (flow p)
  end.

Definition pageRun (evs : list PageEvent) (p : Page) : Page :=
  fold_left (λ p e, pageStep e p) evs p.

(** *** Statements, invariants and sample runs *)

(** The answer is recorded and sent for card 1; the user grades while
    [/api/review-chain] is working; then its answer arrives. *)
Definition gradeDuringReview : list PageEvent :=
  [Started "<p>Card 1</p>"; RecordPressed;
   Woken WDone; Woken WDone; Woken WStartRecording; Woken WStopRecording;
   Woken (WBlob (Some 4096%N)); Woken WDone;
   Woken (WDataUrl "data:audio/webm;base64,GkXf");
   Graded "<p>Card 2</p>";
   Woken (WChain (mkChainOut true "Antwort eins" "Richtig." ""))].

End Review.

(** ** JS numbers: binary64 arithmetic *)

Module Binary64.
Local Open Scope Q_scope.

(** A finite JS number is a rational [m * 2^e] with [|m| < 2^53] and
    [-1074 <= e]; the operations give the exact result rounded to the nearest
    such number, ties to the even mantissa. The numbers computed here stay
    far below [2^1024], where binary64 has [Infinity]. *)

(** The nearest integer, ties to even. *)
Definition roundEven (x : Q) : Z :=
  let f := Qfloor x in
  match Qcompare (x - inject_Z f) (1 # 2) with
  | Lt => f
  | Gt => (f + 1)%Z
  | Eq => if Z.even f then f else (f + 1)%Z
  end.

(** The position of the leading bit of [q], for [q] other than 0:
    [2^(ilog2 q) <= |q| < 2^(ilog2 q + 1)]. *)
Definition ilog2 (q : Q) : Z :=
  let e := (Z.log2 (Z.abs (Qnum q)) - Z.log2 (Zpos (Qden q)))%Z in
  if Qle_bool (2 ^ e) (Qabs q) then e else (e - 1)%Z.

(** The exponent of the last of the 53 bits, not below that of the
    subnormal numbers. *)
Definition exponent (q : Q) : Z := Z.max (ilog2 q - 52) (-1074).

(** Round to nearest, ties to even. *)
Definition round64 (q : Q) : Q :=
  if Qeq_bool q 0 then 0
  else inject_Z (roundEven (q / 2 ^ exponent q)) * 2 ^ exponent q.

(** [a + b], [a - b], [a * b] and, for [b] other than 0, [a / b]. *)
Definition fadd (a b : Q) : Q := round64 (a + b).
Definition fsub (a b : Q) : Q := round64 (a - b).
Definition fmul (a b : Q) : Q := round64 (a * b).
Definition fdiv (a b : Q) : Q := round64 (a / b).

(** [Math.sqrt(q)] for a binary64 [q] that is not negative, as the engines
    compute it: the square root of IEEE 754, correctly rounded. The root of
    [q] scaled by [2^(-2e)] lies between the integers [f] and [f + 1], and
    is compared with the midpoint through the squares. *)
Definition sqrt64 (q : Q) : Q :=
  if Qle_bool q 0 then 0
  else
    let e := ((ilog2 q - 104) / 2)%Z in
    let x := q / 2 ^ (2 * e) in
    let f := Z.sqrt (Qfloor x) in
    let m :=
      match Qcompare x ((inject_Z f + (1 # 2)) * (inject_Z f + (1 # 2))) with
      | Lt => f
      | Gt => (f + 1)%Z
      | Eq => if Z.even f then f else (f + 1)%Z
      end in
    inject_Z m * 2 ^ e.

(** *** Statements *)

(** The finite binary64 numbers, below the overflow threshold. *)
Definition representable (y : Q) : Prop :=
  ∃ m e, (Z.abs m ≤ 2 ^ 53)%Z ∧ (-1074 ≤ e)%Z ∧ y == inject_Z m * 2 ^ e.

(** The decimal literal [n / 10^k] as the number the parser makes of it. *)
Definition literal (n : Z) (k : Z) : Q := round64 (inject_Z n / 10 ^ k).

End Binary64.

(** ** [client/src/stt.ts]: the utterance recorder *)

Module Stt.

(** [SpeechOnceOpts]; [None] is a field left out. Frame counts are integers,
    energies and milliseconds finite binary64 numbers, given as the
    rationals they are. *)
Record SpeechOnceOpts := mkOpts {
  rmsThreshold : option Q;
  startFrames : option Z;
  endFrames : option Z;
  frameMs : option Q;
  maxUtteranceMs : option Q
}.

(** The options [App.tsx] passes:
    [{ rmsThreshold: 0.02, startFrames: 4, maxUtteranceMs: 60000 }]. *)
Definition appOpts : SpeechOnceOpts :=
  mkOpts (Some (Binary64.literal 2 2)) (Some 4) None None (Some (60000 # 1)).

(** [Math.max] and [Math.round], which do not round: [Math.round] is the
    integer nearest to its argument, the upper one at a tie. *)
Definition Math_max (a b : Q) : Q := if Qle_bool a b then b else a.
Definition Math_round (q : Q) : Z := Qfloor (q + (1 # 2)).

(** The destructuring with defaults at the head of [recordOneUtterance]. *)
Record Config := mkConfig {
  cfg_rmsThreshold : Q;
  cfg_startFrames : Z;
  cfg_endFrames : Z;
  cfg_maxUtteranceMs : Q
}.

Definition frameMsDefault : Q := 50 # 1.

Definition resolveOpts (o : SpeechOnceOpts) : Config :=
  let frameMs := default frameMsDefault (frameMs o) in
  mkConfig
    (default (Binary64.literal 2 2) (rmsThreshold o))
    (default 4 (startFrames o))
    (default (Z.max 1 (Math_round
                         (Binary64.fdiv (3000 # 1) (Math_max (1 # 1) frameMs))))
             (endFrames o))
    (default (60000 # 1) (maxUtteranceMs o)).

(** [_rms(buf)]; the samples of a [Uint8Array] are integers. [None] is
    [NaN], which [0 / 0] gives for an empty buffer. *)
Definition _rms (buf : list Z) : option Q :=
  let sum :=
    fold_left (λ (sum : Q) (b : Z),
                 let v := Binary64.fdiv (Binary64.fsub (inject_Z b) 128) 128 in
                 Binary64.fadd sum (Binary64.fmul v v))
              buf 0%Q in
  match buf with
  | [] => None
  | _ :: _ =>
      Some (Binary64.sqrt64
              (Binary64.fdiv sum (inject_Z (Z.of_nat (length buf)))))
  end.

(** [energy > rmsThreshold]. *)
Definition loud (thr energy : Q) : bool := negb (Qle_bool energy thr).

(** [performance.now() - startedAt > maxUtteranceMs]: the difference is
    the binary64 one. *)
Definition overtime (cfg : Config) (startedAt now : Q) : bool :=
  negb (Qle_bool (Binary64.fsub now startedAt) (cfg_maxUtteranceMs cfg)).

(** The platform's [MediaRecorder]: whether it is recording, the bytes
    gathered since the last [dataavailable] event, and the sizes of the
    [dataavailable] events queued but not yet dispatched. *)
Record MediaRecorder := mkRecorder {
  mr_recording : bool;
  mr_gathered : N;
  mr_events : list N
}.

Definition idleRecorder : MediaRecorder := mkRecorder false 0 [].

(** [start(timeslice)]: an [InvalidStateError] unless inactive. *)
Definition mr_start (m : MediaRecorder) : MediaRecorder :=
  if mr_recording m then m else mkRecorder true 0 (mr_events m).

(** [requestData()]: an [InvalidStateError] when inactive; otherwise a
    [dataavailable] event with the gathered data is queued. *)
Definition mr_requestData (m : MediaRecorder) : MediaRecorder :=
  if mr_recording m then mkRecorder true 0 (mr_events m ++ [mr_gathered m])
  else m.

(** [stop()]: nothing when inactive; otherwise a last [dataavailable] event
    is queued and the recorder is inactive. *)
Definition mr_stop (m : MediaRecorder) : MediaRecorder :=
  if mr_recording m then mkRecorder false 0 (mr_events m ++ [mr_gathered m])
  else m.

(** The encoder delivers [n] more bytes. *)
Definition mr_audio (n : N) (m : MediaRecorder) : MediaRecorder :=
  if mr_recording m then mkRecorder true (mr_gathered m + n) (mr_events m)
  else m.

(** The calls made on [this._rec], in order. *)
Inductive RecCall :=
| CallStart (timeslice : Z)
| CallRequestData
| CallStop.

(** The fields of a [SpeechOnce] instance: [_analyser] and [_rec] are [true]
    when not [null]; [_chunks] holds the sizes of the collected parts. *)
Record SpeechOnce := mkSpeechOnce {
  _running : bool;
  _analyser : bool;
  _rec : bool;
  _chunks : list N
}.

(** A new instance, before [start()]. *)
Definition newSpeechOnce : SpeechOnce := mkSpeechOnce false false false [].

(** After [start()] has resolved. *)
Definition startedSpeechOnce : SpeechOnce := mkSpeechOnce true true true [].

(** The promise [recordOneUtterance] returns: the blob is [None] for
    [null], otherwise its size. *)
Inductive Promise :=
| Pending
| Resolved (blob : option N).

(** The callback the capture waits for. *)
Inductive Scheduled :=
| NextFrame
| FinalizeTimer
| Nothing.

(** [onStartRecording] and [onStopRecording] as the caller sees them. *)
Inductive Callback := OnStartRecording | OnStopRecording.

(** One call of [recordOneUtterance]: the instance, the platform recorder,
    the closure variables of [tick], what is scheduled, the promise. [calls]
    and [callbacks] log the calls made, [captured] counts the bytes the
    encoder produced while recording. *)
Record Capture := mkCapture {
  inst : SpeechOnce;
  mr : MediaRecorder;
  speakingFrames : Z;
  silenceFrames : Z;
  recording : bool;
  startedAt : Q;
  scheduled : Scheduled;
  promise : Promise;
  calls : list RecCall;
  callbacks : list Callback;
  captured : N
}.

(** [this._rec!.m()] inside [try {...} catch {}]: with [_rec] null the call
    throws and nothing happens. *)
Definition onRec (i : SpeechOnce) (f : MediaRecorder → MediaRecorder)
    (m : MediaRecorder) : MediaRecorder :=
  if _rec i then f m else m.

Definition logRec (i : SpeechOnce) (c : RecCall) (log : list RecCall) : list RecCall :=
  if _rec i then log ++ [c] else log.

(** [recordOneUtterance()] up to its [await]; [now] is [performance.now()]. *)
Definition recordOneUtterance (cfg : Config) (now : Q) (i : SpeechOnce)
    (m : MediaRecorder) : Capture :=
  if negb (_running i) || negb (_analyser i) || negb (_rec i) then
    mkCapture i m 0 0 false now Nothing (Resolved None) [] [] 0
  else
    mkCapture (mkSpeechOnce (_running i) (_analyser i) (_rec i) [])
              m 0 0 false now NextFrame Pending [] [] 0.

(** The forced stop, the same in both branches:
    [try { this._rec!.requestData(); } catch {}
     try { this._rec!.stop(); } catch {}
     setTimeout(() => {...}, 150); return;]. *)
Definition forceStop (c : Capture) (speaking silence : Z) (rec : bool)
    (m : MediaRecorder) (log : list RecCall) (cbs : list Callback) : Capture :=
  mkCapture (inst c)
            (onRec (inst c) mr_stop (onRec (inst c) mr_requestData m))
            speaking silence rec (startedAt c) FinalizeTimer (promise c)
            (logRec (inst c) CallStop (logRec (inst c) CallRequestData log))
            cbs (captured c).

(** [tick], run by [requestAnimationFrame]; [energy] is what [_rms] gives for
    the analyser's samples, [now] is [performance.now()]. *)
Definition tick (cfg : Config) (energy now : Q) (c : Capture) : Capture :=
  if negb (_running (inst c)) || negb (_analyser (inst c)) then
    mkCapture (inst c) (mr c) (speakingFrames c) (silenceFrames c) (recording c)
              (startedAt c) Nothing (Resolved None) (calls c) (callbacks c)
              (captured c)
  else if negb (recording c) then
    let speaking :=
      if loud (cfg_rmsThreshold cfg) energy then speakingFrames c + 1 else 0 in
    let '(m, rec, silence, log, cbs) :=
      if speaking >=? cfg_startFrames cfg then
        (onRec (inst c) mr_start (mr c), true, 0,
         logRec (inst c) (CallStart 250) (calls c),
         callbacks c ++ [OnStartRecording])
      else (mr c, false, silenceFrames c, calls c, callbacks c) in
    if overtime cfg (startedAt c) now then forceStop c speaking silence rec m log cbs
    else
      mkCapture (inst c) m speaking silence rec (startedAt c) NextFrame
                (promise c) log cbs (captured c)
  else
    let silence :=
      if loud (cfg_rmsThreshold cfg) energy then 0 else silenceFrames c + 1 in
    if silence >=? cfg_endFrames cfg then
      forceStop c (speakingFrames c) silence true (mr c) (calls c) (callbacks c)
    else if overtime cfg (startedAt c) now then
      forceStop c (speakingFrames c) silence true (mr c) (calls c) (callbacks c)
    else
      mkCapture (inst c) (mr c) (speakingFrames c) silence true (startedAt c)
                NextFrame (promise c) (calls c) (callbacks c) (captured c).

(** [ondataavailable]: [if (ev && ev.data && ev.data.size > 0)
    this._chunks.push(ev.data)]. *)
Definition ondataavailable (size : N) (i : SpeechOnce) : SpeechOnce :=
  if (0 <? size)%N then
    mkSpeechOnce (_running i) (_analyser i) (_rec i) (_chunks i ++ [size])
  else i.

(** [new Blob(this._chunks)]'s size. *)
Definition blobSize (chunks : list N) : N := fold_right N.add 0%N chunks.

(** The callback given to [setTimeout]:
    [const mime = (this._rec!.mimeType || "audio/webm").split(";")[0];
     const blob = this._chunks.length ? new Blob(this._chunks, ...) : null;
     onStopRecording?.(); resolve(blob);]
    With [_rec] null the first line throws a [TypeError] and the callback
    ends there. *)
Definition finalize (c : Capture) : Capture :=
  if _rec (inst c) then
    let blob :=
      match _chunks (inst c) with
      | [] => None
      | _ => Some (blobSize (_chunks (inst c)))
      end in
    mkCapture (inst c) (mr c) (speakingFrames c) (silenceFrames c) (recording c)
              (startedAt c) Nothing (Resolved blob) (calls c)
              (callbacks c ++ [OnStopRecording]) (captured c)
  else
    mkCapture (inst c) (mr c) (speakingFrames c) (silenceFrames c) (recording c)
              (startedAt c) Nothing (promise c) (calls c) (callbacks c)
              (captured c).

Definition with_inst_mr (i : SpeechOnce) (m : MediaRecorder) (cap : N)
    (c : Capture) : Capture :=
  mkCapture i m (speakingFrames c) (silenceFrames c) (recording c) (startedAt c)
            (scheduled c) (promise c) (calls c) (callbacks c) cap.

(** What happens while the promise is pending. *)
Inductive Ev :=
| Frame (energy now : Q)
| Audio (bytes : N)
| Timeslice
| Dispatch
| Timer
| StopCalled
| StopDone.

(** One event.
    - [Frame]: the animation frame runs [tick], if one was requested.
    - [Audio], [Timeslice]: the recorder gathers data and, every 250 ms,
      queues a [dataavailable] event.
    - [Dispatch]: the oldest queued event reaches [ondataavailable].
    - [Timer]: the 150 ms timeout fires and its callback reads [_chunks] as
      it is then: a queued event that has not been dispatched is not in it.
    - [StopCalled]: [stop()] up to [await this._ac?.close()]: [_running] is
      cleared and the tracks are stopped, which stops the recorder.
    - [StopDone]: the rest of [stop()]. *)
Definition stepCapture (cfg : Config) (e : Ev) (c : Capture) : Capture :=
  match e with
  | Frame energy now =>
      match scheduled c with
      | NextFrame => tick cfg energy now c
      | _ => c
      end
  | Audio n =>
      with_inst_mr (inst c) (mr_audio n (mr c))
                   (if mr_recording (mr c) then captured c + n else captured c)%N c
  | Timeslice => with_inst_mr (inst c) (mr_requestData (mr c)) (captured c) c
  | Dispatch =>
      match mr_events (mr c) with
      | [] => c
      | size :: rest =>
          with_inst_mr (ondataavailable size (inst c))
                       (mkRecorder (mr_recording (mr c)) (mr_gathered (mr c)) rest)
                       (captured c) c
      end
  | Timer =>
      match scheduled c with
      | FinalizeTimer => finalize c
      | _ => c
      end
  | StopCalled =>
      with_inst_mr (mkSpeechOnce false (_analyser (inst c)) (_rec (inst c))
                                 (_chunks (inst c)))
                   (mr_stop (mr c)) (captured c) c
  | StopDone =>
      with_inst_mr (mkSpeechOnce false false false (_chunks (inst c)))
                   (mr c) (captured c) c
  end.

Definition runCapture (cfg : Config) (evs : list Ev) (c : Capture) : Capture :=
  fold_left (λ c e, stepCapture cfg e c) evs c.

(** Animation frames only. *)
Definition frames (readings : list (Q * Q)) : list Ev :=
  (λ x, Frame x.1 x.2) <$> readings.

(** Some stretch of [n] consecutive readings is all above the threshold. *)
Definition loudPrefix (n : nat) (thr : Q) (es : list Q) : bool :=
  (n <=? length es)%nat && forallb (loud thr) (take n es).

Fixpoint hasLoudRun (n : nat) (thr : Q) (es : list Q) : bool :=
  loudPrefix n thr es ||
  match es with
  | [] => false
  | _ :: es' => hasLoudRun n thr es'
  end.

(** *** Statements, invariants and sample runs *)

Definition sumN (l : list N) : N := fold_right N.add 0%N l.

(** What holds throughout a capture begun on a started instance with an idle
    recorder. *)
Record captureInv (c : Capture) : Prop := mkCaptureInv {
  ci_bytes :
    (blobSize (_chunks (inst c)) + sumN (mr_events (mr c)) + mr_gathered (mr c)
     = captured c)%N;
  ci_idle : mr_recording (mr c) = false → mr_gathered (mr c) = 0%N;
  ci_final : scheduled c = FinalizeTimer → mr_recording (mr c) = false;
  ci_refs : _running (inst c) = true →
            _rec (inst c) = true ∧ _analyser (inst c) = true;
  ci_calls :
    match scheduled c with
    | NextFrame => calls c = if recording c then [CallStart 250] else []
    | FinalizeTimer =>
        calls c = [CallRequestData; CallStop] ∨
        calls c = [CallStart 250; CallRequestData; CallStop]
    | Nothing => True
    end;
  ci_promise : promise c = Pending ∨ scheduled c = Nothing;
  ci_counters : 0 ≤ speakingFrames c ∧ 0 ≤ silenceFrames c
}.



(** The capture is polling and nobody has called [stop()]. *)
Definition polling (c : Capture) : Prop :=
  scheduled c = NextFrame ∧ _running (inst c) = true ∧
  _analyser (inst c) = true ∧ promise c = Pending.

(** With [s] loud readings just before them, the readings [es] complete no
    stretch of [n] loud ones. *)
Definition noRunFrom (n : nat) (thr : Q) (s : nat) (es : list Q) : Prop :=
  hasLoudRun n thr es = false ∧
  ∀ k, (n ≤ k + s)%nat → (k ≤ length es)%nat →
       forallb (loud thr) (take k es) = false.

(** A capture with the options of [App.tsx], called at time 0. *)
Definition appCapture : Capture :=
  recordOneUtterance (resolveOpts appOpts) 0 startedSpeechOnce idleRecorder.

(** The mean of the squares of the normalized amplitudes
    [(sample - 128) / 128], exactly. *)
Definition meanSquare (buf : list Z) : Q :=
  (fold_right Qplus 0
     ((λ b, ((inject_Z b - 128) / 128) * ((inject_Z b - 128) / 128)) <$> buf)
   / inject_Z (Z.of_nat (length buf)))%Q.

(** The sum of the squares of the samples' distances from 128. *)
Definition sumSquares (buf : list Z) : Z :=
  fold_right Z.add 0 ((λ b, (b - 128) * (b - 128)) <$> buf).

(** The normalized amplitude of a sample. *)
Definition normalized (b : Z) : R := ((IZR b - 128) / 128)%R.

Definition sumOfSquares (xs : list R) : R :=
  fold_right Rplus 0%R ((λ x, x * x)%R <$> xs).

(** The root mean square of a list of amplitudes. *)
Definition rootMeanSquare (xs : list R) : R :=
  sqrt (sumOfSquares xs / INR (length xs))%R.

End Stt.

(** ** [server/index.js]: the text handed to the synthesis provider *)

Module Server.

(** A JS string is a sequence of UTF-16 code units, here [list N];
    [length] and [slice] count code units. *)

Definition MAX : nat := 4800.

(** ["…"], U+2026, one code unit. *)
Definition ellipsis : N := 8230.

(** [text.length > MAX ? (text.slice(0, MAX - 1) + "…") : text]. *)
Definition safeText (text : list N) : list N :=
  if (MAX <? length text)%nat then take (MAX - 1) text ++ [ellipsis] else text.

(** The code units [String.prototype.trim] strips: WhiteSpace and
    LineTerminator. *)
Definition isTrimmed (c : N) : bool :=
  existsb (N.eqb c)
    [9; 10; 11; 12; 13; 32; 160; 5760; 8232; 8233; 8239; 8287; 12288; 65279]%N
  || ((8192 <=? c) && (c <=? 8202))%N.

Fixpoint trimStart (s : list N) : list N :=
  match s with
  | [] => []
  | c :: s' => if isTrimmed c then trimStart s' else s
  end.

Definition trim (s : list N) : list N := rev (trimStart (rev (trimStart s))).

(** The [text] field of the request body. *)
Inductive BodyText :=
| Absent
| NotAString
| Str (s : list N).

(** What the handler does with the request: answer with an error status, or
    call the provider with [input.text]. *)
Inductive TtsAction :=
| Reject (status : Z)
| Synthesize (text : list N).

(** [POST /api/tts] up to [replicate.run]. [tokenSet] is whether
    [REPLICATE_API_TOKEN] is set. [text?.trim()] on a value that is neither
    a string nor nullish throws, which the [catch] answers with 500. *)
Definition ttsRoute (tokenSet : bool) (text : BodyText) : TtsAction :=
  if negb tokenSet then Reject 500
  else
    match text with
    | Absent => Reject 400
    | NotAString => Reject 500
    | Str s =>
        match trim s with
        | [] => Reject 400
        | _ => Synthesize (safeText s)
        end
    end.

End Server.

(** ** [client/src/App.tsx]: teardown of the cache, size of the worker pool *)

Module AppEffects.
Import App.

(** The cleanup of the last [useEffect]:
    [for (const url of ttsCache.current.values()) { try { if
    (url.startsWith("blob:")) URL.revokeObjectURL(url); } catch {} }
    ttsCache.current.clear();]. *)
Definition cleanup (st : Store) : Store :=
  mkStore []
          (inflight st)
          (fold_left (λ log url, revokeIfBlob url log) (ttsCache st).*2 (revoked st)).

(** The URLs a run of [cacheSet] calls puts into the cache: those passed for
    an id that is not cached at the time of the call. *)
Fixpoint acceptedUrls (calls : list (Z * string)) (st : Store) : list string :=
  match calls with
  | [] => []
  | c :: calls' =>
      (if map_has (ttsCache st) c.1 then [] else [c.2])
      ++ acceptedUrls calls' (cacheSet c.1 c.2 st)
  end.

(** Whether [cacheSet(id, _)] on [st] evicts the entry of [id']. *)
Definition evicts (st : Store) (id id' : Z) : bool :=
  negb (map_has (ttsCache st) id)
  && (MAX_CACHE <=? length (ttsCache st))%nat
  && bool_decide (map_first_key (ttsCache st) = Some id').

End AppEffects.

(** ** [client/src/App.tsx]: the autoplay effect *)

Module AppPlayer.
Import App.

(** The cleanup of [useEffect(..., [ttsUrl, allowAutoplay])], for the run of
    the effect that saw [url] as [ttsUrl]: a run that left at
    [if (!el || !ttsUrl) return] has no cleanup; the others revoke their
    URL if it is an object URL. *)
Definition autoplayCleanup (url : option string) (log : list string)
    : list string :=
  match url with
  | Some u => if bool_decide (u = "") then log else revokeIfBlob u log
  | None => log
  end.

(** The commit that follows a segment: when [ttsUrl] has changed, the
    cleanup of the previous run of the effect is called before the effect
    runs again. ([allowAutoplay], the other dependency, is set to [true] by
    [handleStart] and [grade] before they reach [ttsSpeakCardFront] and is
    never set back: it does not change once [ttsUrl] is set.) *)
Definition commit (before after : Sys) : Sys :=
  if bool_decide (ttsUrl before = ttsUrl after) then after
  else
    mkSys (mkStore (ttsCache (store after)) (inflight (store after))
                   (autoplayCleanup (ttsUrl before) (revoked (store after))))
          (tasks after) (ttsUrl after).

Definition stepRendered (e : Event) (s : Sys) : Sys := commit s (step e s).

Definition runRendered (evs : list Event) (s : Sys) : Sys :=
  fold_left (λ s e, stepRendered e s) evs s.

End AppPlayer.

(** ** [client/src/App.tsx]: item transitions *)

Module ReviewEvents.
Import Review.

(** The events that change the item: [handleStart] and [grade] past their
    [await API.current()]. *)
Definition isTransition (e : PageEvent) : bool :=
  match e with
  | Started _ | Graded _ => true
  | _ => false
  end.

(** Where the flow has to be for [recState] not to be idle: waiting for the
    utterance. *)
Definition indicatorInv (p : Page) : Prop :=
  recState (ui p) ≠ idle → ∃ seqAtStart, flow p = Some (seqAtStart, AtRecord).

End ReviewEvents.

(** ** [client/src/stt.ts]: whole captures *)

Module SttRuns.
Import Stt.

(** The [speakingFrames] counter of [tick] run over a list of readings from
    the value [s]: whether it reaches [n], the test
    [speakingFrames >= startFrames]. *)
Fixpoint reachesStart (n : nat) (thr : Q) (s : nat) (es : list Q) : bool :=
  match es with
  | [] => false
  | e :: es' =>
      if loud thr e then (n <=? s + 1)%nat || reachesStart n thr (s + 1) es'
      else reachesStart n thr 0 es'
  end.

(** The bytes the encoder delivers during a list of events. *)
Definition audioBytes (evs : list Ev) : N :=
  fold_right (λ e total, match e with Audio n => n + total | _ => total end)%N
             0%N evs.

(** The 250 ms boundaries among a list of events. *)
Definition timeslices (evs : list Ev) : nat :=
  fold_right (λ e n, match e with Timeslice => S n | _ => n end) 0%nat evs.

(** The recorder's own events: encoded audio, the 250 ms boundary, the
    dispatch of a queued [dataavailable]. *)
Definition isMedia (e : Ev) : bool :=
  match e with
  | Audio _ | Timeslice | Dispatch => true
  | _ => false
  end.

(** An animation frame with a reading above (or not above) the threshold
    and before the ceiling. *)
Definition isFrame (cfg : Config) (t0 : Q) (above : bool) (e : Ev) : bool :=
  match e with
  | Frame energy now =>
      bool_decide (loud (cfg_rmsThreshold cfg) energy = above)
      && negb (overtime cfg t0 now)
  | _ => false
  end.

(** What the caller's two callbacks and the promise have seen so far. *)
Record callbackInv (c : Capture) : Prop := mkCallbackInv {
  cb_shape :
    ∃ stopped : bool,
      callbacks c = (if recording c then [OnStartRecording] else [])
                    ++ (if stopped then [OnStopRecording] else []) ∧
      (stopped = true → scheduled c = Nothing ∧ ∃ blob, promise c = Resolved blob);
  cb_blob :
    ∀ n, promise c = Resolved (Some n) →
         OnStopRecording ∈ callbacks c ∧ (0 < n)%N;
  cb_chunks :
    scheduled c ≠ Nothing → Forall (λ n, (0 < n)%N) (_chunks (inst c))
}.

(** The capture records: the recorder runs, the first callback was made,
    and [silenceFrames] is [k]. *)
Record recordingInv (t0 : Q) (k : Z) (c : Capture) : Prop := mkRecordingInv {
  ri_polling : polling c;
  ri_rec : _rec (inst c) = true;
  ri_recording : recording c = true;
  ri_recorder : mr_recording (mr c) = true;
  ri_silence : silenceFrames c = k;
  ri_startedAt : startedAt c = t0;
  ri_callbacks : callbacks c = [OnStartRecording];
  ri_calls : calls c = [CallStart 250]
}.

(** An event of the time before the utterance: a recorder event or a quiet
    frame. *)
Definition beforeSpeech (cfg : Config) (t0 : Q) (e : Ev) : bool :=
  isMedia e || isFrame cfg t0 false e.

(** An event of the utterance: a recorder event or a loud frame. *)
Definition duringSpeech (cfg : Config) (t0 : Q) (e : Ev) : bool :=
  isMedia e || isFrame cfg t0 true e.

(** [Math.max(1, Math.round(3000 / Math.max(1, frameMs)))]. *)
Definition defaultEndFrames (frameMs : Q) : Z :=
  cfg_endFrames (resolveOpts (mkOpts None None None (Some frameMs) None)).

End SttRuns.

(** ** [server/index.js]: the calls to AnkiConnect *)

Module Anki.

(** [String.prototype.includes]: the pattern is a prefix of some suffix.
    Messages and patterns are kept as byte strings; the three patterns looked
    for are ASCII, for which a match in the bytes is a match in the code
    units and conversely. *)
Fixpoint includes (pat s : string) : bool :=
  String.prefix pat s ||
  match s with
  | EmptyString => false
  | String _ s' => includes pat s'
  end.

(** An [Error] object as the [catch] sees it. *)
Record JsError := mkError {
  err_name : string;
  err_message : string
}.

(** [new Error(message)]. *)
Definition Error (message : string) : JsError := mkError "Error" message.

(** [String(err?.message || err)]; [String(err)] of an error without a
    message is its name. *)
Definition messageOf (e : JsError) : string :=
  if bool_decide (err_message e = "") then err_name e else err_message e.

(** [res.json()]: it rejects, or gives an object whose [error] is truthy
    ([Some], holding what the template string makes of it) or not. *)
Inductive Body (V : Type) :=
| Unparsable (e : JsError)
| Parsed (error : option string) (result : V).
Arguments Unparsable {V} e.
Arguments Parsed {V} error result.

(** One [fetch(ANKI_URL, ...)]: it rejects (connection reset, the 15 s
    [AbortSignal.timeout], ...) or resolves with a status and a body. *)
Inductive Attempt (V : Type) :=
| Rejects (e : JsError)
| Responds (status : N) (body : Body V).
Arguments Rejects {V} e.
Arguments Responds {V} status body.

(** [res.ok]. *)
Definition ok (status : N) : bool := ((200 <=? status) && (status <=? 299))%N.

(** [`${res.status}`]. *)
Definition decimal (n : N) : string := NilZero.string_of_uint (N.to_uint n).

(** A string of decimal digits. *)
Definition isDigit (c : Ascii.ascii) : bool :=
  (48 <=? Ascii.nat_of_ascii c)%nat && (Ascii.nat_of_ascii c <=? 57)%nat.

Fixpoint digits (s : string) : bool :=
  match s with
  | EmptyString => true
  | String c s' => isDigit c && digits s'
  end.

(** The [try] block: the result, or the error thrown. *)
Definition tryOnce {V} (a : Attempt V) : JsError + V :=
  match a with
  | Rejects e => inl e
  | Responds status body =>
      if negb (ok status) then inl (Error ("AnkiConnect HTTP " +:+ decimal status))
      else
        match body with
        | Unparsable e => inl e
        | Parsed (Some error) _ => inl (Error ("AnkiConnect: " +:+ error))
        | Parsed None result => inr result
        end
  end.

(** The test of the [catch] block on the message. *)
Definition transient (msg : string) : bool :=
  includes "socket hang up" msg || includes "ECONNRESET" msg
  || includes "timeout" msg.

(** [ankiInvoke(action, params, { retries })] from its [i]-th request on;
    [env] gives what each request meets. [retries] is a count ([retries > 0]
    is [retries = S _]); every call in [index.js] leaves it at its default.
    The result comes with the number of requests made. *)
Fixpoint ankiInvoke_from {V} (retries : nat) (env : nat → Attempt V) (i : nat)
    : (JsError + V) * nat :=
  match tryOnce (env i) with
  | inr result => (inr result, S i)
  | inl err =>
      match retries with
      | S retries' =>
          if transient (messageOf err) then ankiInvoke_from retries' env (S i)
          else (inl err, S i)
      | O => (inl err, S i)
      end
  end.

Definition defaultRetries : nat := 2.

Definition ankiInvoke {V} (env : nat → Attempt V) : (JsError + V) * nat :=
  ankiInvoke_from defaultRetries env 0.

(** *** [GET /api/candidates] *)

(** A JS number: what [Number(...)] can give. *)
Inductive JsNumber :=
| NaN
| NegInfinity
| Finite (q : Q)
| Infinity.

(** [Math.min(20, x)] and [Math.max(1, x)]. *)
Definition min20 (x : JsNumber) : JsNumber :=
  match x with
  | NaN => NaN
  | NegInfinity => NegInfinity
  | Finite q => Finite (if Qle_bool q 20 then q else 20)
  | Infinity => Finite 20
  end.

Definition max1 (x : JsNumber) : JsNumber :=
  match x with
  | NaN => NaN
  | NegInfinity => Finite 1
  | Finite q => Finite (if Qle_bool 1 q then q else 1)
  | Infinity => Infinity
  end.

(** [ToIntegerOrInfinity] on a finite number: the fraction is cut off. *)
Definition truncate (q : Q) : Z :=
  if Qle_bool 0 q then Qfloor q else Qceiling q.

(** [Array.prototype.slice(0, end)]: [NaN] counts as 0, an [end] below zero
    counts from the end of the array. *)
Definition sliceTo {A} (l : list A) (end_ : JsNumber) : list A :=
  match end_ with
  | NaN => []
  | NegInfinity => []
  | Finite q =>
      let k := truncate q in
      if k <? 0 then take (Z.to_nat (Z.max (Z.of_nat (length l) + k) 0)) l
      else take (Z.to_nat k) l
  | Infinity => l
  end.

(** What the route answers. *)
Inductive CandidatesAnswer :=
| BadRequest
| CardIds (ids : list Z)
| ServerError (error : string).

(** The handler. [deckName] is [String(req.query.deckName || "")]; [limit]
    is [None] when [req.query.limit] is missing or empty and otherwise what
    [Number(req.query.limit)] gives; the result of [findCards] is [None] for
    [null]. The answer comes with the number of requests made to
    AnkiConnect. *)
Definition candidates (deckName : string) (limit : option JsNumber)
    (env : nat → Attempt (option (list Z))) : CandidatesAnswer * nat :=
  let limit := max1 (min20 (default (Finite 10) limit)) in
  if bool_decide (deckName = "") then (BadRequest, 0%nat)
  else
    match ankiInvoke env with
    | (inr ids, n) => (CardIds (sliceTo (default [] ids) limit), n)
    | (inl e, n) => (ServerError (messageOf e), n)
    end.

End Anki.

(** ** [server/index.js]: [POST /api/review-chain], and the request the
    client sends to it *)

Module ReviewChain.
Import Server.

(** The code units of an ASCII literal. *)
Definition codeUnits (s : string) : list N :=
  Ascii.N_of_ascii <$> String.list_ascii_of_string s.

(** [String.prototype.startsWith]. *)
Definition startsWith (s pat : list N) : bool :=
  bool_decide (take (length pat) s = pat).

(** A string of the request body as [!x] and [String(x)] see it: [None]
    when falsy. *)
Definition truthy (s : list N) : option (list N) :=
  match s with
  | [] => None
  | _ => Some s
  end.

(** *** The client: [startListeningForAnswer] from the data URL to the
    [POST] *)

(** [if (!frontTxt.trim()) frontTxt = "(front text missing)"]. *)
Definition frontOrPlaceholder (frontTxt : list N) : list N :=
  match trim frontTxt with
  | [] => codeUnits "(front text missing)"
  | _ => frontTxt
  end.

(** The fields [audioBase64] and [front] of the request, or [None] when the
    flow returns at [if (!dataUrl.startsWith("data:audio")) return]. *)
Definition chainPayload (dataUrl frontTxt : list N) : option (list N * list N) :=
  if startsWith dataUrl (codeUnits "data:audio")
  then Some (dataUrl, frontOrPlaceholder frontTxt)
  else None.

(** *** The server *)

(** [Math.round((String(audioBase64).length / 4) * 3)]. *)
Definition approxBytes (audioBase64 : list N) : Z :=
  Stt.Math_round (inject_Z (Z.of_nat (length audioBase64)) / 4 * 3).

(** What is handed to the transcription model as [audio]. *)
Inductive AudioInput :=
| DataUri
| UploadedFile.

Inductive ChainStart :=
| Reject (status : Z)
| Transcribe (audio : AudioInput).

(** The route up to the choice of the audio input. The two fields are
    [None] when falsy, otherwise what [String(...)] makes of them. *)
Definition reviewChain (audioBase64 front : option (list N)) : ChainStart :=
  match audioBase64, front with
  | Some audio, Some _ =>
      if approxBytes audio >=? 1000000 then Transcribe UploadedFile
      else Transcribe DataUri
  | _, _ => Reject 400
  end.

(** *** [uploadToReplicateFilesFromDataUrl]: the data URL taken apart *)

(** [[^;,]], [[^,]] and [[A-Za-z0-9+/=_-]]. *)
Definition notSemicolonComma (c : N) : bool := negb ((c =? 59) || (c =? 44))%N.
Definition notComma (c : N) : bool := negb (c =? 44)%N.
Definition isBase64 (c : N) : bool :=
  (((65 <=? c) && (c <=? 90)) || ((97 <=? c) && (c <=? 122))
   || ((48 <=? c) && (c <=? 57))
   || (c =? 43) || (c =? 47) || (c =? 61) || (c =? 95) || (c =? 45))%N.

(** The longest prefix of characters of a class, and what follows it: what
    a greedy [[...]*] takes. *)
Fixpoint span (f : N → bool) (s : list N) : list N * list N :=
  match s with
  | [] => ([], [])
  | c :: s' =>
      if f c then let '(run, rest) := span f s' in (c :: run, rest)
      else ([], s)
  end.

(** [String(dataUrl).match(/^data:([^;,]+)[^,]*,([A-Za-z0-9+/=_-]+)$/)]:
    the groups 1 and 2 of the match, if any. The two greedy classes stop
    before the first comma at the latest, and giving characters back never
    brings a comma under the [,] of the pattern, so the first comma is the
    only place where it can match; the second group has to reach the end. *)
Definition matchDataUrl (dataUrl : list N) : option (list N * list N) :=
  if startsWith dataUrl (codeUnits "data:") then
    let '(contentType, rest) := span notSemicolonComma (drop 5 dataUrl) in
    match contentType with
    | [] => None
    | _ =>
        match (span notComma rest).2 with
        | [] => None
        | _ :: base64 =>
            match base64 with
            | [] => None
            | _ => if forallb isBase64 base64 then Some (contentType, base64)
                   else None
            end
        end
    end
  else None.

End ReviewChain.

(** ** [client/src/App.tsx] and [server/index.js]: the cards to prefetch *)

Module Prefetch.
Import App Anki.

(** The [list] of [warmPrefetch(deckName, excludeCardId)]: the client asks
    [/api/candidates?deckName=...&limit=10], takes the ids of an answer that
    is [ok], drops the current card and keeps [PREFETCH_COUNT]. *)
Definition warmPrefetch_list (deckName : string) (excludeCardId : option Z)
    (env : nat → Attempt (option (list Z))) : list Z :=
  candidateList
    match (candidates deckName (Some (Finite 10)) env).1 with
    | CardIds ids => Some ids
    | _ => None
    end
    excludeCardId PREFETCH_COUNT.

End Prefetch.

(** ** [server/index.js]: the URL taken from the synthesis output *)

Module TtsOutput.
Import Anki.

(** A JS value as [normalizeUrlFromOutput] tells values apart: [null] or
    [undefined]; a string; an array; any other object, with the own
    enumerable properties that are not functions and, when [typeof v.url] is
    ["function"], what the call [v.url()] does ([None]: it throws); and the
    remaining primitives, of which only the truthiness matters. Arrays are
    taken to carry no [url] method. *)
#[local] Set Warnings "-register-all".


Inductive Value :=
| VNullish
| VPrimitive (truthy : bool)
| VStr (s : string)
| VArr (items : list Value)
| VObj (urlCall : option (option Value)) (props : list (string * Value)).

(** [!!v]. *)
Definition truthy (v : Value) : bool :=
  match v with
  | VNullish => false
  | VPrimitive b => b
  | VStr s => negb (bool_decide (s = ""))
  | VArr _ | VObj _ _ => true
  end.

(** [v.k] of an object. *)
Fixpoint prop (props : list (string * Value)) (k : string) : option Value :=
  match props with
  | [] => None
  | (k', v) :: props' => if bool_decide (k' = k) then Some v else prop props' k
  end.

(** The case folding of the [i] flag on the letters of the two patterns:
    ASCII capitals to small letters. *)
Definition lowerChar (c : Ascii.ascii) : Ascii.ascii :=
  let n := Ascii.nat_of_ascii c in
  if (65 <=? n)%nat && (n <=? 90)%nat then Ascii.ascii_of_nat (n + 32) else c.

Fixpoint lower (s : string) : string :=
  match s with
  | EmptyString => EmptyString
  | String c s' => String (lowerChar c) (lower s')
  end.

(** [/^https?:\/\//i.test(s)]. *)
Definition isHttp (s : string) : bool :=
  String.prefix "http://" (lower s) || String.prefix "https://" (lower s).

(** [/\.mp3(\?|$)/i.test(s)], on the folded string. *)
Fixpoint mp3Within (s : string) : bool :=
  String.prefix ".mp3?" s || bool_decide (s = ".mp3") ||
  match s with
  | EmptyString => false
  | String _ s' => mp3Within s'
  end.

Definition isMp3 (s : string) : bool := mp3Within (lower s).

(** [walk(v)]: the strings that start with [http://] or [https://], in the
    order they are met. *)
Fixpoint walk (v : Value) : list string :=
  match v with
  | VStr s => if isHttp s then [s] else []
  | VArr items => flat_map walk items
  | VObj _ props => flat_map (λ kv, let '(_, x) := kv in walk x) props
  | _ => []
  end.

(** Case 0: [out.url()] gives a [URL] (an object with a string [href]) or a
    string; anything else, or a [throw], falls through. *)
Definition fromUrlCall (call : option Value) : option Value :=
  match call with
  | Some (VObj _ props) =>
      match prop props "href" with
      | Some (VStr href) => Some (VStr href)
      | _ => None
      end
  | Some (VStr u) => Some (VStr u)
  | _ => None
  end.

(** [s || ...] for a string that may be missing: the string if it is not
    empty. *)
Definition nonEmpty (s : option string) : option string :=
  match s with
  | Some u => if bool_decide (u = "") then None else Some u
  | None => None
  end.

(** Case 4: [urls.find(u => /\.mp3(\?|$)/i.test(u)) || urls[0] || null]. *)
Definition pickUrl (urls : list string) : option Value :=
  VStr <$> match nonEmpty (List.find isMp3 urls) with
           | Some u => Some u
           | None => nonEmpty (head urls)
           end.

(** Cases 0 to 3 of [normalizeUrlFromOutput(out)]: what is returned there
    ([Some None] is [null]), or [None] when none of them returns. *)
Definition returnedEarly (out : Value) : option (option Value) :=
  let cases1to3 :=
    match out with
    | VStr s => Some (Some (VStr s))
    | VArr items =>
        match items with
        | first :: _ => Some (if truthy first then Some first else None)
        | [] => Some None
        end
    | VObj urlCall props =>
        match match urlCall with
              | Some _ => None
              | None => prop props "url"
              end,
              prop props "audio", prop props "output" with
        | Some (VStr url), _, _ => Some (Some (VStr url))
        | _, Some (VStr audio), _ => Some (Some (VStr audio))
        | _, _, Some (VArr (first :: rest)) =>
            if truthy first then Some (Some first) else None
        | _, _, _ => None
        end
    | _ => None
    end in
  match out with
  | VObj (Some call) _ =>
      match fromUrlCall call with
      | Some u => Some (Some u)
      | None => cases1to3
      end
  | _ => cases1to3
  end.

(** [normalizeUrlFromOutput(out)]; [None] is [null]. *)
Definition normalizeUrlFromOutput (out : Value) : option Value :=
  match returnedEarly out with
  | Some url => url
  | None => pickUrl (walk out)
  end.

(** The end of [POST /api/tts]: [if (!url) return res.status(502)...;
    return res.json({ ok: true, url })]. *)
Inductive TtsAnswer :=
| NoUrl502
| Url200 (url : Value).

Definition ttsAnswer (out : Value) : TtsAnswer :=
  match normalizeUrlFromOutput out with
  | Some url => if truthy url then Url200 url else NoUrl502
  | None => NoUrl502
  end.

End TtsOutput.

(** ** [server/gpt.js]: the conversations kept in memory *)

Module Gpt.

Inductive Role := System | User | Assistant.

Record Message := mkMessage {
  role : Role;
  content : string
}.

#[global] Instance Role_eq_dec : EqDecision Role.
Proof. solve_decision. Defined.

(** [sessions] is a [Map] from session ids to objects [{ messages }]. The
    objects live in [objects], addressed by their index, because
    [sendConversation] keeps the object it looked up across its [await]
    while the map may be given another object for the same id.
    [pending] lists the objects of the calls of [sendConversation] that wait
    for the model. *)
Record Conversations := mkConversations {
  objects : list (list Message);
  sessions : gmap string nat;
  pending : list nat
}.

Definition noConversations : Conversations := mkConversations [] ∅ [].

(** [x || fallback] for a string. *)
Definition orElse (x : option string) (fallback : string) : string :=
  match x with
  | Some s => if bool_decide (s = "") then fallback else s
  | None => fallback
  end.

(** ["\n"]. *)
Definition newline : string := String (Ascii.ascii_of_nat 10) "".

(** The array [msg] of [startConversation]. *)
Definition startMessages (system seedContext : option string) : list Message :=
  [mkMessage System
     (orElse system
        "You are a friendly tutor. Stay concise, encourage active recall.")]
  ++ match seedContext with
     | Some seed =>
         if bool_decide (seed = "") then []
         else [mkMessage User ("Context:" +:+ newline +:+ seed);
               mkMessage Assistant "Got it. What would you like to discuss?"]
     | None => []
     end.

(** [startConversation({ sessionId, system, seedContext })]. *)
Definition startConversation (sessionId : string)
    (system seedContext : option string) (st : Conversations) : Conversations :=
  mkConversations (objects st ++ [startMessages system seedContext])
                  (<[sessionId := length (objects st)]> (sessions st))
                  (pending st).

(** [resetConversation({ sessionId })]. *)
Definition resetConversation (sessionId : string) (st : Conversations)
    : Conversations :=
  mkConversations (objects st) (delete sessionId (sessions st)) (pending st).

(** [sess.messages.push(m)] on the object at [a]. *)
Definition push (a : nat) (m : Message) (objs : list (list Message))
    : list (list Message) :=
  alter (λ messages, messages ++ [m]) a objs.

(** The [input] given to the model: [system_prompt] and [messages]. *)
Definition modelInput (messages : list Message) : string * list Message :=
  (match List.find (λ m, bool_decide (role m = System)) messages with
   | Some m => content m
   | None => ""
   end,
   List.filter (λ m, negb (bool_decide (role m = System))) messages).

(** [sendConversation({ sessionId, user })] up to the stream: [None] is the
    [throw] for an unknown session; otherwise the input of the model. *)
Definition sendConversation_enter (sessionId user : string) (st : Conversations)
    : option (Conversations * (string * list Message)) :=
  match sessions st !! sessionId with
  | None => None
  | Some a =>
      let objs := push a (mkMessage User user) (objects st) in
      Some (mkConversations objs (sessions st) (pending st ++ [a]),
            modelInput (default [] (objs !! a)))
  end.

(** The [k]-th waiting call goes on: the stream has ended with [reply], or
    it has thrown ([None]) and the call with it. *)
Definition sendConversation_resume (k : nat) (reply : option string)
    (st : Conversations) : Conversations :=
  match pending st !! k with
  | None => st
  | Some a =>
      mkConversations
        (match reply with
         | Some r => push a (mkMessage Assistant r) (objects st)
         | None => objects st
         end)
        (sessions st) (delete k (pending st))
  end.

Inductive Op :=
| Start (sessionId : string) (system seedContext : option string)
| Reset (sessionId : string)
| SendBegin (sessionId user : string)
| SendEnd (k : nat) (reply : option string).

Definition apply (op : Op) (st : Conversations) : Conversations :=
  match op with
  | Start sid system seed => startConversation sid system seed st
  | Reset sid => resetConversation sid st
  | SendBegin sid user =>
      match sendConversation_enter sid user st with
      | Some (st', _) => st'
      | None => st
      end
  | SendEnd k reply => sendConversation_resume k reply st
  end.

Definition runOps (ops : list Op) (st : Conversations) : Conversations :=
  fold_left (λ st op, apply op st) ops st.

(** The messages of the conversation [sessionId], if there is one. *)
Definition conversation (sessionId : string) (st : Conversations)
    : option (list Message) :=
  a ← sessions st !! sessionId; objects st !! a.

(** A conversation starts with its one [system] message. *)
Definition wellFormed (messages : list Message) : Prop :=
  ∃ system rest,
    messages = mkMessage System system :: rest ∧ system ≠ "" ∧
    Forall (λ m, role m ≠ System) rest.

(** Every object is well formed, and the map and the waiting calls point to
    objects. *)
Record conversationsInv (st : Conversations) : Prop := mkConversationsInv {
  cv_objects : Forall wellFormed (objects st);
  cv_sessions : ∀ sid a, sessions st !! sid = Some a → (a < length (objects st))%nat;
  cv_pending : Forall (λ a, (a < length (objects st))%nat) (pending st)
}.

End Gpt.

(** ** [client/src/sanitize.ts] *)

Module Sanitize.
Import Server.

(** *** [extractFieldHTML] *)

(** A value of the [fields] object as the function looks at it: a string;
    an object, with its [value] when that is a string; anything else
    ([null], a number, ...). *)
Inductive FieldValue :=
| FString (s : list N)
| FObject (value : option (list N))
| FOther.

(** The text a field gives, if it has any: the string, or the [value] of
    the object, when [trim()] leaves something of it. *)
Definition contentOf (v : FieldValue) : option (list N) :=
  match v with
  | FString s | FObject (Some s) =>
      match trim s with
      | [] => None
      | _ => Some s
      end
  | _ => None
  end.

Inductive Side := front | back.

Definition candidatesFront : list string :=
  ["Front"; "front"; "Question"; "Text"; "Prompt"; "Cloze"; "Cloze-Deletion"].
Definition candidatesBack : list string :=
  ["Back"; "back"; "Answer"; "Extra"; "Add. Info"; "Addition"; "Notes"].

(** [fields[k]]. *)
Fixpoint field (fields : list (string * FieldValue)) (k : string)
    : option FieldValue :=
  match fields with
  | [] => None
  | (k', v) :: fields' => if bool_decide (k' = k) then Some v else field fields' k
  end.

(** A [for] loop that returns at the first element that gives something. *)
Fixpoint firstSome {A B} (f : A → option B) (l : list A) : option B :=
  match l with
  | [] => None
  | x :: l' =>
      match f x with
      | Some y => Some y
      | None => firstSome f l'
      end
  end.

(** [extractFieldHTML(fields, _modelName, which)]; [fields] is [None] when
    falsy, otherwise its entries in the order of [Object.entries]. *)
Definition extractFieldHTML (fields : option (list (string * FieldValue)))
    (which : Side) : list N :=
  match fields with
  | None => []
  | Some fields =>
      let keys := match which with
                  | front => candidatesFront
                  | back => candidatesBack
                  end in
      match firstSome (λ k, v ← field fields k; contentOf v) keys with
      | Some s => s
      | None =>
          match firstSome (λ kv : string * FieldValue, contentOf kv.2) fields with
          | Some s => s
          | None => []
          end
      end
  end.

(** *** [tidyWhitespace] *)

(** [\s] is the class [trim()] strips. *)
Definition isSpace (c : N) : bool := isTrimmed c.

(** [[ \t]]. *)
Definition isBlank (c : N) : bool := ((c =? 32) || (c =? 9))%N.

Definition LF : N := 10.

(** [String.prototype.replace] with a global pattern that matches no empty
    string: [matchAt s] is the length of the match that starts at the head
    of [s], if there is one. The search goes from left to right and resumes
    after each match; [skip] counts the characters of the current match
    still to pass over. *)
Fixpoint replaceAll_from (matchAt : list N → option nat) (replacement : list N)
    (skip : nat) (s : list N) : list N :=
  match s with
  | [] => []
  | c :: s' =>
      match skip with
      | S skip' => replaceAll_from matchAt replacement skip' s'
      | O =>
          match matchAt s with
          | Some (S len) =>
              replacement ++ replaceAll_from matchAt replacement len s'
          | _ => c :: replaceAll_from matchAt replacement 0 s'
          end
      end
  end.

Definition replaceAll (matchAt : list N → option nat) (replacement s : list N)
    : list N :=
  replaceAll_from matchAt replacement 0 s.

(** The index of the last line feed in the whitespace [s] starts with. *)
Fixpoint lastLineFeed (s : list N) : option nat :=
  match s with
  | [] => None
  | c :: s' =>
      if isSpace c then
        match lastLineFeed s' with
        | Some j => Some (S j)
        | None => if (c =? LF)%N then Some 0%nat else None
        end
      else None
  end.

(** [/\s+\n/]: [\s+] first takes all the whitespace there is and then
    gives characters back until a line feed follows, so the match runs to
    the last line feed of the whitespace, which has to come after at least
    one other whitespace character. *)
Definition spacesThenLineFeed (s : list N) : option nat :=
  match s with
  | [] => None
  | c :: s' =>
      if isSpace c then j ← lastLineFeed s'; Some (S (S j)) else None
  end.

(** The number of characters of a class [s] starts with. *)
Fixpoint runLength (f : N → bool) (s : list N) : nat :=
  match s with
  | [] => 0
  | c :: s' => if f c then S (runLength f s') else 0
  end.

(** [/x{min,}/] for a class [x]: the whole run, if it is long enough. *)
Definition atLeast (min : nat) (f : N → bool) (s : list N) : option nat :=
  let n := runLength f s in
  if (min <=? n)%nat then Some n else None.

(** [tidyWhitespace(s)]. *)
Definition tidyWhitespace (s : list N) : list N :=
  trim
    (replaceAll (atLeast 2 isBlank) [32%N]
       (replaceAll (atLeast 3 (N.eqb LF)) [LF; LF]
          (replaceAll spacesThenLineFeed [LF] s))).

(** Whether a line feed of [t] comes right after whitespace; [afterSpace]
    tells what precedes [t]. *)
Fixpoint spaceBeforeLineFeed (afterSpace : bool) (t : list N) : bool :=
  match t with
  | [] => false
  | c :: t' =>
      ((c =? LF)%N && afterSpace) || spaceBeforeLineFeed (isSpace c) t'
  end.

End Sanitize.

(** ** [client/src/sanitize.ts]: [stripTags] *)

Module SanitizeTags.
Import Sanitize.

Definition LT : N := 60.
Definition GT : N := 62.

(** [String.prototype.replace] with a global pattern that matches no empty
    string and a replacement that depends on the match: [matchAt s] is the
    length of the match at the head of [s] and what replaces it. *)
Fixpoint replaceEach_from (matchAt : list N → option (nat * list N))
    (skip : nat) (s : list N) : list N :=
  match s with
  | [] => []
  | c :: s' =>
      match skip with
      | S skip' => replaceEach_from matchAt skip' s'
      | O =>
          match matchAt s with
          | Some (S len, replacement) =>
              replacement ++ replaceEach_from matchAt len s'
          | _ => c :: replaceEach_from matchAt 0 s'
          end
      end
  end.

Definition replaceEach (matchAt : list N → option (nat * list N)) (s : list N)
    : list N :=
  replaceEach_from matchAt 0 s.

(** The index of the first [c] in [s]. *)
Fixpoint firstIndex (c : N) (s : list N) : option nat :=
  match s with
  | [] => None
  | x :: s' => if (x =? c)%N then Some 0%nat else S <$> firstIndex c s'
  end.

(** [\w]. *)
Definition isWordChar (c : N) : bool :=
  (((65 <=? c) && (c <=? 90)) || ((97 <=? c) && (c <=? 122))
   || ((48 <=? c) && (c <=? 57)) || (c =? 95))%N.

(** Whether [s] starts with [</a>], in either case. *)
Definition closesAnchor (s : list N) : bool :=
  match s with
  | 60 :: 47 :: a :: 62 :: _ => ((a =? 97) || (a =? 65))%N
  | _ => false
  end%N.

(** The index of the first [</a>] in [s]. *)
Fixpoint firstClose (s : list N) : option nat :=
  if closesAnchor s then Some 0%nat
  else
    match s with
    | [] => None
    | _ :: s' => S <$> firstClose s'
    end.

(** [/<a\b[^>]*>([\s\S]*?)<\/a>/gi]: [<a] or [<A] not followed by a word
    character, on to the first [>], then as little as possible up to the
    first [</a>]; the match is replaced by what stands in between. *)
Definition anchor (s : list N) : option (nat * list N) :=
  match s with
  | lt :: a :: rest =>
      if ((lt =? LT) && ((a =? 97) || (a =? 65)))%N
         && match rest with
            | c :: _ => negb (isWordChar c)
            | [] => true
            end
      then
        j ← firstIndex GT rest;
        let inner := drop (S j) rest in
        k ← firstClose inner;
        Some (2 + S j + k + 4, take k inner)%nat
      else None
  | _ => None
  end.

(** [/<\/?[^>]+>/g]: [<], something other than [>], on to the first [>].
    With or without the [/] taken by [\/?] the match is the same. *)
Definition tag (s : list N) : option nat :=
  match s with
  | lt :: c :: rest =>
      if ((lt =? LT) && negb (c =? GT))%N
      then j ← firstIndex GT rest; Some (S (S (S j)))
      else None
  | _ => None
  end.

(** [stripTags(html)]. *)
Definition stripTags (html : list N) : list N :=
  replaceEach (λ s, n ← tag s; Some (n, [])) (replaceEach anchor html).

End SanitizeTags.


(* ===================================================================== *)
(** * Part II. Theorems                                                    *)
(* ===================================================================== *)

Section CacheLemmas.
Import App.

Lemma map_has_true m k : map_has m k = true ↔ k ∈ m.*1.
Proof. unfold map_has. apply bool_decide_eq_true. Qed.

Lemma map_has_false m k : map_has m k = false ↔ k ∉ m.*1.
Proof. unfold map_has. apply bool_decide_eq_false. Qed.

Lemma map_set_fresh m k v : k ∉ m.*1 → map_set m k v = m ++ [(k, v)].
Proof.
  induction m as [|[k' v'] m IH]; simpl; intros Hk; [done|].
  apply not_elem_of_cons in Hk as [Hne Hk].
  rewrite bool_decide_eq_false_2 by congruence.
  by rewrite IH.
Qed.

Lemma map_delete_head k v (m : list (Z * string)) :
  k ∉ m.*1 → map_delete ((k, v) :: m) k = m.
Proof.
  intros Hk. unfold map_delete. rewrite filter_cons_False by (simpl; tauto).
  induction m as [|[k' v'] m IH]; [done|].
  simpl in Hk. apply not_elem_of_cons in Hk as [Hne Hk].
  rewrite filter_cons_True by (simpl; congruence).
  f_equal. by apply IH.
Qed.

End CacheLemmas.

Section CacheTheorems.
Import App.

Lemma cacheSet_present id url st :
  id ∈ (ttsCache st).*1 → cacheSet id url st = st.
Proof.
  intros Hin. unfold cacheSet.
  by rewrite (proj2 (map_has_true _ _) Hin).
Qed.

Lemma cacheSet_room id url st :
  id ∉ (ttsCache st).*1 → (length (ttsCache st) < MAX_CACHE)%nat →
  cacheSet id url st =
    mkStore (ttsCache st ++ [(id, url)]) (inflight st) (revoked st).
Proof.
  intros Hid Hlen. unfold cacheSet.
  rewrite (proj2 (map_has_false _ _) Hid), map_set_fresh by done.
  rewrite length_app. simpl.
  destruct (Nat.ltb_spec MAX_CACHE (length (ttsCache st) + 1)); [lia | done].
Qed.

Lemma cacheSet_overflow id url st k0 u0 rest :
  ttsCache st = (k0, u0) :: rest →
  NoDup (ttsCache st).*1 →
  id ∉ (ttsCache st).*1 →
  (MAX_CACHE ≤ length (ttsCache st))%nat →
  cacheSet id url st =
    mkStore (rest ++ [(id, url)]) (inflight st) (revokeIfBlob u0 (revoked st)).
Proof.
  intros Hc Hnd Hid Hlen. unfold cacheSet.
  rewrite (proj2 (map_has_false _ _) Hid), map_set_fresh by done.
  rewrite length_app. simpl.
  destruct (Nat.ltb_spec MAX_CACHE (length (ttsCache st) + 1)); [|lia].
  rewrite Hc in *. simpl.
  rewrite bool_decide_eq_true_2 by done.
  replace ((k0, u0) :: rest ++ [(id, url)])
    with ((k0, u0) :: (rest ++ [(id, url)])) by done.
  rewrite map_delete_head; [done|].
  simpl in Hnd, Hid. apply NoDup_cons in Hnd as [Hk0 _].
  apply not_elem_of_cons in Hid as [Hne _].
  rewrite fmap_app. simpl. set_solver.
Qed.

Lemma cacheSet_cacheOk id url st : cacheOk st → cacheOk (cacheSet id url st).
Proof.
  intros [Hnd Hlen].
  destruct (decide (id ∈ (ttsCache st).*1)) as [Hin|Hin].
  { by rewrite cacheSet_present. }
  destruct (decide (length (ttsCache st) < MAX_CACHE)%nat) as [Hlt|Hge].
  { rewrite cacheSet_room by done. split; simpl.
    - rewrite fmap_app. apply NoDup_app. split_and!; [done| |].
      + intros x Hx. simpl. set_solver.
      + simpl. apply NoDup_singleton.
    - rewrite length_app. simpl. lia. }
  destruct (ttsCache st) as [|[k0 u0] rest] eqn:Hc.
  { simpl in Hge. unfold MAX_CACHE in Hge. lia. }
  rewrite (cacheSet_overflow id url st k0 u0 rest); rewrite ?Hc; try done.
  - simpl in Hnd, Hin, Hlen. apply NoDup_cons in Hnd as [Hk0 Hnd].
    apply not_elem_of_cons in Hin as [Hne Hin].
    split; simpl.
    + rewrite fmap_app. apply NoDup_app. split_and!; [done| |].
      * intros x Hx. simpl. set_solver.
      * simpl. apply NoDup_singleton.
    + rewrite length_app. simpl. lia.
  - lia.
Qed.

Lemma cacheSetAll_cacheOk calls st : cacheOk st → cacheOk (cacheSetAll calls st).
Proof.
  revert st. induction calls as [|c calls IH]; intros st Hok; [done|].
  simpl. apply IH. by apply cacheSet_cacheOk.
Qed.

Lemma cacheSetAll_snoc calls c st :
  cacheSetAll (calls ++ [c]) st = cacheSet c.1 c.2 (cacheSetAll calls st).
Proof. unfold cacheSetAll. by rewrite fold_left_app. Qed.

(** Distinct ids, inserted in order into the empty cache: the cache is the
    last [MAX_CACHE] insertions and the revocation log the handles of all
    the earlier ones, oldest first. *)
Lemma cacheSetAll_distinct ins :
  NoDup ins.*1 → Forall isObjectUrl ins.*2 →
  cacheSetAll ins emptyStore =
    mkStore (drop (length ins - MAX_CACHE) ins) ∅
            (take (length ins - MAX_CACHE) ins).*2.
Proof.
  induction ins as [|x ins IH] using rev_ind; intros Hnd Hurl; [done|].
  rewrite fmap_app in Hnd. rewrite fmap_app in Hurl. simpl in Hnd, Hurl.
  apply NoDup_app in Hnd as (Hnd & Hx & _).
  apply Forall_app in Hurl as [Hurl _].
  rewrite cacheSetAll_snoc, IH by done. clear IH.
  rewrite length_app. simpl.
  set (n := length ins).
  assert (Hfresh : x.1 ∉ (drop (n - MAX_CACHE) ins).*1).
  { intros Hin. apply (Hx x.1); [|set_solver].
    rewrite <- (take_drop (n - MAX_CACHE) ins), fmap_app. set_solver. }
  destruct (decide (n < MAX_CACHE)%nat) as [Hlt|Hge].
  - rewrite cacheSet_room; simpl; [|done|rewrite length_drop; lia].
    replace (n - MAX_CACHE)%nat with 0%nat by lia.
    replace (n + 1 - MAX_CACHE)%nat with 0%nat by (unfold MAX_CACHE in *; lia).
    rewrite !drop_0. by destruct x.
  - assert (Hj : (n - MAX_CACHE < n)%nat) by (unfold MAX_CACHE in *; lia).
    destruct (lookup_lt_is_Some_2 ins _ Hj) as [[k0 u0] Hk0].
    pose proof (drop_S _ _ _ Hk0) as Hdrop.
    rewrite (cacheSet_overflow _ _ _ k0 u0 (drop (S (n - MAX_CACHE)) ins));
      simpl; try done.
    + replace (n + 1 - MAX_CACHE)%nat with (S (n - MAX_CACHE)) by lia.
      rewrite drop_app_le by lia.
      rewrite take_app_le by lia.
      rewrite (take_S_r _ _ _ Hk0), fmap_app. simpl.
      unfold revokeIfBlob.
      assert (Hu0 : isObjectUrl u0).
      { rewrite Forall_forall in Hurl. apply Hurl.
        apply list_elem_of_fmap. exists (k0, u0). split; [done|].
        by eapply list_elem_of_lookup_2. }
      rewrite Hu0. by destruct x.
    + rewrite <- (take_drop (n - MAX_CACHE) ins), fmap_app in Hnd.
      by apply NoDup_app in Hnd as (_ & _ & Hnd).
    + rewrite length_drop. lia.
Qed.

(** C3. After any run of [cacheSet] calls from the empty cache there is at
    most one entry per card id and at most [MAX_CACHE] entries. A call with a
    new id on a full cache evicts exactly the oldest entry, revokes its object
    URL and keeps every other entry in order. Inserting [MAX_CACHE + k]
    distinct ids in order leaves exactly the last [MAX_CACHE] of them, and the
    revoked handles are those of the first [k], oldest first. *)
Theorem cacheSet_bounded_oldest_first :
  (∀ calls, cacheOk (cacheSetAll calls emptyStore)) ∧
  (∀ st id url k0 u0 rest,
      cacheOk st → ttsCache st = (k0, u0) :: rest →
      length (ttsCache st) = MAX_CACHE → id ∉ (ttsCache st).*1 →
      isObjectUrl u0 →
      cacheSet id url st =
        mkStore (rest ++ [(id, url)]) (inflight st) (revoked st ++ [u0])) ∧
  (∀ ins k,
      NoDup ins.*1 → Forall isObjectUrl ins.*2 →
      length ins = (MAX_CACHE + k)%nat →
      ttsCache (cacheSetAll ins emptyStore) = drop k ins ∧
      length (ttsCache (cacheSetAll ins emptyStore)) = MAX_CACHE ∧
      revoked (cacheSetAll ins emptyStore) = (take k ins).*2).
Proof.
  split_and!.
  - intros calls. apply cacheSetAll_cacheOk. split; simpl; [constructor|lia].
  - intros st id url k0 u0 rest [Hnd _] Hc Hlen Hid Hu0.
    rewrite (cacheSet_overflow id url st k0 u0 rest) by (done || lia).
    unfold revokeIfBlob. by rewrite Hu0.
  - intros ins k Hnd Hurl Hlen.
    rewrite cacheSetAll_distinct by done. simpl.
    replace (length ins - MAX_CACHE)%nat with k by lia.
    split_and!; [done| |done].
    rewrite length_drop. lia.
Qed.

(** The spec's example: ids 1..13 evict id 1 only. *)
Lemma cacheSet_thirteen_evicts_first :
  (ttsCache (cacheSetAll thirteenClips emptyStore)).*1
    = [2; 3; 4; 5; 6; 7; 8; 9; 10; 11; 12; 13] ∧
  revoked (cacheSetAll thirteenClips emptyStore) = ["blob:c01"].
Proof.
  destruct cacheSet_bounded_oldest_first as (_ & _ & H).
  destruct (H thirteenClips 1%nat) as (Hc & _ & Hr).
  - apply (bool_decide_unpack (NoDup thirteenClips.*1)). vm_compute. exact I.
  - apply Forall_forall. intros u Hu.
    unfold thirteenClips in Hu. simpl in Hu.
    repeat (apply elem_of_cons in Hu as [->|Hu]; [reflexivity|]).
    by apply elem_of_nil in Hu.
  - reflexivity.
  - rewrite Hc, Hr. split; reflexivity.
Defined.

End CacheTheorems.

Section AdmissionTheorems.
Import App.

Lemma cacheSet_inflight id url st : inflight (cacheSet id url st) = inflight st.
Proof.
  unfold cacheSet. destruct (map_has _ _); [done|].
  destruct (_ <? _)%nat; [|done].
  destruct (map_first_key _); [|done].
  by destruct (map_get _ _).
Qed.

Lemma specIds_app ts1 ts2 : specIds (ts1 ++ ts2) = specIds ts1 ++ specIds ts2.
Proof. unfold specIds. by rewrite filter_app, fmap_app. Qed.

Lemma specIds_cons_spec id ph ts :
  specIds (mkTask Speculative id ph :: ts) = id :: specIds ts.
Proof. unfold specIds. by rewrite filter_cons_True. Qed.

Lemma specIds_cons_demand id ph ts :
  specIds (mkTask OnDemand id ph :: ts) = specIds ts.
Proof. unfold specIds. by rewrite filter_cons_False. Qed.

Lemma tasks_split (ts : list Task) i t :
  ts !! i = Some t → ts = take i ts ++ t :: drop (S i) ts.
Proof. intros H. by rewrite take_drop_middle. Qed.

Lemma count_filter_specIds id ts :
  length (filter (λ t, card t = id ∧ path t = Speculative) ts)
  = length (filter (λ x, x = id) (specIds ts)).
Proof.
  induction ts as [|[pa c ph] ts IH]; [done|].
  destruct pa.
  - rewrite specIds_cons_spec.
    destruct (decide (c = id)) as [->|Hne].
    + rewrite !filter_cons_True by done. simpl. by rewrite IH.
    + rewrite !filter_cons_False by (simpl; tauto). done.
  - rewrite specIds_cons_demand.
    rewrite filter_cons_False by (simpl; intros [_ ?]; done). done.
Qed.

Lemma count_NoDup (id : Z) (l : list Z) :
  NoDup l →
  (length (filter (λ x, x = id) l) ≤ 1)%nat ∧
  (length (filter (λ x, x = id) l) = 1%nat ↔ id ∈ l).
Proof.
  induction 1 as [|x l Hx Hnd [IH1 IH2]].
  { simpl. split; [lia|]. split; [done|]. intros H. by apply elem_of_nil in H. }
  destruct (decide (x = id)) as [->|Hne].
  - rewrite filter_cons_True by done. simpl.
    assert (length (filter (λ x, x = id) l) = 0%nat) as ->.
    { destruct (length (filter (λ x, x = id) l)) as [|[|n]] eqn:E; [done| |lia].
      exfalso. apply Hx. by apply IH2. }
    split; [lia|]. split; [intros _; left|done].
  - rewrite filter_cons_False by done. split; [done|].
    rewrite IH2. split; [by right|].
    intros [->|H]%elem_of_cons; done.
Qed.

Lemma prefetchOneCard_enter_None id st :
  prefetchOneCard_enter id st = None ↔
  id ∈ (ttsCache st).*1 ∨ id ∈ inflight st.
Proof.
  unfold prefetchOneCard_enter.
  destruct (map_has (ttsCache st) id) eqn:Hc; simpl.
  { apply map_has_true in Hc. split; [by left|done]. }
  apply map_has_false in Hc.
  case_bool_decide; split; try done; [by right|].
  intros [?|?]; done.
Qed.

Lemma prefetchOneCard_enter_Some id st st' :
  prefetchOneCard_enter id st = Some st' →
  (id ∉ (ttsCache st).*1) ∧ (id ∉ inflight st) ∧ (st' = inflight_add id st).
Proof.
  unfold prefetchOneCard_enter.
  destruct (map_has (ttsCache st) id) eqn:Hc; simpl; [done|].
  apply map_has_false in Hc.
  case_bool_decide; [done|]. by intros [= <-].
Qed.

Lemma prefetchOneCard_resume_inflight id ph r st st' fl :
  prefetchOneCard_resume id ph r st = (st', fl) →
  match fl with
  | Suspend _ => st' = st
  | Return => inflight st' = inflight st ∖ {[id]}
  | Raise => False
  end.
Proof.
  unfold prefetchOneCard_resume, prefetch_catch_finally.
  destruct ph as [|sp]; simpl.
  - destruct r; simpl; intros [= <- <-]; done.
  - unfold prefetch_try_afterTts.
    destruct (ttsFetchToBlobUrl sp r) as [u| |]; simpl; intros [= <- <-]; simpl;
      try done.
    case_bool_decide; [done|]. by rewrite cacheSet_inflight.
Qed.

Lemma step_inflightOk e s : inflightOk s → inflightOk (step e s).
Proof.
  intros [Hnd Hiff]. destruct e as [id|id sp|i r]; simpl.
  - destruct (prefetchOneCard_enter id (store s)) as [st'|] eqn:E; [|done].
    apply prefetchOneCard_enter_Some in E as (_ & Hfl & ->).
    split; simpl; rewrite specIds_app, specIds_cons_spec; simpl.
    + apply NoDup_app. split_and!; [done| |apply NoDup_singleton].
      intros x Hx ->%list_elem_of_singleton. by apply Hfl, Hiff.
    + intros x. rewrite elem_of_app, list_elem_of_singleton, elem_of_union,
        elem_of_singleton, Hiff. tauto.
  - destruct (ttsSpeakCardFront_enter id sp (store s)) as [u [ph| |]]; try done.
    split; simpl; rewrite specIds_app, specIds_cons_demand, app_nil_r; done.
  - destruct (tasks s !! i) as [[[] id ph]|] eqn:Hi; [| |done].
    + pose proof (tasks_split _ _ _ Hi) as Hsplit.
      rewrite Hsplit, specIds_app, specIds_cons_spec in Hnd.
      assert (Hiff' : ∀ x, x ∈ specIds (take i (tasks s)) ++
                               id :: specIds (drop (S i) (tasks s))
                           ↔ x ∈ inflight (store s)).
      { intros x. rewrite <- Hiff. rewrite Hsplit at 3.
        by rewrite specIds_app, specIds_cons_spec. }
      destruct (prefetchOneCard_resume id ph r (store s)) as [st' fl] eqn:E.
      apply prefetchOneCard_resume_inflight in E.
      destruct fl as [ph'| |]; [subst st'| |done].
      * split; simpl;
          rewrite insert_take_drop by (by eapply lookup_lt_Some);
          rewrite specIds_app, specIds_cons_spec; done.
      * split; simpl; rewrite delete_take_drop, specIds_app.
        -- apply NoDup_app in Hnd as (H1 & H2 & H3).
           apply NoDup_cons in H3 as [H3 H4].
           apply NoDup_app. split_and!; [done| |done].
           intros x Hx1 Hx2. apply (H2 x Hx1). by right.
        -- intros x. rewrite E, elem_of_difference, <- Hiff'.
           rewrite !elem_of_app, elem_of_cons, elem_of_singleton.
           apply NoDup_app in Hnd as (H1 & H2 & H3).
           apply NoDup_cons in H3 as [H3 H4].
           split; [|tauto].
           intros [Hx|Hx]; (split; [tauto|]); intros ->; [|done].
           apply (H2 id Hx). by left.
    + destruct ph as [|sp]; [done|].
      destruct (ttsSpeakCardFront_resume id sp r (store s)) as [[st' u] fl] eqn:E.
      assert (inflight st' = inflight (store s)) as Hfl.
      { unfold ttsSpeakCardFront_resume in E.
        destruct (ttsFetchToBlobUrl sp r); try (by injection E as <- _ _).
        case_bool_decide; injection E as <- _ _; [done|].
        by rewrite cacheSet_inflight. }
      pose proof (tasks_split _ _ _ Hi) as Hsplit.
      assert (Heq : specIds (delete i (tasks s)) = specIds (tasks s)).
      { rewrite Hsplit at 2. rewrite delete_take_drop, !specIds_app.
        by rewrite specIds_cons_demand. }
      split; simpl; rewrite Heq; [done|]. intros x. by rewrite Hfl.
Qed.

Lemma run_inflightOk evs s : inflightOk s → inflightOk (run evs s).
Proof.
  revert s. induction evs as [|e evs IH]; intros s Hs; [done|].
  simpl. apply IH. by apply step_inflightOk.
Qed.

Lemma initSys_inflightOk : inflightOk initSys.
Proof.
  split; simpl; [constructor|]. intros id. unfold specIds. simpl.
  split; intros H; [by apply elem_of_nil in H|by apply elem_of_empty in H].
Qed.

(** C2, as stated, fails: with card 7 in the in-flight set and its prefetch
    waiting for the synthesis, the on-demand path starts a second synthesis
    for card 7. *)
Lemma on_demand_duplicates_prefetch :
  7 ∈ inflight (store (run gradeDuringPrefetch initSys)) ∧
  tasks (run gradeDuringPrefetch initSys) =
    [mkTask Speculative 7 (AwaitTts "front of card 7");
     mkTask OnDemand 7 (AwaitTts "front of card 7")] ∧
  ¬ (synthOutstanding 7 (run gradeDuringPrefetch initSys) ≤ 1)%nat.
Proof.
  split_and!.
  - vm_compute. set_solver.
  - reflexivity.
  - vm_compute. lia.
Qed.

(** C2, amended. At every point between suspension points, for every card id:
    at most one [prefetchOneCard] call is outstanding, hence at most one
    synthesis request on the speculative path, and the id is in the in-flight
    set exactly while that call is outstanding; [prefetchOneCard] starts no
    work for an id that is cached or in flight; [ttsSpeakCardFront] starts no
    work for a cached id (it does not consult the in-flight set). *)
Theorem prefetch_admission_exclusive (evs : list Event) (id : Z) :
  let s := run evs initSys in
  (prefetchOutstanding id s ≤ 1)%nat ∧
  (prefetchSynthOutstanding id s ≤ 1)%nat ∧
  (prefetchOutstanding id s = 1%nat ↔ id ∈ inflight (store s)) ∧
  (id ∈ (ttsCache (store s)).*1 ∨ id ∈ inflight (store s) →
     step (CallPrefetch id) s = s) ∧
  (∀ speakable cached,
     map_get (ttsCache (store s)) id = Some cached → cached ≠ "" →
     tasks (step (CallSpeak id speakable) s) = tasks s ∧
     store (step (CallSpeak id speakable) s) = store s).
Proof.
  intros s.
  destruct (run_inflightOk evs initSys initSys_inflightOk) as [Hnd Hiff].
  fold s in Hnd, Hiff.
  destruct (count_NoDup id _ Hnd) as [Hle Hone].
  assert (Hpre : (prefetchOutstanding id s ≤ 1)%nat).
  { unfold prefetchOutstanding. by rewrite count_filter_specIds. }
  split_and!.
  - done.
  - etrans; [|exact Hpre].
    unfold prefetchSynthOutstanding, prefetchOutstanding.
    generalize (tasks s). intros ts.
    induction ts as [|t ts IH]; [done|].
    destruct (decide (card t = id ∧ path t = Speculative)) as [Hy|Hn].
    + rewrite (filter_cons_True (λ t, card t = id ∧ path t = Speculative)) by done.
      destruct (decide (card t = id ∧ path t = Speculative ∧ requesting t = true)).
      * rewrite filter_cons_True by done. simpl. lia.
      * rewrite filter_cons_False by done. simpl. lia.
    + rewrite !filter_cons_False by tauto. done.
  - unfold prefetchOutstanding. rewrite count_filter_specIds, Hone. apply Hiff.
  - intros H. simpl.
    by rewrite (proj2 (prefetchOneCard_enter_None id (store s)) H).
  - intros sp cached Hget Hne. simpl. unfold ttsSpeakCardFront_enter.
    case_bool_decide as Hz; [done|].
    rewrite Hget. rewrite bool_decide_eq_false_2 by done. done.
Qed.

(** A second [prefetchOneCard(7)] while the first is outstanding does nothing. *)
Lemma prefetch_admission_second_call_skipped :
  let s := run [CallPrefetch 7] initSys in
  7 ∈ inflight (store s) ∧ step (CallPrefetch 7) s = s ∧
  prefetchOutstanding 7 s = 1%nat.
Proof.
  intros s.
  destruct (prefetch_admission_exclusive [CallPrefetch 7] 7)
    as (_ & _ & Hone & Hskip & _).
  assert (Hin : 7 ∈ inflight (store s)).
  { apply elem_of_union_l. by apply elem_of_singleton. }
  split; [exact Hin|]. split.
  - apply Hskip. right. exact Hin.
  - apply Hone. exact Hin.
Defined.

End AdmissionTheorems.

Section PoolLemmas.
Import App.

Lemma cacheSet_keys k id url st :
  k ∈ (ttsCache (cacheSet id url st)).*1 → k = id ∨ k ∈ (ttsCache st).*1.
Proof.
  unfold cacheSet. destruct (map_has (ttsCache st) id) eqn:Hhas; [by right|].
  apply map_has_false in Hhas. rewrite map_set_fresh by done.
  assert (Hin : ∀ m : list (Z * string), k ∈ m.*1 →
                 m = ttsCache st ++ [(id, url)] → k = id ∨ k ∈ (ttsCache st).*1).
  { intros m Hk ->. rewrite fmap_app in Hk. simpl in Hk.
    apply elem_of_app in Hk as [Hk|Hk%list_elem_of_singleton]; [by right|by left]. }
  assert (Hdel : ∀ (m : list (Z * string)) o, k ∈ (map_delete m o).*1 → k ∈ m.*1).
  { intros m o Hk. unfold map_delete in Hk.
    apply list_elem_of_fmap in Hk as (x & -> & Hx%list_elem_of_filter).
    apply list_elem_of_fmap. exists x. tauto. }
  destruct (_ <? _)%nat; [|intros Hk; by eapply Hin].
  destruct (map_first_key _); [|intros Hk; by eapply Hin].
  destruct (map_get _ _); simpl; intros Hk%Hdel; by eapply Hin.
Qed.

Lemma blockedIds_app ws1 ws2 :
  blockedIds (ws1 ++ ws2) = blockedIds ws1 ++ blockedIds ws2.
Proof. unfold blockedIds. apply omap_app. Qed.

(** Replacing worker [i]: the other workers' ids stay. *)
Lemma blockedIds_insert ws i w w' :
  ws !! i = Some w →
  ∃ rest, blockedIds ws ≡ₚ blockedIds [w] ++ rest ∧
          blockedIds (<[i := w']> ws) ≡ₚ blockedIds [w'] ++ rest.
Proof.
  intros Hi.
  exists (blockedIds (take i ws) ++ blockedIds (drop (S i) ws)). split.
  - rewrite <- (take_drop_middle ws i w Hi) at 1.
    change (w :: drop (S i) ws) with ([w] ++ drop (S i) ws).
    rewrite !blockedIds_app. by rewrite Permutation_app_swap_app.
  - rewrite insert_take_drop by (by eapply lookup_lt_Some).
    change (w' :: drop (S i) ws) with ([w'] ++ drop (S i) ws).
    rewrite !blockedIds_app. by rewrite Permutation_app_swap_app.
Qed.

Lemma sum_weights_insert ws i w w' :
  ws !! i = Some w →
  (sum_list (workerWeight <$> <[i := w']> ws) + workerWeight w
   = sum_list (workerWeight <$> ws) + workerWeight w')%nat.
Proof.
  intros Hi.
  rewrite insert_take_drop by (by eapply lookup_lt_Some).
  rewrite <- (take_drop_middle ws i w Hi) at 3.
  rewrite !fmap_app, !fmap_cons, !sum_list_with_app. simpl. lia.
Qed.

End PoolLemmas.

Section PoolInvariant.
Import App.

(** The three ways a resumed [prefetchOneCard] goes on. *)
Lemma prefetchOneCard_resume_cases id ph r st :
  (∃ sp, ph = AwaitInfo ∧
     prefetchOneCard_resume id ph r st = (st, Suspend (AwaitTts sp)) ∧
     fetchFails ph r = false ∧ fetchStores ph r = false) ∨
  (prefetchOneCard_resume id ph r st = (inflight_delete id st, Return) ∧
     fetchFails ph r = true ∧ fetchStores ph r = false) ∨
  (∃ sp u, ph = AwaitTts sp ∧ u ≠ "" ∧
     prefetchOneCard_resume id ph r st
       = (inflight_delete id (cacheSet id u st), Return) ∧
     fetchFails ph r = false ∧ fetchStores ph r = true).
Proof.
  unfold prefetchOneCard_resume, prefetch_catch_finally, fetchFails, fetchStores.
  destruct ph as [|sp]; simpl.
  - destruct r as [v| |]; simpl; [left; by exists v|left; by exists ""|right; by left].
  - unfold prefetch_try_afterTts.
    destruct (ttsFetchToBlobUrl sp r) as [u| |]; simpl; [|right; by left..].
    case_bool_decide as Hu; simpl; [right; by left|].
    right. right. by exists sp, u.
Qed.

Lemma Forall_insert_worker (P : Worker → Prop) (ws : list Worker) (i : nat) w :
  Forall P ws → P w → Forall P (<[i := w]> ws).
Proof.
  intros Hall Hw. apply Forall_forall. intros x Hx.
  apply list_elem_of_lookup in Hx as [j Hj].
  destruct (decide (i = j)) as [->|Hne].
  - destruct (decide (j < length ws)%nat).
    + rewrite list_lookup_insert_eq in Hj by done. by injection Hj as <-.
    + rewrite list_insert_ge in Hj by lia.
      rewrite Forall_forall in Hall. apply Hall. by eapply list_elem_of_lookup_2.
  - rewrite list_lookup_insert_ne in Hj by done.
    rewrite Forall_forall in Hall. apply Hall. by eapply list_elem_of_lookup_2.
Qed.

Lemma elem_of_insert_worker (x : Worker) (ws : list Worker) (i : nat) w :
  x ∈ <[i := w]> ws → x = w ∨ x ∈ ws.
Proof.
  intros Hx. apply list_elem_of_lookup in Hx as [j Hj].
  destruct (decide (i = j)) as [->|Hne].
  - destruct (decide (j < length ws)%nat).
    + rewrite list_lookup_insert_eq in Hj by done. left. by injection Hj as <-.
    + rewrite list_insert_ge in Hj by lia. right. by eapply list_elem_of_lookup_2.
  - rewrite list_lookup_insert_ne in Hj by done.
    right. by eapply list_elem_of_lookup_2.
Qed.

End PoolInvariant.

Section PoolPreservation.
Import App.

Lemma perm_snoc_into (a b c : list Z) x : (a ++ b ++ c) ++ [x] ≡ₚ a ++ b ++ x :: c.
Proof.
  rewrite <- !app_assoc. do 2 apply Permutation_app_head.
  symmetry. apply Permutation_cons_append.
Qed.

Lemma perm_move_first (a b c : list Z) x : a ++ b ++ x :: c ≡ₚ (a ++ [x]) ++ b ++ c.
Proof.
  rewrite <- app_assoc. apply Permutation_app_head. simpl.
  symmetry. apply Permutation_middle.
Qed.

Lemma perm_move_second (a b c : list Z) x : a ++ b ++ x :: c ≡ₚ a ++ (b ++ [x]) ++ c.
Proof. apply Permutation_app_head. by rewrite <- app_assoc. Qed.

Lemma poolInv_unblocked cands st0 p i w :
  poolInv cands st0 p → workers p !! i = Some Looping →
  blockedIds [w] = [] → w ≠ Failed → (w = Finished → queue p = []) →
  poolInv cands st0 (set_worker i w p).
Proof.
  intros [Hnf Hq Hnd Hfl Hnew Hst Hsn Hfin Hunc Hfail] Hi Hw Hwf Hwq.
  destruct (blockedIds_insert _ _ _ w Hi) as (rest & Hb & Hb').
  rewrite Hw in Hb'. simpl in Hb, Hb'.
  assert (Heq : blockedIds (<[i:=w]> (workers p)) ≡ₚ blockedIds (workers p))
    by (by rewrite Hb, Hb').
  constructor; simpl.
  - by apply Forall_insert_worker.
  - done.
  - by rewrite Heq.
  - rewrite Hfl. f_equal. apply list_to_set_perm_L. by rewrite Heq.
  - intros id. rewrite Heq. apply Hnew.
  - by rewrite Heq.
  - done.
  - intros [Hw'|Hx]%elem_of_insert_worker; [by apply Hwq|by apply Hfin].
  - intros id. rewrite Heq. apply Hunc.
  - done.
Qed.

Lemma poolStep_inv cands st0 i r p :
  poolInv cands st0 p → poolInv cands st0 (poolStep i r p).
Proof.
  intros Hinv. unfold poolStep.
  destruct (workers p !! i) as [[|id ph| |]|] eqn:Hi; try done.
  - (* the loop test *)
    unfold run_iterate. destruct (queue p) as [|id q] eqn:Hqu.
    { by apply poolInv_unblocked. }
    pose proof Hinv as [Hnf (taken & Hq & Hsub) Hnd Hfl Hnew Hst Hsn Hfin Hunc Hfail].
    destruct (prefetchOneCard_enter id (pstore p)) as [st'|] eqn:Hen.
    + (* admitted *)
      apply prefetchOneCard_enter_Some in Hen as (Hnc & Hnfl & ->).
      destruct (blockedIds_insert _ _ _ (Blocked id AwaitInfo) Hi)
        as (rest & Hb & Hb').
      simpl in Hb, Hb'.
      assert (Heq : blockedIds (<[i:=Blocked id AwaitInfo]> (workers p))
                    ≡ₚ id :: blockedIds (workers p)) by (by rewrite Hb, Hb').
      assert (Hidb : id ∉ blockedIds (workers p)).
      { intros Hin. apply Hnfl. rewrite Hfl. apply elem_of_union_r.
        by apply elem_of_list_to_set. }
      constructor; simpl.
      * by apply Forall_insert_worker.
      * exists (taken ++ [id]). rewrite Hq, Hqu, <- app_assoc. split; [done|].
        by apply sublist_app.
      * rewrite Heq. by apply NoDup_cons.
      * rewrite Hfl, (list_to_set_perm_L _ _ Heq). simpl. set_solver.
      * intros x. rewrite Heq. intros [->|Hx]%elem_of_cons; [|by apply Hnew].
        intros Hin. apply Hnfl. rewrite Hfl. by apply elem_of_union_l.
      * rewrite Heq, Hst. apply perm_snoc_into.
      * intros x [Hx| ->%list_elem_of_singleton]%elem_of_app; [by apply Hsn|].
        intros Hin. apply Hnfl. rewrite Hfl. by apply elem_of_union_l.
      * intros [?|Hx]%elem_of_insert_worker; [done|].
        by rewrite Hfin in Hqu.
      * intros x. rewrite Heq. intros [->|Hx]%elem_of_cons; [done|by apply Hunc].
      * done.
    + (* skipped: cached or in flight *)
      replace (set_worker i Looping
                 (mkPool (pstore p) q (workers p) (started p) (stored p) (failed p)))
        with (mkPool (pstore p) q (workers p) (started p) (stored p) (failed p))
        by (unfold set_worker; simpl; by rewrite list_insert_id).
      constructor; simpl; try done.
      * exists (taken ++ [id]). rewrite Hq, Hqu, <- app_assoc. split; [done|].
        by apply sublist_inserts_r.
      * intros Hx. by rewrite Hfin in Hqu.
  - (* a settled request *)
    pose proof Hinv as [Hnf (taken & Hq & Hsub) Hnd Hfl Hnew Hst Hsn Hfin Hunc Hfail].
    destruct (blockedIds_insert _ _ _ Looping Hi) as (rest & Hb & Hb').
    simpl in Hb, Hb'.
    assert (Hnd' : NoDup (id :: rest)) by (by rewrite <- Hb).
    apply NoDup_cons in Hnd' as [Hid Hrest].
    assert (Hidb : id ∈ blockedIds (workers p)) by (rewrite Hb; by left).
    assert (Hsubrest : ∀ x, x ∈ rest → x ∈ blockedIds (workers p) ∧ x ≠ id).
    { intros x Hx. split; [rewrite Hb; by right|]. intros ->. done. }
    assert (Hfl' : inflight (pstore p) ∖ {[id]} = inflight st0 ∪ list_to_set rest).
    { rewrite Hfl, (list_to_set_perm_L _ _ Hb). simpl.
      specialize (Hnew id Hidb).
      assert (id ∉ (list_to_set rest : gset Z)) by (by rewrite elem_of_list_to_set).
      set_solver. }
    destruct (prefetchOneCard_resume_cases id ph r (pstore p))
      as [(sp & -> & -> & -> & ->)|[(-> & -> & ->)|(sp & u & -> & Hu & -> & -> & ->)]].
    + (* on to the synthesis *)
      destruct (blockedIds_insert _ _ _ (Blocked id (AwaitTts sp)) Hi)
        as (rest2 & Hb2 & Hb2').
      simpl in Hb2, Hb2'.
      assert (Heq : blockedIds (<[i:=Blocked id (AwaitTts sp)]> (workers p))
                    ≡ₚ blockedIds (workers p)) by (by rewrite Hb2, Hb2').
      constructor; simpl.
      * by apply Forall_insert_worker.
      * by exists taken.
      * by rewrite Heq.
      * rewrite Hfl. f_equal. apply list_to_set_perm_L. by rewrite Heq.
      * intros x. rewrite Heq. apply Hnew.
      * by rewrite Heq.
      * done.
      * intros [?|Hx]%elem_of_insert_worker; [done|auto].
      * intros x. rewrite Heq. apply Hunc.
      * done.
    + (* no clip *)
      constructor; simpl.
      * by apply Forall_insert_worker.
      * by exists taken.
      * by rewrite Hb'.
      * rewrite Hfl'. f_equal. apply list_to_set_perm_L. by rewrite Hb'.
      * intros x. rewrite Hb'. intros Hx. apply Hnew. by apply Hsubrest.
      * rewrite Hb', Hst, Hb. apply perm_move_first.
      * done.
      * intros [?|Hx]%elem_of_insert_worker; [done|auto].
      * intros x. rewrite Hb'. intros Hx. apply Hunc. by apply Hsubrest.
      * intros Hc x [Hx| ->%list_elem_of_singleton]%elem_of_app; [by apply Hfail|].
        by apply Hunc.
    + (* the clip is stored *)
      constructor; simpl.
      * by apply Forall_insert_worker.
      * by exists taken.
      * by rewrite Hb'.
      * rewrite cacheSet_inflight, Hfl'. f_equal.
        apply list_to_set_perm_L. by rewrite Hb'.
      * intros x. rewrite Hb'. intros Hx. apply Hnew. by apply Hsubrest.
      * rewrite Hb', Hst, Hb. apply perm_move_second.
      * done.
      * intros [?|Hx]%elem_of_insert_worker; [done|auto].
      * intros x. rewrite Hb'. intros Hx Hk.
        apply cacheSet_keys in Hk as [->|Hk].
        -- by apply Hsubrest in Hx as [_ ?].
        -- apply (Hunc x); [by apply Hsubrest|done].
      * intros Hc x Hx Hk.
        apply cacheSet_keys in Hk as [->|Hk]; [|by apply (Hfail Hc x)].
        assert (Hnds : NoDup (started p)).
        { apply (sublist_NoDup _ taken); [|exact Hsub].
          rewrite Hq in Hc. by apply NoDup_app in Hc as (? & _ & _). }
        rewrite Hst in Hnds.
        apply NoDup_app in Hnds as (_ & Hdisj & _).
        apply (Hdisj id Hx). apply elem_of_app. by right.
Qed.

End PoolPreservation.

Section PoolRuns.
Import App.

Lemma poolRun_inv cands st0 sched p :
  poolInv cands st0 p → poolInv cands st0 (poolRun sched p).
Proof.
  revert p. induction sched as [|[i r] sched IH]; intros p Hp; [done|].
  simpl. apply IH. by apply poolStep_inv.
Qed.

Lemma push_Looping_inv cands st0 p :
  poolInv cands st0 p → poolInv cands st0 (push_worker Looping p).
Proof.
  intros [Hnf Hq Hnd Hfl Hnew Hst Hsn Hfin Hunc Hfail].
  assert (Heq : blockedIds (workers p ++ [Looping]) = blockedIds (workers p)).
  { rewrite blockedIds_app. simpl. by rewrite app_nil_r. }
  constructor; simpl; rewrite ?Heq; try done.
  - apply Forall_app. split; [done|]. apply Forall_cons. split; [done|constructor].
  - intros Hx. apply elem_of_app in Hx as [Hx|Hx%list_elem_of_singleton]; [auto|done].
Qed.

(** Creating a worker is pushing a fresh one and running it to its first
    [await]. *)
Lemma spawn_worker_as_step p r :
  (let (p', w) := run_iterate p in push_worker w p')
  = poolStep (length (workers p)) r (push_worker Looping p).
Proof.
  unfold poolStep. simpl.
  rewrite lookup_app_r, Nat.sub_diag by lia. simpl.
  unfold run_iterate, push_worker, set_worker. simpl.
  assert (Hins : ∀ w, <[length (workers p) := w]> (workers p ++ [Looping])
                      = workers p ++ [w]).
  { intros w. rewrite insert_app_r_alt, Nat.sub_diag by lia. done. }
  destruct (queue p) as [|id q] eqn:Hq; simpl; [by rewrite Hins, Hq|].
  destruct (prefetchOneCard_enter id (pstore p)); simpl; by rewrite Hins.
Qed.

Lemma spawn_inv cands st0 fuel i p :
  poolInv cands st0 p → poolInv cands st0 (spawn fuel i p).
Proof.
  revert i p. induction fuel as [|fuel IH]; intros i p Hp; [done|].
  simpl. destruct (_ <? _)%nat; [|done].
  pose proof (spawn_worker_as_step p Rejected) as Hs.
  destruct (run_iterate p) as [p' w]. apply IH. rewrite Hs.
  by apply poolStep_inv, push_Looping_inv.
Qed.

Lemma warmPrefetch_start_inv cands st0 :
  poolInv cands st0 (warmPrefetch_start cands st0).
Proof.
  apply spawn_inv. constructor; simpl; try done.
  - by exists [].
  - constructor.
  - set_solver.
  - intros id Hid. by apply elem_of_nil in Hid.
  - intros id Hid. by apply elem_of_nil in Hid.
  - intros Hx. by apply elem_of_nil in Hx.
  - intros id Hid. by apply elem_of_nil in Hid.
  - intros _ id Hid. by apply elem_of_nil in Hid.
Qed.

Lemma poolStep_idle i r p :
  match workers p !! i with
  | Some w => suspended w = false
  | None => True
  end → poolStep i r p = p.
Proof.
  unfold poolStep. by destruct (workers p !! i) as [[]|].
Qed.

Lemma poolStep_workLeft i r p w :
  workers p !! i = Some w → suspended w = true →
  (workLeft (poolStep i r p) < workLeft p)%nat.
Proof.
  intros Hi Hw. unfold poolStep, workLeft. rewrite Hi.
  destruct w as [|id ph| |]; try done.
  - unfold run_iterate. destruct (queue p) as [|id q] eqn:Hq; simpl.
    + pose proof (sum_weights_insert _ _ _ Finished Hi). rewrite Hq. simpl in *. lia.
    + destruct (prefetchOneCard_enter id (pstore p)); simpl.
      * pose proof (sum_weights_insert _ _ _ (Blocked id AwaitInfo) Hi).
        simpl in *. lia.
      * pose proof (sum_weights_insert _ _ _ Looping Hi). simpl in *. lia.
  - destruct (prefetchOneCard_resume_cases id ph r (pstore p))
      as [(sp & -> & -> & _)|[(-> & _)|(sp & u & -> & _ & -> & _)]]; simpl.
    + pose proof (sum_weights_insert _ _ _ (Blocked id (AwaitTts sp)) Hi).
      simpl in *. lia.
    + pose proof (sum_weights_insert _ _ _ Looping Hi).
      destruct ph; simpl in *; lia.
    + pose proof (sum_weights_insert _ _ _ Looping Hi). simpl in *. lia.
Qed.

Lemma effective_bound sched p :
  effective sched p = true →
  (length sched + workLeft (poolRun sched p) ≤ workLeft p)%nat.
Proof.
  revert p. induction sched as [|[i r] sched IH]; intros p; simpl; [lia|].
  destruct (workers p !! i) as [w|] eqn:Hi; [|done].
  intros [Hw He]%andb_true_iff.
  specialize (IH _ He).
  pose proof (poolStep_workLeft i r p w Hi Hw). lia.
Qed.

Lemma spawn_workLeft fuel i p : (workLeft (spawn fuel i p) ≤ workLeft p)%nat.
Proof.
  revert i p. induction fuel as [|fuel IH]; intros i p; [done|].
  simpl. destruct (_ <? _)%nat; [|done].
  pose proof (spawn_worker_as_step p Rejected) as Hs.
  destruct (run_iterate p) as [p' w]. etrans; [apply IH|]. rewrite Hs.
  assert (Hl : workers (push_worker Looping p) !! length (workers p) = Some Looping).
  { simpl. by rewrite lookup_app_r, Nat.sub_diag by lia. }
  pose proof (poolStep_workLeft _ Rejected _ _ Hl eq_refl) as Hlt.
  assert (workLeft (push_worker Looping p) = S (workLeft p)).
  { unfold workLeft, push_worker. simpl.
    rewrite fmap_app, sum_list_with_app. simpl. lia. }
  lia.
Qed.

Lemma spawn_workers_length fuel i p :
  (length (workers p) ≤ length (workers (spawn fuel i p)))%nat.
Proof.
  revert i p. induction fuel as [|fuel IH]; intros i p; [done|].
  simpl. destruct (_ <? _)%nat; [|done].
  unfold run_iterate.
  destruct (queue p) as [|id q]; [|destruct (prefetchOneCard_enter id (pstore p))];
    (etrans; [|apply IH]); simpl; rewrite length_app; simpl; lia.
Qed.

Lemma poolStep_workers_length i r p :
  length (workers (poolStep i r p)) = length (workers p).
Proof.
  unfold poolStep. destruct (workers p !! i) as [[|id ph| |]|]; try done.
  - unfold run_iterate. destruct (queue p) as [|id q]; simpl.
    + by rewrite length_insert.
    + destruct (prefetchOneCard_enter id (pstore p)); simpl; by rewrite length_insert.
  - destruct (prefetchOneCard_resume id ph r (pstore p)); simpl.
    by rewrite length_insert.
Qed.

Lemma poolRun_workers_length sched p :
  length (workers (poolRun sched p)) = length (workers p).
Proof.
  revert p. induction sched as [|[i r] sched IH]; intros p; [done|].
  simpl. by rewrite IH, poolStep_workers_length.
Qed.

Lemma spawn_unfold fuel i p :
  spawn (S fuel) i p =
    if (i <? Nat.min CONCURRENCY (length (queue p)))%nat then
      let (p', w) := run_iterate p in spawn fuel (S i) (push_worker w p')
    else p.
Proof. reflexivity. Qed.

Lemma warmPrefetch_start_workers cands st0 :
  cands ≠ [] → workers (warmPrefetch_start cands st0) ≠ [].
Proof.
  intros Hc Hw. unfold warmPrefetch_start in Hw.
  change CONCURRENCY with (S 3) in Hw at 1. rewrite spawn_unfold in Hw.
  simpl queue in Hw.
  destruct (Nat.ltb_spec 0 (Nat.min CONCURRENCY (length cands))) as [_|Hlt].
  - destruct (run_iterate _) as [p' w].
    pose proof (spawn_workers_length 3 1 (push_worker w p')) as Hle.
    rewrite Hw in Hle. simpl in Hle. rewrite length_app in Hle. simpl in Hle. lia.
  - destruct cands; [done|]. unfold CONCURRENCY in Hlt. simpl in Hlt. lia.
Qed.

Lemma noFailed_existsb ws :
  Forall (λ w, w ≠ Failed) ws → existsb isFailed ws = false.
Proof.
  induction 1 as [|w ws Hw _ IH]; [done|]. simpl. rewrite IH.
  by destruct w.
Qed.

End PoolRuns.

Section WarmTheorems.
Import App.

(** The candidates leave out the card being shown and are at most [n]. *)
Lemma candidateList_spec cand (ex : Z) n :
  (length (candidateList cand (Some ex) n) ≤ n)%nat ∧
  ex ∉ candidateList cand (Some ex) n.
Proof.
  unfold candidateList. split.
  - rewrite length_take. lia.
  - intros Hin. apply subseteq_take in Hin.
    apply list_elem_of_filter in Hin as [Hne _]. by apply Hne.
Qed.

Lemma poolStep_failure p i r id ph :
  workers p !! i = Some (Blocked id ph) → fetchFails ph r = true →
  poolStep i r p =
    mkPool (inflight_delete id (pstore p)) (queue p)
           (<[i := Looping]> (workers p)) (started p) (stored p)
           (failed p ++ [id]).
Proof.
  intros Hi Hf. unfold poolStep. rewrite Hi.
  destruct (prefetchOneCard_resume_cases id ph r (pstore p))
    as [(sp & _ & _ & Hf' & _)|[(-> & _ & ->)|(sp & u & _ & _ & _ & Hf' & _)]];
    [congruence| |congruence].
  by rewrite Hf.
Qed.

Lemma poolStep_progress cands st0 i r p :
  poolInv cands st0 p → poolProgress cands st0 p →
  poolProgress cands st0 (poolStep i r p).
Proof.
  intros [_ (taken & Hq & _) _ Hfl _ Hst _ _ _ _] [Hcached Htaken].
  assert (Hstored : ∀ id, id ∈ stored p → id ∈ started p).
  { intros id Hid. rewrite Hst. set_solver. }
  assert (Hblocked : ∀ id, id ∈ blockedIds (workers p) → id ∈ started p).
  { intros id Hid. rewrite Hst. set_solver. }
  unfold poolStep.
  destruct (workers p !! i) as [[|id ph| |]|] eqn:Hi; try done.
  - unfold run_iterate. destruct (queue p) as [|id q] eqn:Hqu.
    { constructor; simpl; [done|]. by rewrite Hqu. }
    assert (Htk : ∀ taken', cands = taken' ++ q → taken' = taken ++ [id]).
    { intros taken' Hc. apply (app_inv_tail q).
      by rewrite <- Hc, Hq, <- app_assoc. }
    destruct (prefetchOneCard_enter id (pstore p)) as [st'|] eqn:Hen.
    + apply prefetchOneCard_enter_Some in Hen as (_ & _ & ->).
      constructor; simpl; [done|].
      intros taken' Hc x Hx. rewrite (Htk taken' Hc) in Hx.
      apply elem_of_app in Hx as [Hx|Hx%list_elem_of_singleton].
      * destruct (Htaken taken Hq x Hx) as [?|?]; [left; set_solver|by right].
      * left. set_solver.
    + apply prefetchOneCard_enter_None in Hen.
      constructor; simpl; [done|].
      intros taken' Hc x Hx. rewrite (Htk taken' Hc) in Hx.
      apply elem_of_app in Hx as [Hx|Hx%list_elem_of_singleton].
      * by apply (Htaken taken Hq).
      * subst x. destruct Hen as [Hc'|Hf].
        -- destruct (Hcached id Hc') as [?|?]; [right; by left|left; auto].
        -- rewrite Hfl in Hf. apply elem_of_union in Hf as [?|Hb].
           ++ right. by right.
           ++ left. apply Hblocked. by apply elem_of_list_to_set in Hb.
  - destruct (prefetchOneCard_resume_cases id ph r (pstore p))
      as [(sp & -> & -> & -> & ->)|[(-> & -> & ->)|(sp & u & -> & Hu & -> & -> & ->)]];
      constructor; simpl; try done.
    intros x Hx. apply cacheSet_keys in Hx as [->|Hx].
    + right. set_solver.
    + destruct (Hcached x Hx) as [?|?]; [by left|right; set_solver].
Qed.

Lemma poolRun_progress cands st0 sched p :
  poolInv cands st0 p → poolProgress cands st0 p →
  poolProgress cands st0 (poolRun sched p).
Proof.
  revert p. induction sched as [|[i r] sched IH]; intros p Hp Hpr; [done|].
  simpl. apply IH; [by apply poolStep_inv|by apply poolStep_progress].
Qed.

Lemma spawn_progress cands st0 fuel i p :
  poolInv cands st0 p → poolProgress cands st0 p →
  poolProgress cands st0 (spawn fuel i p).
Proof.
  revert i p. induction fuel as [|fuel IH]; intros i p Hp Hpr; [done|].
  simpl. destruct (_ <? _)%nat; [|done].
  pose proof (spawn_worker_as_step p Rejected) as Hs.
  destruct (run_iterate p) as [p' w]. rewrite Hs.
  apply IH.
  - by apply poolStep_inv, push_Looping_inv.
  - apply poolStep_progress; [by apply push_Looping_inv|].
    destruct Hpr as [H1 H2]. by constructor.
Qed.

Lemma warmPrefetch_start_progress cands st0 :
  poolProgress cands st0 (warmPrefetch_start cands st0).
Proof.
  apply spawn_progress.
  - constructor; simpl; try done.
    + by exists [].
    + constructor.
    + set_solver.
    + intros id Hid. by apply elem_of_nil in Hid.
    + intros id Hid. by apply elem_of_nil in Hid.
    + intros Hx. by apply elem_of_nil in Hx.
    + intros id Hid. by apply elem_of_nil in Hid.
    + intros _ id Hid. by apply elem_of_nil in Hid.
  - constructor; simpl; [by left|].
    intros taken Hc id Hid.
    assert (taken = []) as ->; [|by apply elem_of_nil in Hid].
    apply (app_inv_tail cands). by rewrite <- Hc.
Qed.

(** The failures the code does not see are the error responses. *)
Lemma undetected_failure sp d :
  sp ≠ "" → downloadFails d = true →
  fetchFails (AwaitTts sp) (settles d) = false →
  ∃ status objectUrl,
    d = Body status objectUrl ∧ responseOk status = false ∧ objectUrl ≠ "".
Proof.
  intros Hsp Hd Hf. unfold fetchFails, ttsFetchToBlobUrl in Hf.
  rewrite bool_decide_eq_false_2 in Hf by done.
  destruct d as [| | |status|status u]; try done. simpl in Hf, Hd.
  exists status, u. split_and!; [done|by apply negb_true_iff|].
  intros ->. done.
Qed.

(** C8, as stated, fails: the download of the clip of card 1 is answered
    with 404, and the body of that answer is cached as the card's clip. *)
Lemma warmPrefetch_caches_error_response :
  let p := poolRun clipNotFound (warmPrefetch_start [1] emptyStore) in
  downloadFails (Body 404 "blob:e01") = true ∧
  ttsCache (pstore p) = [(1, "blob:e01")] ∧
  failed p = [] ∧ warmPrefetch_settled p = Fulfilled.
Proof. by vm_compute. Qed.

(** C8, amended. Whatever the workers of a [warmPrefetch] call have done so
    far: no worker has rejected, so [Promise.all] does not reject; a fetch
    or synthesis that fails in a way the code sees (a rejection, an answer
    without a URL, no text to speak) leaves the cache as it was, without an
    entry for the id, removes the id from the in-flight set and returns the
    worker to its loop with the queue untouched; a call that ends, well or
    not, leaves its id out of the in-flight set; fetches start in queue
    order, at most once per queue entry, and every candidate taken from the
    queue was fetched unless it was cached or in flight already; with
    distinct candidates a failed id is fetched once, and is neither cached
    nor in flight afterwards; the workers can be resumed at most
    [3 * length cands] times, and once none is suspended the queue is
    empty, every fetch begun has stored or failed, every candidate that was
    not cached or in flight at the start is among them, and the call is
    fulfilled. The one failure the code does not see is a download answered
    with an error status. *)
Theorem warmPrefetch_skips_failed_candidates
    (cands : list Z) (st0 : Store) (sched : list (nat * Settle)) :
  let p := poolRun sched (warmPrefetch_start cands st0) in
  warmPrefetch_settled p ≠ RejectedP ∧
  (∀ i r id ph,
     workers p !! i = Some (Blocked id ph) → fetchFails ph r = true →
     let p' := poolStep i r p in
     ttsCache (pstore p') = ttsCache (pstore p) ∧
     (id ∉ (ttsCache (pstore p')).*1) ∧
     inflight (pstore p') = inflight (pstore p) ∖ {[id]} ∧
     workers p' = <[i := Looping]> (workers p) ∧
     queue p' = queue p ∧ started p' = started p ∧
     warmPrefetch_settled p' ≠ RejectedP) ∧
  (∀ i r id ph,
     workers p !! i = Some (Blocked id ph) →
     workers (poolStep i r p) !! i = Some Looping →
     id ∉ inflight (pstore (poolStep i r p))) ∧
  (∃ taken, cands = taken ++ queue p ∧ sublist (started p) taken ∧
     ∀ id, id ∈ taken →
           id ∈ started p ∨ id ∈ (ttsCache st0).*1 ∨ id ∈ inflight st0) ∧
  (NoDup cands →
     NoDup (started p) ∧
     ∀ id, id ∈ failed p →
       (id ∉ (ttsCache (pstore p)).*1) ∧ (id ∉ inflight (pstore p))) ∧
  (effective sched (warmPrefetch_start cands st0) = true →
     (length sched ≤ 3 * length cands)%nat) ∧
  (Forall (λ w, suspended w = false) (workers p) →
     warmPrefetch_settled p = Fulfilled ∧ queue p = [] ∧
     started p ≡ₚ failed p ++ stored p ∧
     inflight (pstore p) = inflight st0 ∧
     ∀ id, id ∈ cands →
           id ∈ failed p ∨ id ∈ stored p ∨
           id ∈ (ttsCache st0).*1 ∨ id ∈ inflight st0) ∧
  (∀ sp d,
     sp ≠ "" → downloadFails d = true →
     fetchFails (AwaitTts sp) (settles d) = false →
     ∃ status objectUrl,
       d = Body status objectUrl ∧ responseOk status = false ∧ objectUrl ≠ "").
Proof.
  intros p.
  pose proof (poolRun_inv cands st0 sched _ (warmPrefetch_start_inv cands st0))
    as Hinv.
  pose proof (poolRun_progress cands st0 sched _
                (warmPrefetch_start_inv cands st0)
                (warmPrefetch_start_progress cands st0)) as [_ Htaken].
  fold p in Hinv, Htaken.
  pose proof Hinv as [Hnf (taken & Hq & Hsub) Hnd Hfl Hnew Hst Hsn Hfin Hunc Hfail].
  assert (Hrej : ∀ q, poolInv cands st0 q → warmPrefetch_settled q ≠ RejectedP).
  { intros q [Hq1 _ _ _ _ _ _ _ _ _]. unfold warmPrefetch_settled.
    rewrite noFailed_existsb by done. by destruct (forallb _ _). }
  split_and!.
  - by apply Hrej.
  - intros i r id ph Hi Hf p'. subst p'.
    rewrite (poolStep_failure p i r id ph Hi Hf). simpl.
    assert (Hb : id ∈ blockedIds (workers p)).
    { destruct (blockedIds_insert _ _ _ Looping Hi) as (rest & Hb & _).
      rewrite Hb. by left. }
    split_and!; try done; [by apply Hunc|].
    rewrite <- (poolStep_failure p i r id ph Hi Hf).
    by apply Hrej, poolStep_inv.
  - intros i r id ph Hi Hi'.
    pose proof (poolStep_inv cands st0 i r p Hinv) as Hinv'.
    destruct (blockedIds_insert _ _ _ Looping Hi) as (rest & Hb & Hb').
    simpl in Hb, Hb'.
    assert (Hws : workers (poolStep i r p) = <[i := Looping]> (workers p)).
    { revert Hi'. unfold poolStep. rewrite Hi.
      destruct (prefetchOneCard_resume id ph r (pstore p)) as [st' fl]. simpl.
      rewrite list_lookup_insert_eq by (by eapply lookup_lt_Some).
      destruct fl; intros [= ]. done. }
    rewrite (inv_inflight _ _ _ Hinv'), Hws, (list_to_set_perm_L _ _ Hb').
    assert (Hnd' : NoDup (id :: rest)) by (by rewrite <- Hb).
    apply NoDup_cons in Hnd' as [Hid _].
    assert (id ∉ inflight st0) by (apply Hnew; rewrite Hb; by left).
    rewrite not_elem_of_union, elem_of_list_to_set. done.
  - exists taken. split_and!; [done|done|by apply Htaken].
  - intros Hc.
    assert (Hnds : NoDup (started p)).
    { apply (sublist_NoDup _ taken); [|exact Hsub].
      rewrite Hq in Hc. by apply NoDup_app in Hc as (? & _ & _). }
    split; [done|]. intros id Hid. split; [by apply Hfail|].
    rewrite Hfl, not_elem_of_union, elem_of_list_to_set. split.
    + apply Hsn. rewrite Hst. apply elem_of_app. by left.
    + rewrite Hst in Hnds. apply NoDup_app in Hnds as (_ & Hdisj & _).
      intros Hb. apply (Hdisj id Hid). apply elem_of_app. by right.
  - intros He. pose proof (effective_bound _ _ He) as Hb.
    pose proof (spawn_workLeft CONCURRENCY 0 (mkPool st0 cands [] [] [] [])) as Hs.
    assert (Hw0 : workLeft (mkPool st0 cands [] [] [] []) = (3 * length cands)%nat)
      by (unfold workLeft; simpl; lia).
    unfold warmPrefetch_start in Hb. lia.
  - intros Hall.
    assert (Hfinished : Forall (λ w, w = Finished) (workers p)).
    { rewrite Forall_forall in Hall, Hnf. apply Forall_forall. intros w Hw.
      specialize (Hall w Hw). specialize (Hnf w Hw). by destruct w. }
    assert (Hnb : blockedIds (workers p) = []).
    { clear -Hfinished. induction Hfinished as [|w ws -> _ IH]; [done|]. done. }
    assert (Hempty : queue p = []).
    { destruct (decide (cands = [])) as [->|Hne].
      * symmetry in Hq. by apply app_eq_nil in Hq as [_ ?].
      * apply Hfin.
        pose proof (warmPrefetch_start_workers cands st0 Hne) as Hw.
        assert (Hlen : length (workers p) = length (workers (warmPrefetch_start cands st0)))
          by apply poolRun_workers_length.
        destruct (workers p) as [|w ws] eqn:Hws.
        { destruct (workers (warmPrefetch_start cands st0)); done. }
        apply Forall_cons in Hfinished as [-> _]. by left. }
    assert (Hperm : started p ≡ₚ failed p ++ stored p)
      by (by rewrite Hst, Hnb, app_nil_r).
    split_and!.
    + unfold warmPrefetch_settled. rewrite noFailed_existsb by done.
      assert (forallb isFinished (workers p) = true) as ->; [|done].
      apply forallb_forall. intros w Hw%list_elem_of_In.
      rewrite Forall_forall in Hfinished. by rewrite (Hfinished w Hw).
    + done.
    + done.
    + rewrite Hfl, Hnb. simpl. set_solver.
    + intros id Hid.
      rewrite Hempty, app_nil_r in Hq. subst taken.
      destruct (Htaken cands ltac:(by rewrite Hempty, app_nil_r) id Hid)
        as [Hs|[?|?]]; [|by right; right; left|by right; right; right].
      rewrite Hperm in Hs. apply elem_of_app in Hs as [?|?];
        [by left|by right; left].
  - intros sp d. apply undetected_failure.
Qed.

Lemma warmPrefetch_second_card_fails :
  let p := poolRun secondCardFails (warmPrefetch_start [1; 2; 3] emptyStore) in
  ttsCache (pstore p) = [(1, "blob:c01"); (3, "blob:c03")] ∧
  failed p = [2] ∧ inflight (pstore p) = ∅ ∧
  warmPrefetch_settled p = Fulfilled ∧
  (2 ∉ (ttsCache (pstore p)).*1) ∧ NoDup (started p) ∧
  stored p = [1; 3].
Proof.
  intros p.
  destruct (warmPrefetch_skips_failed_candidates [1; 2; 3] emptyStore secondCardFails)
    as (_ & _ & _ & _ & Hfailed & _ & Hdone & _).
  fold p in Hfailed, Hdone.
  assert (Hc : ttsCache (pstore p) = [(1, "blob:c01"); (3, "blob:c03")])
    by (vm_compute; reflexivity).
  assert (Hf : failed p = [2]) by (vm_compute; reflexivity).
  assert (Hws : workers p = [Finished; Finished]) by (vm_compute; reflexivity).
  assert (Hstored : stored p = [1; 3]) by (vm_compute; reflexivity).
  destruct Hfailed as [Hnd H2].
  { apply (bool_decide_unpack (NoDup [1; 2; 3])). vm_compute. exact I. }
  destruct Hdone as (Hs & _ & _ & Hfl & _).
  { rewrite Hws. apply Forall_cons. split; [reflexivity|].
    apply Forall_cons. split; [reflexivity|]. apply Forall_nil. exact I. }
  destruct (H2 2) as [H2c _].
  { rewrite Hf. apply list_elem_of_here. }
  exact (conj Hc (conj Hf (conj Hfl (conj Hs (conj H2c (conj Hnd Hstored)))))).
Defined.

End WarmTheorems.

(** ** Binary64 rounding *)

Section Rounding.
Import Binary64.
Local Open Scope Q_scope.

Lemma roundEven_floor x :
  roundEven x = Qfloor x ∨ roundEven x = (Qfloor x + 1)%Z.
Proof.
  unfold roundEven. destruct (Qcompare _ _); auto. destruct (Z.even _); auto.
Qed.

Lemma roundEven_near x :
  x - (1 # 2) <= inject_Z (roundEven x) ∧ inject_Z (roundEven x) <= x + (1 # 2).
Proof.
  pose proof (Qfloor_le x) as Hlo. pose proof (Qlt_floor x) as Hhi.
  rewrite inject_Z_plus in Hhi. change (inject_Z 1) with 1 in Hhi.
  unfold roundEven.
  destruct (Qcompare_spec (x - inject_Z (Qfloor x)) (1 # 2)) as [He|Hl|Hg].
  - destruct (Z.even _); rewrite ?inject_Z_plus; change (inject_Z 1) with 1;
      split; Lqa.lra.
  - split; Lqa.lra.
  - rewrite inject_Z_plus. change (inject_Z 1) with 1. split; Lqa.lra.
Qed.

Lemma roundEven_le_Z x z : x <= inject_Z z → (roundEven x ≤ z)%Z.
Proof.
  intros Hx.
  assert (Hf : (Qfloor x ≤ z)%Z).
  { rewrite <- (Qfloor_Z z). by apply Qfloor_resp_le. }
  destruct (decide (Qfloor x = z)) as [Heq|Hne].
  - unfold roundEven.
    pose proof (Qfloor_le x) as Hlo. rewrite Heq in *.
    destruct (Qcompare_spec (x - inject_Z z) (1 # 2)) as [He|Hl|Hg];
      [exfalso; Lqa.lra|lia|exfalso; Lqa.lra].
  - destruct (roundEven_floor x) as [-> | ->]; lia.
Qed.

Lemma roundEven_ge_Z x z : inject_Z z <= x → (z ≤ roundEven x)%Z.
Proof.
  intros Hx.
  assert (Hf : (z ≤ Qfloor x)%Z).
  { rewrite <- (Qfloor_Z z). by apply Qfloor_resp_le. }
  destruct (roundEven_floor x) as [-> | ->]; lia.
Qed.

Lemma pow2_pos e : 0 < 2 ^ e.
Proof. by apply Qpower_0_lt. Qed.

Lemma pow2_plus a b : 2 ^ (a + b) == 2 ^ a * 2 ^ b.
Proof. by apply Qpower_plus. Qed.

Lemma pow2_le a b : (a ≤ b)%Z → 2 ^ a <= 2 ^ b.
Proof. intros H. by apply Qpower_le_compat_l. Qed.

Lemma pow2_lt a b : (a < b)%Z → 2 ^ a < 2 ^ b.
Proof. intros H. by apply Qpower_lt_compat_l. Qed.

Lemma pow2_Z n : (0 ≤ n)%Z → inject_Z (2 ^ n) == 2 ^ n.
Proof. intros H. by rewrite Zpower_Qpower. Qed.

Lemma Qabs_num_den q :
  Qabs q * inject_Z (Zpos (Qden q)) == inject_Z (Z.abs (Qnum q)).
Proof.
  destruct q as [n d]. unfold Qabs, Qeq, Qmult, inject_Z. cbn. lia.
Qed.

(** [ilog2 q] is the position of the leading bit of [q]. *)
Lemma ilog2_spec q :
  ¬ q == 0 → 2 ^ ilog2 q <= Qabs q ∧ Qabs q < 2 ^ (ilog2 q + 1).
Proof.
  intros Hq. unfold ilog2.
  pose proof (Qabs_num_den q) as Hmul.
  pose proof (Qabs_nonneg q) as Ha.
  set (n := Z.abs (Qnum q)) in *. set (d := Zpos (Qden q)) in *.
  assert (Hn : (0 < n)%Z).
  { unfold Qeq in Hq. cbn in Hq. subst n. lia. }
  assert (Hd : (0 < d)%Z) by done.
  destruct (Z.log2_spec n Hn) as [Hn1 Hn2].
  destruct (Z.log2_spec d Hd) as [Hd1 Hd2].
  pose proof (Z.log2_nonneg n) as Hln. pose proof (Z.log2_nonneg d) as Hld.
  set (ln := Z.log2 n) in *. set (ld := Z.log2 d) in *.
  rewrite Zle_Qle, pow2_Z in Hn1, Hd1 by done.
  rewrite Zlt_Qlt, pow2_Z in Hn2, Hd2 by lia.
  replace (Z.succ ln) with (ln + 1)%Z in Hn2 by lia.
  replace (Z.succ ld) with (ld + 1)%Z in Hd2 by lia.
  rewrite pow2_plus in Hn2, Hd2. change (2 ^ 1) with 2 in Hn2, Hd2.
  pose proof (pow2_pos ln) as Hpn. pose proof (pow2_pos ld) as Hpd.
  set (a := Qabs q) in *. set (N := inject_Z n) in *. set (D := inject_Z d) in *.
  set (Lo := 2 ^ ln) in *. set (L := 2 ^ ld) in *.
  assert (Hup : a * L < Lo * 2).
  { pose proof (Qmult_le_compat_r _ _ a Hd1 Ha) as Hm.
    clearbody a N D Lo L. clear -Hmul Hn2 Hm.
    rewrite (Qmult_comm L), (Qmult_comm D) in Hm. Lqa.lra. }
  assert (Hdn : Lo < a * (L * 2)).
  { assert (Hapos : 0 < a).
    { destruct (Qlt_le_dec 0 a) as [|Hle]; [done|].
      assert (Hz : a == 0) by (by apply Qle_antisym).
      rewrite Hz, Qmult_0_l in Hmul.
      assert (0 < N) by (unfold N; change 0 with (inject_Z 0); by rewrite <- Zlt_Qlt).
      clearbody N. clear -Hmul H. Lqa.lra. }
    apply (proj2 (Qmult_lt_l D (L * 2) a Hapos)) in Hd2.
    clearbody a N D Lo L. clear -Hmul Hn1 Hd2. Lqa.lra. }
  assert (E1 : 2 ^ (ln - ld + 1) * L == Lo * 2).
  { unfold L, Lo. rewrite <- pow2_plus.
    replace (ln - ld + 1 + ld)%Z with (ln + 1)%Z by lia. by rewrite pow2_plus. }
  assert (E2 : 2 ^ (ln - ld - 1) * (L * 2) == Lo).
  { unfold L, Lo. change 2 with (2 ^ 1) at 3. rewrite <- !pow2_plus.
    by replace (ln - ld - 1 + (ld + 1))%Z with ln by lia. }
  destruct (Qle_bool (2 ^ (ln - ld)) a) eqn:Hb.
  - apply Qle_bool_iff in Hb. split; [done|].
    apply (Qmult_lt_r _ _ L Hpd). by rewrite E1.
  - assert (Hlt : a < 2 ^ (ln - ld)).
    { apply Qnot_le_lt. intros Hle. apply Qle_bool_iff in Hle. congruence. }
    replace (ln - ld - 1 + 1)%Z with (ln - ld)%Z by lia. split; [|done].
    apply Qlt_le_weak. apply (Qmult_lt_r _ _ (L * 2)); [Lqa.lra|]. by rewrite E2.
Qed.

Lemma Qabs_scaled x p q : 0 < p → x * p == q → Qabs x * p == Qabs q.
Proof.
  intros Hp Hx. rewrite <- Hx, Qabs_Qmult, (Qabs_pos p); [done|].
  by apply Qlt_le_weak.
Qed.

(** The rounding of [q] taken apart: the exponent, the scaled number and
    its size. *)
Lemma round64_decompose q :
  ¬ q == 0 →
  ∃ (e : Z) (x : Q),
    (-1074 ≤ e)%Z ∧ x * 2 ^ e == q ∧
    round64 q = inject_Z (roundEven x) * 2 ^ e ∧
    Qabs x < 2 ^ 53 ∧ ((-1074 < e)%Z → 2 ^ 52 <= Qabs x).
Proof.
  intros Hq. exists (exponent q), (q / 2 ^ exponent q).
  pose proof (pow2_pos (exponent q)) as Hp.
  assert (Hx : q / 2 ^ exponent q * 2 ^ exponent q == q).
  { field. intros Hz. rewrite Hz in Hp. by apply Qlt_irrefl in Hp. }
  pose proof (Qabs_scaled _ _ _ Hp Hx) as Ha.
  destruct (ilog2_spec q Hq) as [Hlo Hhi].
  split_and!.
  - unfold exponent. lia.
  - done.
  - unfold round64. destruct (Qeq_bool q 0) eqn:Hb; [|done].
    by apply Qeq_bool_iff in Hb.
  - apply (Qmult_lt_r _ _ _ Hp). rewrite Ha, <- pow2_plus.
    eapply Qlt_le_trans; [exact Hhi|]. apply pow2_le. unfold exponent. lia.
  - intros He. apply (Qmult_le_r _ _ _ Hp). rewrite Ha, <- pow2_plus.
    eapply Qle_trans; [|exact Hlo]. apply pow2_le. unfold exponent in *. lia.
Qed.

Lemma round64_zero q : q == 0 → round64 q = 0.
Proof.
  intros Hq. unfold round64. destruct (Qeq_bool q 0) eqn:Hb; [done|].
  apply Qeq_bool_neq in Hb. done.
Qed.

(** A representable number written at a lower exponent. *)
Lemma representable_scaled m ey e :
  (e ≤ ey)%Z → inject_Z m * 2 ^ ey == inject_Z (m * 2 ^ (ey - e)) * 2 ^ e.
Proof.
  intros He. rewrite inject_Z_mult, pow2_Z by lia.
  rewrite <- Qmult_assoc, <- pow2_plus. by replace (ey - e + e)%Z with ey by lia.
Qed.

Lemma representable_small m ey e :
  (Z.abs m ≤ 2 ^ 53)%Z → (ey < e)%Z →
  ∃ Y, inject_Z m * 2 ^ ey == Y * 2 ^ e ∧ - 2 ^ 52 <= Y ∧ Y <= 2 ^ 52.
Proof.
  intros Hm He. exists (inject_Z m * 2 ^ (ey - e)). split.
  - rewrite <- Qmult_assoc, <- pow2_plus. by replace (ey - e + e)%Z with ey by lia.
  - pose proof (pow2_pos (ey - e)) as Hp.
    pose proof (pow2_le (ey - e) (-1) ltac:(lia)) as Hle.
    change (2 ^ (-1)) with (1 # 2) in Hle.
    assert (Hm1 : - 2 ^ 53 <= inject_Z m ∧ inject_Z m <= 2 ^ 53).
    { rewrite <- (pow2_Z 53) by lia. rewrite <- inject_Z_opp, <- !Zle_Qle. lia. }
    destruct Hm1 as [Hm1 Hm2].
    change (2 ^ 53) with (2 * 2 ^ 52) in Hm1, Hm2.
    set (B := 2 ^ 52) in *. assert (HB : 0 < B) by done.
    set (M := inject_Z m) in *. set (P := 2 ^ (ey - e)) in *.
    clearbody B M P. clear -Hp Hle Hm1 Hm2 HB. split; Lqa.nra.
Qed.

(** Rounding does not pass a representable number. *)
Lemma round64_le q y : representable y → q <= y → round64 q <= y.
Proof.
  intros (m & ey & Hm & Hey & Hy) Hqy.
  destruct (Qeq_dec q 0) as [Hz|Hnz].
  { rewrite (round64_zero q Hz). by rewrite <- Hz. }
  destruct (round64_decompose q Hnz) as (e & x & He & Hx & -> & Hlt & Hge).
  pose proof (pow2_pos e) as Hp.
  destruct (Z_le_gt_dec e ey) as [Hle|Hgt].
  - rewrite Hy, (representable_scaled m ey e Hle).
    apply Qmult_le_r; [done|]. rewrite <- Zle_Qle. apply roundEven_le_Z.
    apply (Qmult_le_r _ _ _ Hp).
    by rewrite Hx, <- (representable_scaled m ey e Hle), <- Hy.
  - destruct (representable_small m ey e Hm ltac:(lia)) as (Y & HY & HY1 & HY2).
    rewrite Hy, HY. apply Qmult_le_r; [done|].
    assert (HxY : x <= Y).
    { apply (Qmult_le_r _ _ _ Hp). by rewrite Hx, <- HY, <- Hy. }
    specialize (Hge ltac:(lia)).
    assert (Hcase : 2 ^ 52 <= x ∨ x <= - 2 ^ 52).
    { revert Hge. apply Qabs_case; intros ? ?; [by left|right; Lqa.lra]. }
    destruct Hcase as [Hpos|Hneg].
    + assert (Hr : (roundEven x ≤ 2 ^ 52)%Z).
      { apply roundEven_le_Z. rewrite pow2_Z by lia. Lqa.lra. }
      rewrite Zle_Qle, pow2_Z in Hr by lia. Lqa.lra.
    + assert (Hr : (roundEven x ≤ - 2 ^ 52)%Z).
      { apply roundEven_le_Z. rewrite inject_Z_opp, pow2_Z by lia. done. }
      rewrite Zle_Qle, inject_Z_opp, pow2_Z in Hr by lia. Lqa.lra.
Qed.

Lemma round64_ge q y : representable y → y <= q → y <= round64 q.
Proof.
  intros (m & ey & Hm & Hey & Hy) Hqy.
  destruct (Qeq_dec q 0) as [Hz|Hnz].
  { rewrite (round64_zero q Hz). by rewrite <- Hz. }
  destruct (round64_decompose q Hnz) as (e & x & He & Hx & -> & Hlt & Hge).
  pose proof (pow2_pos e) as Hp.
  destruct (Z_le_gt_dec e ey) as [Hle|Hgt].
  - rewrite Hy, (representable_scaled m ey e Hle).
    apply Qmult_le_r; [done|]. rewrite <- Zle_Qle. apply roundEven_ge_Z.
    apply (Qmult_le_r _ _ _ Hp).
    by rewrite Hx, <- (representable_scaled m ey e Hle), <- Hy.
  - destruct (representable_small m ey e Hm ltac:(lia)) as (Y & HY & HY1 & HY2).
    rewrite Hy, HY. apply Qmult_le_r; [done|].
    assert (HxY : Y <= x).
    { apply (Qmult_le_r _ _ _ Hp). by rewrite Hx, <- HY, <- Hy. }
    specialize (Hge ltac:(lia)).
    assert (Hcase : 2 ^ 52 <= x ∨ x <= - 2 ^ 52).
    { revert Hge. apply Qabs_case; intros ? ?; [by left|right; Lqa.lra]. }
    destruct Hcase as [Hpos|Hneg].
    + assert (Hr : (2 ^ 52 ≤ roundEven x)%Z).
      { apply roundEven_ge_Z. rewrite pow2_Z by lia. done. }
      rewrite Zle_Qle, pow2_Z in Hr by lia. Lqa.lra.
    + assert (Hr : (- 2 ^ 52 ≤ roundEven x)%Z).
      { apply roundEven_ge_Z. rewrite inject_Z_opp, pow2_Z by lia. Lqa.lra. }
      rewrite Zle_Qle, inject_Z_opp, pow2_Z in Hr by lia. Lqa.lra.
Qed.

(** A representable number is its own rounding. *)
Lemma round64_representable q : representable q → round64 q == q.
Proof.
  intros Hq. apply Qle_antisym.
  - apply round64_le; [done|apply Qle_refl].
  - apply round64_ge; [done|apply Qle_refl].
Qed.

Lemma roundEven_comp x y : x == y → roundEven x = roundEven y.
Proof.
  intros H. unfold roundEven. rewrite (Qfloor_comp _ _ H).
  assert (E : Qcompare (x - inject_Z (Qfloor y)) (1 # 2)
              = Qcompare (y - inject_Z (Qfloor y)) (1 # 2)) by (by rewrite H).
  by rewrite E.
Qed.

Lemma ilog2_unique q k :
  2 ^ k <= Qabs q → Qabs q < 2 ^ (k + 1) → ilog2 q = k.
Proof.
  intros Hlo Hhi.
  assert (Hq : ¬ q == 0).
  { intros Hz. rewrite Hz in Hlo. pose proof (pow2_pos k) as Hp.
    change (Qabs 0) with 0 in Hlo. Lqa.lra. }
  destruct (ilog2_spec q Hq) as [Hlo' Hhi'].
  assert (H1 : (k < ilog2 q + 1)%Z).
  { apply (Qpower_lt_compat_l_inv 2); [|done]. eapply Qle_lt_trans; eauto. }
  assert (H2 : (ilog2 q < k + 1)%Z).
  { apply (Qpower_lt_compat_l_inv 2); [|done]. eapply Qle_lt_trans; eauto. }
  lia.
Qed.

Lemma ilog2_comp x y : ¬ y == 0 → x == y → ilog2 x = ilog2 y.
Proof.
  intros Hnz H. destruct (ilog2_spec y Hnz) as [Hlo Hhi].
  apply ilog2_unique; by rewrite H.
Qed.

#[global] Instance round64_comp : Proper (Qeq ==> Qeq) round64.
Proof.
  intros x y H. destruct (Qeq_dec y 0) as [Hz|Hnz].
  - rewrite (round64_zero y Hz), (round64_zero x); [done|by rewrite H].
  - unfold round64, exponent.
    destruct (Qeq_bool x 0) eqn:Hx.
    { apply Qeq_bool_iff in Hx. rewrite H in Hx. done. }
    destruct (Qeq_bool y 0) eqn:Hy.
    { apply Qeq_bool_iff in Hy. done. }
    rewrite (ilog2_comp x y Hnz H).
    rewrite (roundEven_comp (x / _) (y / 2 ^ Z.max (ilog2 y - 52) (-1074)));
      [done|by rewrite H].
Qed.

(** What rounding gives is representable. *)
Lemma round64_is_representable q : representable (round64 q).
Proof.
  destruct (Qeq_dec q 0) as [Hz|Hnz].
  { rewrite (round64_zero q Hz). exists 0%Z, 0%Z. split_and!; done. }
  destruct (round64_decompose q Hnz) as (e & x & He & Hx & -> & Hlt & Hge).
  exists (roundEven x), e. split_and!; [|done|done].
  assert (Hb : - 2 ^ 53 <= x ∧ x <= 2 ^ 53).
  { apply Qabs_Qle_condition. by apply Qlt_le_weak. }
  destruct Hb as [Hb1 Hb2].
  pose proof (roundEven_le_Z x (2 ^ 53)) as H1.
  pose proof (roundEven_ge_Z x (- 2 ^ 53)) as H2.
  rewrite pow2_Z in H1 by lia. rewrite inject_Z_opp, pow2_Z in H2 by lia.
  specialize (H1 Hb2). specialize (H2 Hb1). lia.
Qed.

(** The error of rounding a number of the normal range: at most [2^-53] of
    its size. *)
Lemma round64_error q :
  2 ^ (-1022) <= Qabs q →
  Qabs (round64 q - q) <= 2 ^ (-53) * Qabs q.
Proof.
  intros Hn.
  assert (Hnz : ¬ q == 0).
  { intros Hz. rewrite Hz in Hn. change (Qabs 0) with 0 in Hn.
    pose proof (pow2_pos (-1022)). Lqa.lra. }
  pose proof (ilog2_spec q Hnz) as [Hlo Hhi].
  assert (Hil : (-1022 ≤ ilog2 q)%Z).
  { assert (-1022 < ilog2 q + 1)%Z; [|lia].
    apply (Qpower_lt_compat_l_inv 2); [|done]. eapply Qle_lt_trans; eauto. }
  unfold round64. destruct (Qeq_bool q 0) eqn:Hb.
  { by apply Qeq_bool_iff in Hb. }
  assert (He : exponent q = (ilog2 q - 52)%Z) by (unfold exponent; lia).
  rewrite He. set (e := (ilog2 q - 52)%Z) in *.
  pose proof (pow2_pos e) as Hp.
  set (x := q / 2 ^ e).
  assert (Hx : x * 2 ^ e == q).
  { unfold x. field. intros Hz. rewrite Hz in Hp. by apply Qlt_irrefl in Hp. }
  destruct (roundEven_near x) as [Hr1 Hr2].
  assert (Hd : Qabs (inject_Z (roundEven x) - x) <= 1 # 2).
  { apply Qabs_Qle_condition. split; Lqa.lra. }
  assert (E : inject_Z (roundEven x) * 2 ^ e - q
              == (inject_Z (roundEven x) - x) * 2 ^ e).
  { rewrite <- Hx. ring. }
  rewrite E, Qabs_Qmult, (Qabs_pos (2 ^ e)) by (by apply Qlt_le_weak).
  eapply Qle_trans.
  { apply Qmult_le_compat_r; [exact Hd|by apply Qlt_le_weak]. }
  assert (E2 : (1 # 2) * 2 ^ e == 2 ^ (-53) * 2 ^ ilog2 q).
  { change (1 # 2) with (2 ^ (-1)). rewrite <- !pow2_plus.
    by replace (-1 + e)%Z with (-53 + ilog2 q)%Z by lia. }
  rewrite E2. apply Qmult_le_l; [done|done].
Qed.

Lemma Qsquare_le a b : 0 <= a → a <= b → a * a <= b * b.
Proof. intros. Lqa.nra. Qed.

Lemma Qsquare_le_inv a b : 0 <= b → a * a <= b * b → a <= b.
Proof. intros. Lqa.nra. Qed.

(** The square root taken apart: the mantissa [m], the exponent [e], and
    the half-unit interval around [m] that holds the scaled root. *)
Lemma sqrt64_decompose q :
  0 < q →
  ∃ (m e : Z),
    sqrt64 q = inject_Z m * 2 ^ e ∧ e = ((ilog2 q - 104) / 2)%Z ∧
    (2 ^ 52 ≤ m ≤ 2 ^ 53)%Z ∧
    (inject_Z m - (1 # 2)) * (inject_Z m - (1 # 2)) * 2 ^ (2 * e) <= q ∧
    q <= (inject_Z m + (1 # 2)) * (inject_Z m + (1 # 2)) * 2 ^ (2 * e).
Proof.
  intros Hq.
  assert (Hnz : ¬ q == 0) by (intros Hz; rewrite Hz in Hq; by apply Qlt_irrefl in Hq).
  destruct (ilog2_spec q Hnz) as [Hlo Hhi].
  rewrite (Qabs_pos q) in Hlo, Hhi by (by apply Qlt_le_weak).
  unfold sqrt64.
  destruct (Qle_bool q 0) eqn:Hb.
  { apply Qle_bool_iff in Hb. Lqa.lra. }
  set (e := ((ilog2 q - 104) / 2)%Z).
  assert (He : (2 * e ≤ ilog2 q - 104 ≤ 2 * e + 1)%Z).
  { pose proof (Z.mul_div_le (ilog2 q - 104) 2 ltac:(lia)).
    pose proof (Z.mul_succ_div_gt (ilog2 q - 104) 2 ltac:(lia)).
    fold e in H, H0. lia. }
  pose proof (pow2_pos (2 * e)) as Hp.
  set (x := q / 2 ^ (2 * e)).
  assert (Hx : x * 2 ^ (2 * e) == q).
  { unfold x. field. intros Hz. rewrite Hz in Hp. by apply Qlt_irrefl in Hp. }
  assert (Hx1 : 2 ^ 104 <= x).
  { apply (Qmult_le_r _ _ _ Hp). rewrite Hx, <- pow2_plus.
    eapply Qle_trans; [|exact Hlo]. apply pow2_le. lia. }
  assert (Hx2 : x < 2 ^ 106).
  { apply (Qmult_lt_r _ _ _ Hp). rewrite Hx, <- pow2_plus.
    eapply Qlt_le_trans; [exact Hhi|]. apply pow2_le. lia. }
  set (F := Qfloor x).
  assert (HF1 : (2 ^ 104 ≤ F)%Z).
  { rewrite <- (Qfloor_Z (2 ^ 104)). apply Qfloor_resp_le.
    by rewrite pow2_Z by lia. }
  assert (HF2 : (F < 2 ^ 106)%Z).
  { rewrite Zlt_Qlt, pow2_Z by lia.
    eapply Qle_lt_trans; [apply Qfloor_le|done]. }
  destruct (Z.sqrt_spec F ltac:(lia)) as [Hs1 Hs2].
  set (f := Z.sqrt F) in *.
  assert (Hf1 : (2 ^ 52 ≤ f)%Z).
  { change (2 ^ 52)%Z with (Z.sqrt (2 ^ 104)). by apply Z.sqrt_le_mono. }
  assert (Hf2 : (f < 2 ^ 53)%Z).
  { assert (f * f < 2 ^ 53 * 2 ^ 53)%Z by (change (2 ^ 53 * 2 ^ 53)%Z with (2 ^ 106)%Z; lia).
    nia. }
  assert (Hq1 : inject_Z f * inject_Z f <= x).
  { rewrite <- inject_Z_mult. eapply Qle_trans; [|apply (Qfloor_le x)].
    by rewrite <- Zle_Qle. }
  assert (Hq2 : x < (inject_Z f + 1) * (inject_Z f + 1)).
  { eapply Qlt_le_trans; [apply (Qlt_floor x)|].
    change 1 with (inject_Z 1). rewrite <- !inject_Z_plus, <- inject_Z_mult.
    rewrite <- Zle_Qle. fold F. lia. }
  assert (Hfq : 1 <= inject_Z f).
  { change 1 with (inject_Z 1). rewrite <- Zle_Qle. lia. }
  set (m := match Qcompare x _ with Lt => f | Gt => (f + 1)%Z
            | Eq => if Z.even f then f else (f + 1)%Z end).
  exists m, e. split; [done|]. split; [done|].
  assert (Hm : (m = f ∧ x <= (inject_Z f + (1 # 2)) * (inject_Z f + (1 # 2))) ∨
               (m = (f + 1)%Z ∧ (inject_Z f + (1 # 2)) * (inject_Z f + (1 # 2)) <= x)).
  { unfold m.
    destruct (Qcompare_spec x ((inject_Z f + (1 # 2)) * (inject_Z f + (1 # 2))))
      as [Heq|Hlt|Hgt].
    - destruct (Z.even f); [left|right]; (split; [done|]); rewrite Heq; apply Qle_refl.
    - left. split; [done|by apply Qlt_le_weak].
    - right. split; [done|by apply Qlt_le_weak]. }
  split; [destruct Hm as [[-> _]|[-> _]]; lia|].
  split.
  - rewrite <- Hx. apply (proj2 (Qmult_le_r _ _ _ Hp)).
    destruct Hm as [[-> Hm]|[-> Hm]].
    + set (g := inject_Z f) in *. clearbody g x. clear -Hq1 Hfq. Lqa.nra.
    + rewrite inject_Z_plus. change (inject_Z 1) with 1.
      set (g := inject_Z f) in *. clearbody g x. clear -Hm.
      assert (E : (g + 1 - (1 # 2)) == g + (1 # 2)) by ring. by rewrite E.
  - rewrite <- Hx. apply (proj2 (Qmult_le_r _ _ _ Hp)).
    destruct Hm as [[-> Hm]|[-> Hm]]; [done|].
    rewrite inject_Z_plus. change (inject_Z 1) with 1.
    set (g := inject_Z f) in *. clearbody g x. clear -Hq2 Hfq. Lqa.nra.
Qed.

Lemma sqrt64_nonpos q : q <= 0 → sqrt64 q = 0.
Proof.
  intros Hq. unfold sqrt64. destruct (Qle_bool q 0) eqn:Hb; [done|].
  apply Qle_bool_iff in Hq. congruence.
Qed.

Lemma pow2_square e : 2 ^ (2 * e) == 2 ^ e * 2 ^ e.
Proof. replace (2 * e)%Z with (e + e)%Z by lia. apply pow2_plus. Qed.

(** The square root is positive, and within [2^-53] of the root in relative
    terms. *)
Lemma sqrt64_bounds q :
  0 < q →
  0 < sqrt64 q ∧
  (sqrt64 q * (1 - 2 ^ (-53))) * (sqrt64 q * (1 - 2 ^ (-53))) <= q ∧
  q <= (sqrt64 q * (1 + 2 ^ (-53))) * (sqrt64 q * (1 + 2 ^ (-53))).
Proof.
  intros Hq.
  destruct (sqrt64_decompose q Hq) as (m & e & -> & _ & [Hm1 Hm2] & Hlo & Hhi).
  pose proof (pow2_pos e) as Hp.
  rewrite pow2_square in Hlo, Hhi.
  assert (Hmq : 2 ^ 52 <= inject_Z m).
  { rewrite <- pow2_Z by lia. by rewrite <- Zle_Qle. }
  assert (Hhalf : (1 # 2) <= inject_Z m * 2 ^ (-53)).
  { assert (E0 : 2 ^ 52 * 2 ^ (-53) == 1 # 2) by reflexivity.
    rewrite <- E0. apply Qmult_le_compat_r; [done|done]. }
  set (g := inject_Z m) in *. set (P := 2 ^ e) in *. set (u := 2 ^ (-53)) in *.
  assert (Hg : 1 <= g).
  { eapply Qle_trans; [|exact Hmq]. done. }
  assert (Hu : 0 < u ∧ u < 1) by done.
  clearbody g P u. clear -Hlo Hhi Hhalf Hp Hg Hu Hq.
  split_and!.
  - Lqa.nra.
  - eapply Qle_trans; [|exact Hlo].
    assert (E : (g - (1 # 2)) * (g - (1 # 2)) * (P * P)
                == ((g - (1 # 2)) * P) * ((g - (1 # 2)) * P)) by ring.
    rewrite E. apply Qsquare_le; Lqa.nra.
  - eapply Qle_trans; [exact Hhi|].
    assert (E : (g + (1 # 2)) * (g + (1 # 2)) * (P * P)
                == ((g + (1 # 2)) * P) * ((g + (1 # 2)) * P)) by ring.
    rewrite E. apply Qsquare_le; Lqa.nra.
Qed.

(** The root of a number up to 1 is at most 1. *)
Lemma sqrt64_le_1 q : q <= 1 → sqrt64 q <= 1.
Proof.
  intros Hq1. destruct (Qlt_le_dec 0 q) as [Hq|Hq].
  2:{ by rewrite sqrt64_nonpos. }
  destruct (sqrt64_decompose q Hq) as (m & e & -> & He & [Hm1 Hm2] & Hlo & _).
  assert (Hnz : ¬ q == 0) by (intros Hz; rewrite Hz in Hq; by apply Qlt_irrefl in Hq).
  destruct (ilog2_spec q Hnz) as [Hil _].
  rewrite (Qabs_pos q) in Hil by (by apply Qlt_le_weak).
  assert (Hil0 : (ilog2 q ≤ 0)%Z).
  { assert (ilog2 q < 1)%Z; [|lia].
    apply (Qpower_lt_compat_l_inv 2); [|done].
    eapply Qle_lt_trans; [exact Hil|]. eapply Qle_lt_trans; [exact Hq1|done]. }
  assert (He52 : (e ≤ -52)%Z).
  { pose proof (Z.mul_div_le (ilog2 q - 104) 2 ltac:(lia)). lia. }
  pose proof (pow2_pos e) as Hp.
  rewrite pow2_square in Hlo.
  (* [(m - 1/2) * 2^e <= 1], and [m] is an integer *)
  assert (Hroot : (inject_Z m - (1 # 2)) * 2 ^ e <= 1).
  { apply Qsquare_le_inv; [done|].
    assert (E : (inject_Z m - (1 # 2)) * 2 ^ e * ((inject_Z m - (1 # 2)) * 2 ^ e)
                == (inject_Z m - (1 # 2)) * (inject_Z m - (1 # 2)) * (2 ^ e * 2 ^ e))
      by ring.
    rewrite E. eapply Qle_trans; [exact Hlo|]. by rewrite Qmult_1_l. }
  assert (Hinv : 2 ^ e * 2 ^ (- e) == 1).
  { rewrite <- pow2_plus. by replace (e + - e)%Z with 0%Z by lia. }
  pose proof (pow2_pos (- e)) as Hp'.
  assert (Hm : inject_Z m - (1 # 2) <= 2 ^ (- e)).
  { apply (Qmult_le_r _ _ _ Hp). rewrite (Qmult_comm (2 ^ (- e))), Hinv. done. }
  assert (HmZ : (m ≤ 2 ^ (- e))%Z).
  { rewrite <- (pow2_Z (- e)) in Hm by lia.
    assert (inject_Z m < inject_Z (2 ^ (- e)) + 1) as Hlt by Lqa.lra.
    change 1 with (inject_Z 1) in Hlt.
    rewrite <- inject_Z_plus, <- Zlt_Qlt in Hlt. lia. }
  rewrite Zle_Qle, pow2_Z in HmZ by lia.
  apply (Qmult_le_r _ _ _ Hp') .
  rewrite <- Qmult_assoc, Hinv, Qmult_1_r, Qmult_1_l. done.
Qed.

(** Three numbers as every binary64 implementation has them: the literal
    [0.1], the quotient [1 / 3] and the square root of 2. *)
Lemma binary64_known_values :
  literal 1 1 == 3602879701896397 # 36028797018963968 ∧
  fdiv 1 3 == 6004799503160661 # 18014398509481984 ∧
  sqrt64 2 == 6369051672525773 # 4503599627370496.
Proof. by vm_compute. Qed.

End Rounding.

Section RecorderInvariant.
Import Stt.

Ltac recorder_auto :=
  simpl; auto; try done; try (intros; congruence); try lia.

Lemma blobSize_app l1 l2 : blobSize (l1 ++ l2) = (blobSize l1 + blobSize l2)%N.
Proof. unfold blobSize. induction l1 as [|x l1 IH]; simpl; lia. Qed.

Lemma sumN_app l1 l2 : sumN (l1 ++ l2) = (sumN l1 + sumN l2)%N.
Proof. unfold sumN. induction l1 as [|x l1 IH]; simpl; lia. Qed.

Lemma ondataavailable_size size i :
  blobSize (_chunks (ondataavailable size i)) = (blobSize (_chunks i) + size)%N.
Proof.
  unfold ondataavailable. destruct (N.ltb_spec 0 size); simpl.
  - rewrite blobSize_app. simpl. lia.
  - lia.
Qed.

Lemma ondataavailable_refs size i :
  _running (ondataavailable size i) = _running i ∧
  _analyser (ondataavailable size i) = _analyser i ∧
  _rec (ondataavailable size i) = _rec i.
Proof. unfold ondataavailable. by destruct (0 <? size)%N. Qed.

Lemma recordOneUtterance_inv cfg now :
  captureInv (recordOneUtterance cfg now startedSpeechOnce idleRecorder).
Proof. constructor; simpl; auto; try done. Qed.

Lemma forceStop_inv c speaking silence rec m log cbs :
  _rec (inst c) = true →
  (blobSize (_chunks (inst c)) + sumN (mr_events m) + mr_gathered m
   = captured c)%N →
  (mr_recording m = false → mr_gathered m = 0%N) →
  (log = [] ∨ log = [CallStart 250]) →
  promise c = Pending → 0 ≤ speaking → 0 ≤ silence →
  (_running (inst c) = true → _rec (inst c) = true ∧ _analyser (inst c) = true) →
  captureInv (forceStop c speaking silence rec m log cbs).
Proof.
  intros Hrec Hb Hidle Hlog Hp Hs1 Hs2 Hrefs.
  unfold forceStop, onRec, logRec. rewrite Hrec.
  constructor; simpl; try done; auto.
  - unfold mr_stop, mr_requestData.
    destruct (mr_recording m) eqn:Hm; simpl; rewrite ?Hm; simpl;
      rewrite ?sumN_app; simpl; [lia|].
    rewrite Hidle in * by done. lia.
  - unfold mr_stop, mr_requestData.
    destruct (mr_recording m) eqn:Hm; simpl; rewrite ?Hm; simpl; auto.
  - intros _. unfold mr_stop, mr_requestData.
    destruct (mr_recording m) eqn:Hm; simpl; rewrite ?Hm; simpl; auto.
  - destruct Hlog as [-> | ->]; auto.
Qed.

Lemma tick_inv cfg energy now c :
  captureInv c → scheduled c = NextFrame → captureInv (tick cfg energy now c).
Proof.
  intros [Hb Hidle Hfin Hrefs Hcalls Hp [Hs1 Hs2]] Hsch.
  rewrite Hsch in Hcalls.
  destruct Hp as [Hp|Hp]; [|congruence].
  unfold tick.
  destruct (_running (inst c)) eqn:Hrun; simpl.
  2:{ constructor; simpl; auto; try done; intros; congruence. }
  destruct (Hrefs eq_refl) as [Hrec Han]. rewrite Han. simpl.
  destruct (recording c) eqn:Hr; simpl.
  - (* recording *)
    set (silence := if loud _ _ then 0 else silenceFrames c + 1).
    assert (0 ≤ silence) by (subst silence; destruct (loud _ _); lia).
    destruct (silence >=? cfg_endFrames cfg);
      [apply forceStop_inv; auto|].
    destruct (overtime cfg (startedAt c) now);
      [apply forceStop_inv; auto|].
    constructor; simpl; auto; try done.
  - (* idle *)
    set (speaking := if loud _ _ then speakingFrames c + 1 else 0).
    assert (0 ≤ speaking) by (subst speaking; destruct (loud _ _); lia).
    destruct (speaking >=? cfg_startFrames cfg).
    + unfold onRec, logRec. rewrite Hrec, Hcalls. simpl.
      assert (Hb' : (blobSize (_chunks (inst c)) + sumN (mr_events (mr_start (mr c)))
                     + mr_gathered (mr_start (mr c)) = captured c)%N).
      { unfold mr_start. destruct (mr_recording (mr c)) eqn:Hm; simpl; [done|].
        rewrite Hidle in Hb by done. lia. }
      assert (Hidle' : mr_recording (mr_start (mr c)) = false →
                       mr_gathered (mr_start (mr c)) = 0%N).
      { unfold mr_start. destruct (mr_recording (mr c)) eqn:Hm; recorder_auto. }
      destruct (overtime cfg (startedAt c) now).
      * apply forceStop_inv; recorder_auto.
      * constructor; recorder_auto.
    + destruct (overtime cfg (startedAt c) now).
      * apply forceStop_inv; recorder_auto.
      * constructor; recorder_auto.
Qed.

Lemma stepCapture_inv cfg e c : captureInv c → captureInv (stepCapture cfg e c).
Proof.
  intros Hinv. pose proof Hinv as [Hb Hidle Hfin Hrefs Hcalls Hp Hs].
  destruct e as [energy now|n| | | | |]; simpl.
  - destruct (scheduled c) eqn:Hsch; [by apply tick_inv|done..].
  - constructor; simpl; unfold mr_audio;
      destruct (mr_recording (mr c)) eqn:Hm; recorder_auto.
  - constructor; simpl; unfold mr_requestData;
      destruct (mr_recording (mr c)) eqn:Hm; simpl; rewrite ?sumN_app;
      recorder_auto.
  - destruct (mr_events (mr c)) as [|size rest] eqn:Hev; [done|].
    destruct (ondataavailable_refs size (inst c)) as (Hr1 & Hr2 & Hr3).
    constructor; simpl; rewrite ?Hr1, ?Hr2, ?Hr3; recorder_auto.
    rewrite ondataavailable_size. simpl in Hb. lia.
  - destruct (scheduled c) eqn:Hsch; try done.
    unfold finalize.
    destruct (_rec (inst c)) eqn:Hrec; constructor; simpl;
      try exact (ci_refs _ Hinv); recorder_auto.
  - constructor; simpl; unfold mr_stop;
      destruct (mr_recording (mr c)) eqn:Hm; simpl; rewrite ?sumN_app;
      recorder_auto.
  - constructor; recorder_auto.
Qed.

Lemma runCapture_inv cfg evs c : captureInv c → captureInv (runCapture cfg evs c).
Proof.
  revert c. induction evs as [|e evs IH]; intros c Hc; [done|].
  simpl. by apply IH, stepCapture_inv.
Qed.

End RecorderInvariant.

Section RecorderFlush.
Import Stt.

Lemma stepCapture_captured cfg e c : (captured c ≤ captured (stepCapture cfg e c))%N.
Proof.
  destruct e as [energy now|n| | | | |]; simpl; try lia.
  - destruct (scheduled c); try lia. unfold tick.
    destruct (negb _ || negb _); simpl; [lia|].
    destruct (negb (recording c)); simpl.
    + destruct (_ >=? cfg_startFrames cfg);
        destruct (overtime cfg (startedAt c) now); simpl; lia.
    + destruct (_ >=? cfg_endFrames cfg); simpl; [lia|].
      destruct (overtime cfg (startedAt c) now); simpl; lia.
  - destruct (mr_recording (mr c)); lia.
  - destruct (mr_events (mr c)); simpl; lia.
  - destruct (scheduled c); try lia. unfold finalize.
    destruct (_rec _); simpl; lia.
Qed.

Lemma runCapture_captured cfg evs c : (captured c ≤ captured (runCapture cfg evs c))%N.
Proof.
  revert c. induction evs as [|e evs IH]; intros c; simpl; [lia|].
  etrans; [apply (stepCapture_captured cfg e)|apply IH].
Qed.

Lemma runCapture_app cfg evs1 evs2 c :
  runCapture cfg (evs1 ++ evs2) c = runCapture cfg evs2 (runCapture cfg evs1 c).
Proof. unfold runCapture. by rewrite fold_left_app. Qed.



(** Dispatching the queued [dataavailable] events, at least as many times as
    there are events, empties the queue and changes nothing else but
    [_chunks]. *)
Lemma dispatch_drains cfg k c :
  (length (mr_events (mr c)) ≤ k)%nat →
  let c' := runCapture cfg (repeat Dispatch k) c in
  mr_events (mr c') = [] ∧ scheduled c' = scheduled c ∧
  _rec (inst c') = _rec (inst c) ∧ promise c' = promise c ∧
  calls c' = calls c ∧ callbacks c' = callbacks c ∧ captured c' = captured c.
Proof.
  revert c. induction k as [|k IH]; intros c Hk.
  { simpl. destruct (mr_events (mr c)); [done|simpl in Hk; lia]. }
  change (runCapture cfg (repeat Dispatch (S k)) c)
    with (runCapture cfg (repeat Dispatch k) (stepCapture cfg Dispatch c)).
  cbn [stepCapture]. destruct (mr_events (mr c)) as [|size rest] eqn:Hev.
  - apply IH. rewrite Hev. simpl. lia.
  - destruct (ondataavailable_refs size (inst c)) as (_ & _ & Hr).
    simpl in Hk.
    destruct (IH (with_inst_mr (ondataavailable size (inst c))
                    (mkRecorder (mr_recording (mr c)) (mr_gathered (mr c)) rest)
                    (captured c) c)) as (H1 & H2 & H3 & H4 & H5 & H6 & H7).
    { simpl. lia. }
    split_and!; try done. by rewrite H3.
Qed.



End RecorderFlush.

Section RecorderStates.
Import Stt.

Lemma frames_snoc l x : frames (l ++ [x]) = frames l ++ [Frame x.1 x.2].
Proof. unfold frames. by rewrite fmap_app. Qed.

Lemma runCapture_snoc cfg evs e c :
  runCapture cfg (evs ++ [e]) c = stepCapture cfg e (runCapture cfg evs c).
Proof. by rewrite runCapture_app. Qed.

Lemma runCapture_frames_startedAt cfg l c :
  startedAt (runCapture cfg l c) = startedAt c.
Proof.
  revert c. induction l as [|e l IH]; intros c; [done|].
  simpl. rewrite IH. clear IH.
  destruct e as [energy now|n| | | | |]; simpl; try done.
  - destruct (scheduled c); try done. unfold tick.
    destruct (negb _ || negb _); [done|].
    destruct (negb (recording c)); simpl.
    + destruct (_ >=? cfg_startFrames cfg);
        by destruct (overtime cfg (startedAt c) now).
    + destruct (_ >=? cfg_endFrames cfg); [done|].
      by destruct (overtime cfg (startedAt c) now).
  - by destruct (mr_events (mr c)).
  - destruct (scheduled c); try done. unfold finalize. simpl.
    by destruct (_rec _).
Qed.

(** A loud frame within the time limit. *)
Lemma tick_loud cfg energy now c :
  polling c → 1 ≤ cfg_endFrames cfg →
  loud (cfg_rmsThreshold cfg) energy = true →
  overtime cfg (startedAt c) now = false →
  let c' := tick cfg energy now c in
  polling c' ∧ callbacks c' = callbacks c ++
      (if recording c then [] else if recording c' then [OnStartRecording] else []) ∧
  ((recording c' = true ∧ silenceFrames c' = 0) ∨
   (recording c' = false ∧ speakingFrames c' = speakingFrames c + 1 ∧
    speakingFrames c' < cfg_startFrames cfg)).
Proof.
  intros (Hsch & Hrun & Han & Hp) Hend Hloud Hover. unfold tick.
  rewrite Hrun, Han, Hloud, Hover. simpl.
  destruct (recording c) eqn:Hr; simpl.
  - destruct (Z.geb_spec 0 (cfg_endFrames cfg)); [lia|].
    rewrite app_nil_r. split_and!; try done. by left.
  - destruct (Z.geb_spec (speakingFrames c + 1) (cfg_startFrames cfg)); simpl.
    + split_and!; try done. by left.
    + rewrite app_nil_r. split_and!; try done. right. split_and!; [done|done|lia].
Qed.

(** A quiet frame of a recording capture, short of [endFrames] and within
    the time limit. *)
Lemma tick_quiet cfg energy now c :
  polling c → recording c = true →
  loud (cfg_rmsThreshold cfg) energy = false →
  silenceFrames c + 1 < cfg_endFrames cfg →
  overtime cfg (startedAt c) now = false →
  let c' := tick cfg energy now c in
  polling c' ∧ recording c' = true ∧ silenceFrames c' = silenceFrames c + 1 ∧
  callbacks c' = callbacks c ∧ calls c' = calls c.
Proof.
  intros (Hsch & Hrun & Han & Hp) Hr Hloud Hend Hover. unfold tick.
  rewrite Hrun, Han, Hr, Hloud, Hover. simpl.
  destruct (Z.geb_spec (silenceFrames c + 1) (cfg_endFrames cfg)); [lia|].
  done.
Qed.

Lemma loud_frames cfg l c :
  polling c → 1 ≤ cfg_endFrames cfg → 0 ≤ speakingFrames c →
  Forall (λ x, loud (cfg_rmsThreshold cfg) x.1 = true) l →
  Forall (λ x, overtime cfg (startedAt c) x.2 = false) l →
  let c' := runCapture cfg (frames l) c in
  polling c' ∧
  ((recording c' = true ∧ (silenceFrames c' = 0 ∨ l = [])) ∨
   (recording c' = false ∧ Z.of_nat (length l) ≤ speakingFrames c' ∧
    (l = [] ∨ speakingFrames c' < cfg_startFrames cfg))).
Proof.
  intros Hpoll Hend Hs. induction l as [|x l IH] using rev_ind; intros Hl Ho.
  { simpl. split; [done|]. destruct (recording c); [left|right]; auto. }
  apply Forall_app in Hl as [Hl Hx]. apply Forall_app in Ho as [Ho Hxo].
  rewrite Forall_singleton in Hx. rewrite Forall_singleton in Hxo.
  destruct (IH Hl Ho) as (Hpoll' & Hcase). clear IH.
  rewrite frames_snoc, runCapture_snoc. simpl.
  set (c1 := runCapture cfg (frames l) c) in *.
  destruct Hpoll' as (Hsch & Hrest). rewrite Hsch.
  assert (Hst : startedAt c1 = startedAt c) by apply runCapture_frames_startedAt.
  rewrite <- Hst in Hxo.
  destruct (tick_loud cfg x.1 x.2 c1 (conj Hsch Hrest) Hend Hx Hxo)
    as (Hp2 & _ & Hcase2).
  split; [done|].
  destruct Hcase2 as [[Hr Hsil]|(Hr & Hsp & Hlt)].
  - left. auto.
  - right. split_and!; [done| |by right].
    rewrite length_app. simpl.
    destruct Hcase as [[Hr1 _]|(_ & Hlen & _)]; [|lia].
    exfalso. revert Hr. unfold tick.
    destruct Hrest as (Hrun & Han & _). rewrite Hrun, Han, Hr1. simpl.
    destruct (_ >=? cfg_endFrames cfg); [done|].
    by destruct (overtime cfg (startedAt c1) x.2).
Qed.

Lemma quiet_frames cfg l c :
  polling c → recording c = true → 0 ≤ silenceFrames c →
  Forall (λ x, loud (cfg_rmsThreshold cfg) x.1 = false) l →
  Forall (λ x, overtime cfg (startedAt c) x.2 = false) l →
  silenceFrames c + Z.of_nat (length l) < cfg_endFrames cfg →
  let c' := runCapture cfg (frames l) c in
  polling c' ∧ recording c' = true ∧
  silenceFrames c' = silenceFrames c + Z.of_nat (length l) ∧
  callbacks c' = callbacks c ∧ calls c' = calls c.
Proof.
  revert c. induction l as [|x l IH]; intros c Hpoll Hr Hs Hl Ho Hlen.
  { simpl. split_and!; auto. lia. }
  apply Forall_cons in Hl as [Hx Hl]. apply Forall_cons in Ho as [Hxo Ho].
  simpl in Hlen. simpl. destruct Hpoll as (Hsch & Hrest). rewrite Hsch.
  destruct (tick_quiet cfg x.1 x.2 c (conj Hsch Hrest) Hr Hx) as
    (Hp1 & Hr1 & Hs1 & Hcb1 & Hcl1); [lia|done|].
  set (c1 := tick cfg x.1 x.2 c) in *.
  assert (Hst : startedAt c1 = startedAt c).
  { pose proof (runCapture_frames_startedAt cfg [Frame x.1 x.2] c) as H.
    simpl in H. by rewrite Hsch in H. }
  rewrite <- Hst in Ho.
  destruct (IH c1 Hp1 Hr1) as (Hp2 & Hr2 & Hs2 & Hcb2 & Hcl2); [lia|done|done|lia|].
  split_and!; [done|done|lia|congruence|congruence].
Qed.

End RecorderStates.

Section RecorderNoPrematureStop.
Import Stt.

(** C4. A capture that is still polling, with no [stop()] called, then sees
    [startFrames] consecutive readings above the threshold followed by fewer
    than [endFrames] readings at or below it, all within [maxUtteranceMs] of
    the start: afterwards it is recording, the next tick is scheduled, the
    promise is pending, and the only call made on the recorder is
    [start(250)]. *)
Theorem recorder_stays_recording
    (cfg : Config) (t0 : Q) (pre : list Ev) (run quiet : list (Q * Q)) :
  let c := runCapture cfg pre
             (recordOneUtterance cfg t0 startedSpeechOnce idleRecorder) in
  scheduled c = NextFrame → _running (inst c) = true →
  1 ≤ cfg_startFrames cfg →
  Z.of_nat (length run) = cfg_startFrames cfg →
  Forall (λ x, loud (cfg_rmsThreshold cfg) x.1 = true) run →
  Forall (λ x, loud (cfg_rmsThreshold cfg) x.1 = false) quiet →
  Z.of_nat (length quiet) < cfg_endFrames cfg →
  Forall (λ x, overtime cfg t0 x.2 = false) (run ++ quiet) →
  let c' := runCapture cfg (frames (run ++ quiet)) c in
  recording c' = true ∧ scheduled c' = NextFrame ∧ promise c' = Pending ∧
  silenceFrames c' < cfg_endFrames cfg ∧ calls c' = [CallStart 250].
Proof.
  intros c Hsch Hrun Hstart Hlen Hloud Hquiet Hqlen Hover c'.
  pose proof (runCapture_inv cfg pre _ (recordOneUtterance_inv cfg t0)) as Hinv.
  fold c in Hinv.
  assert (Hpoll : polling c).
  { destruct Hinv as [_ _ _ Hrefs _ Hp _].
    destruct (Hrefs Hrun) as [_ Han].
    destruct Hp as [Hp|Hp]; [done|congruence]. }
  assert (Hst : startedAt c = t0).
  { unfold c. rewrite runCapture_frames_startedAt. done. }
  apply Forall_app in Hover as [Hover1 Hover2].
  assert (Hend : 1 ≤ cfg_endFrames cfg) by lia.
  destruct (loud_frames cfg run c Hpoll Hend) as (Hpoll1 & Hcase).
  { by destruct Hinv as [_ _ _ _ _ _ [? _]]. }
  { done. }
  { by rewrite Hst. }
  set (c1 := runCapture cfg (frames run) c) in *.
  assert (Hrec1 : recording c1 = true ∧ silenceFrames c1 = 0).
  { destruct Hcase as [[Hr [Hs| ->]]|(_ & Hle & [->|Hlt])];
      try (simpl in *; lia). done. }
  destruct Hrec1 as [Hr1 Hs1].
  assert (Hst1 : startedAt c1 = t0).
  { unfold c1. by rewrite runCapture_frames_startedAt. }
  destruct (quiet_frames cfg quiet c1 Hpoll1 Hr1) as (Hpoll2 & Hr2 & Hs2 & _ & _).
  { lia. }
  { done. }
  { by rewrite Hst1. }
  { lia. }
  assert (Hc' : c' = runCapture cfg (frames quiet) c1).
  { unfold c', c1, frames. by rewrite fmap_app, runCapture_app. }
  rewrite Hc'.
  destruct Hpoll2 as (Hsch2 & _ & _ & Hp2).
  split_and!; [done|done|done|lia|].
  assert (Hinv2 : captureInv (runCapture cfg (frames quiet) c1)).
  { apply runCapture_inv. by apply runCapture_inv. }
  pose proof (ci_calls _ Hinv2) as Hcalls.
  by rewrite Hsch2, Hr2 in Hcalls.
Qed.

(** Four quiet frames, four loud ones, fifty-nine quiet ones. *)
Lemma recorder_stays_recording_example :
  let cfg := resolveOpts appOpts in
  let pre := frames ((λ e, (e, 10%Q)) <$> repeat 0%Q 4) in
  let run := (λ e, (e, 20%Q)) <$> [0.05%Q; 0.06%Q; 0.07%Q; 0.08%Q] in
  let quiet := (λ e, (e, 30%Q)) <$> repeat 0%Q 59 in
  let c' := runCapture cfg (pre ++ frames (run ++ quiet))
              (recordOneUtterance cfg 0 startedSpeechOnce idleRecorder) in
  recording c' = true ∧ scheduled c' = NextFrame ∧ promise c' = Pending.
Proof.
  intros cfg pre run quiet c'.
  destruct (recorder_stays_recording cfg 0 pre run quiet)
    as (Hr & Hs & Hp & _ & _).
  - reflexivity.
  - reflexivity.
  - vm_compute. discriminate.
  - reflexivity.
  - repeat (apply Forall_cons; split; [reflexivity|]). apply Forall_nil. done.
  - apply Forall_forall. intros x Hx. unfold quiet in Hx.
    apply list_elem_of_fmap in Hx as (e & -> & He).
    apply list_elem_of_In, repeat_spec in He. by subst e.
  - vm_compute. reflexivity.
  - apply Forall_forall. intros x Hx. unfold run, quiet in Hx.
    apply elem_of_app in Hx as [Hx|Hx];
      apply list_elem_of_fmap in Hx as (e & -> & He); reflexivity.
  - unfold c'. rewrite runCapture_app. split; [exact Hr|split; [exact Hs|exact Hp]].
Defined.

End RecorderNoPrematureStop.

Section RecorderNoSpeech.
Import Stt.

Lemma forallb_take_false (f : Q → bool) n k (l : list Q) :
  forallb f (take n l) = false → (n ≤ k)%nat → forallb f (take k l) = false.
Proof.
  revert n k. induction l as [|x l IH]; intros n k Hn Hk.
  { by destruct n. }
  destruct n as [|n]; [done|]. destruct k as [|k]; [lia|].
  simpl in *. apply andb_false_iff in Hn as [Hx|Hn]; apply andb_false_iff.
  - by left.
  - right. apply (IH n); [done|lia].
Qed.

Lemma hasLoudRun_noRunFrom n thr es :
  hasLoudRun n thr es = false → noRunFrom n thr 0 es.
Proof.
  intros Hno. split; [done|]. intros k Hk Hlen.
  assert (Hpre : loudPrefix n thr es = false).
  { destruct es; simpl in Hno; by apply orb_false_iff in Hno as [? _]. }
  unfold loudPrefix in Hpre. apply andb_false_iff in Hpre as [Hpre|Hpre].
  - apply Nat.leb_gt in Hpre. lia.
  - apply (forallb_take_false _ n); [done|lia].
Qed.

Lemma noRunFrom_positive n thr s es : noRunFrom n thr s es → (0 < n)%nat.
Proof.
  intros [Hno _]. destruct n; [|lia].
  destruct es; simpl in Hno; done.
Qed.

Lemma noRunFrom_loud n thr s e es :
  noRunFrom n thr s (e :: es) → loud thr e = true →
  (s + 1 < n)%nat ∧ noRunFrom n thr (s + 1) es.
Proof.
  intros [Hno Hk] He. split.
  - destruct (decide (s + 1 < n)%nat); [done|].
    specialize (Hk 1%nat). simpl in Hk. rewrite He in Hk.
    assert (true = false) by (apply Hk; lia). done.
  - split.
    + simpl in Hno. by apply orb_false_iff in Hno as [_ ?].
    + intros k Hn Hlen. specialize (Hk (S k)). simpl in Hk. rewrite He in Hk.
      apply Hk; lia.
Qed.

Lemma noRunFrom_quiet n thr s e es :
  noRunFrom n thr s (e :: es) → noRunFrom n thr 0 es.
Proof.
  intros [Hno _]. apply hasLoudRun_noRunFrom.
  simpl in Hno. by apply orb_false_iff in Hno as [_ ?].
Qed.

Lemma hasLoudRun_app_l n thr l1 l2 :
  hasLoudRun n thr (l1 ++ l2) = false → hasLoudRun n thr l1 = false.
Proof.
  induction l1 as [|x l1 IH]; intros H.
  - destruct n; [by destruct l2|done].
  - simpl in H. apply orb_false_iff in H as [Hp Hr].
    simpl. apply orb_false_iff. split; [|by apply IH].
    unfold loudPrefix in *. apply andb_false_iff.
    apply andb_false_iff in Hp as [Hp|Hp].
    + left. apply Nat.leb_gt. apply Nat.leb_gt in Hp.
      simpl in *. rewrite length_app in Hp. lia.
    + destruct (decide (n ≤ length (x :: l1))%nat) as [Hle|Hgt].
      * right. change (x :: l1 ++ l2) with ((x :: l1) ++ l2) in Hp.
        by rewrite take_app_le in Hp.
      * left. apply Nat.leb_gt. lia.
Qed.

(** One tick of an idle capture that does not complete a loud stretch. *)
Lemma tick_idle cfg energy now c s :
  polling c → recording c = false → speakingFrames c = Z.of_nat s →
  (loud (cfg_rmsThreshold cfg) energy = true →
   Z.of_nat s + 1 < cfg_startFrames cfg) →
  0 < cfg_startFrames cfg →
  let c' := tick cfg energy now c in
  recording c' = false ∧ promise c' = Pending ∧
  inst c' = inst c ∧ captured c' = captured c ∧ startedAt c' = startedAt c ∧
  speakingFrames c' =
    (if loud (cfg_rmsThreshold cfg) energy then Z.of_nat s + 1 else 0) ∧
  (if overtime cfg (startedAt c) now
   then scheduled c' = FinalizeTimer ∧
        calls c' = logRec (inst c) CallStop
                     (logRec (inst c) CallRequestData (calls c)) ∧
        mr c' = onRec (inst c) mr_stop (onRec (inst c) mr_requestData (mr c))
   else scheduled c' = NextFrame ∧ calls c' = calls c ∧ mr c' = mr c).
Proof.
  intros (Hsch & Hrun & Han & Hp) Hr Hs Hloud Hpos. unfold tick.
  rewrite Hrun, Han, Hr, Hs. simpl.
  set (speaking := if loud _ _ then _ else 0).
  assert (Hlt : speaking < cfg_startFrames cfg).
  { subst speaking. destruct (loud _ _); [by apply Hloud|lia]. }
  destruct (Z.geb_spec speaking (cfg_startFrames cfg)); [lia|].
  destruct (overtime cfg (startedAt c) now); simpl; split_and!; done.
Qed.

Lemma idle_frames cfg l rest c s :
  polling c → recording c = false → speakingFrames c = Z.of_nat s →
  noRunFrom (Z.to_nat (cfg_startFrames cfg)) (cfg_rmsThreshold cfg) s
            (l.*1 ++ rest) →
  Forall (λ x, overtime cfg (startedAt c) x.2 = false) l →
  let c' := runCapture cfg (frames l) c in
  polling c' ∧ recording c' = false ∧
  inst c' = inst c ∧ mr c' = mr c ∧ calls c' = calls c ∧
  captured c' = captured c ∧ startedAt c' = startedAt c ∧
  ∃ s', speakingFrames c' = Z.of_nat s' ∧
        noRunFrom (Z.to_nat (cfg_startFrames cfg)) (cfg_rmsThreshold cfg) s' rest.
Proof.
  revert c s. induction l as [|x l IH]; intros c s Hpoll Hr Hs Hno Ho.
  { simpl. split_and!; try done. by exists s. }
  apply Forall_cons in Ho as [Hxo Ho]. simpl in Hno.
  pose proof (noRunFrom_positive _ _ _ _ Hno) as Hpos.
  simpl. pose proof Hpoll as (Hsch & Hrun & Han & Hp). rewrite Hsch.
  destruct (tick_idle cfg x.1 x.2 c s Hpoll Hr Hs)
    as (Hr1 & Hp1 & Hi1 & Hc1 & Hst1 & Hs1 & Hrest); [|lia|].
  { intros Hl. apply noRunFrom_loud in Hno as [Hlt _]; [lia|done]. }
  rewrite Hxo in Hrest. destruct Hrest as (Hsch1 & Hcalls1 & Hmr1).
  set (c1 := tick cfg x.1 x.2 c) in *.
  assert (Hpoll1 : polling c1) by (unfold polling; rewrite Hi1; done).
  destruct (loud (cfg_rmsThreshold cfg) x.1) eqn:Hl.
  - apply noRunFrom_loud in Hno as [_ Hno]; [|done].
    destruct (IH c1 (s + 1)%nat Hpoll1 Hr1) as
      (? & ? & ? & ? & ? & ? & ? & ?); [lia|done|by rewrite Hst1|].
    split_and!; try congruence.
  - apply noRunFrom_quiet in Hno.
    destruct (IH c1 0%nat Hpoll1 Hr1) as
      (? & ? & ? & ? & ? & ? & ? & ?); [lia|done|by rewrite Hst1|].
    split_and!; try congruence.
Qed.

End RecorderNoSpeech.

Section RecorderTimeout.
Import Stt.

(** The test of the ceiling against the time that has really passed: a
    tick no later than a binary64 [maxUtteranceMs] is not over time, one a
    millisecond or more later is. *)
Lemma overtime_within cfg t0 now :
  Binary64.representable (cfg_maxUtteranceMs cfg) →
  (now - t0 <= cfg_maxUtteranceMs cfg)%Q → overtime cfg t0 now = false.
Proof.
  intros Hrep Hle. unfold overtime, Binary64.fsub.
  apply negb_false_iff, Qle_bool_iff. by apply round64_le.
Qed.

Lemma overtime_past cfg t0 now :
  (Qabs (cfg_maxUtteranceMs cfg) < 2 ^ 53)%Q →
  (cfg_maxUtteranceMs cfg + 1 <= now - t0)%Q → overtime cfg t0 now = true.
Proof.
  intros Hmax Hle. unfold overtime, Binary64.fsub.
  apply negb_true_iff. apply not_true_is_false. intros Hb.
  apply Qle_bool_iff in Hb.
  set (max := cfg_maxUtteranceMs cfg) in *.
  apply Qabs_Qlt_condition in Hmax as [Hlo Hhi].
  pose proof (Qfloor_le max) as Hf1. pose proof (Qlt_floor max) as Hf2.
  assert (Hy : Binary64.representable (inject_Z (Qfloor max + 1))).
  { exists (Qfloor max + 1)%Z, 0%Z. split_and!; [|done|by rewrite Qmult_1_r].
    assert (Qfloor max < 2 ^ 53)%Z.
    { rewrite Zlt_Qlt, pow2_Z by lia. eapply Qle_lt_trans; eauto. }
    assert (- 2 ^ 53 - 1 < Qfloor max)%Z.
    { assert (inject_Z (- 2 ^ 53) < inject_Z (Qfloor max + 1))%Q as Hlt.
      { rewrite inject_Z_opp, pow2_Z by lia. eapply Qlt_trans; eauto. }
      rewrite <- Zlt_Qlt in Hlt. lia. }
    lia. }
  assert (Hge : (inject_Z (Qfloor max + 1) <= now - t0)%Q).
  { rewrite inject_Z_plus. change (inject_Z 1) with 1%Q. Lqa.lra. }
  pose proof (round64_ge _ _ Hy Hge) as Hr. Lqa.lra.
Qed.

(** The subtraction rounds: 60000.002 ms after a call at 0.002 ms, with more
    than [maxUtteranceMs] = 60000 ms passed, the difference computed is
    60000 and the tick is not over time. *)
Lemma overtime_rounded_away :
  let t0 := Binary64.literal 2 3 in
  let now := Binary64.literal 60000002 3 in
  (60000 < now - t0)%Q ∧ (Binary64.fsub now t0 == 60000)%Q ∧
  overtime (resolveOpts appOpts) t0 now = false.
Proof. by vm_compute. Qed.

(** C6, as stated, fails: with silence only, the promise is still pending at
    the tick 60000 ms after the call, when [maxUtteranceMs] has elapsed; it
    resolves, to [null], only after a later tick and the 150 ms timer. *)
Lemma no_speech_still_pending_at_max :
  let cfg := resolveOpts appOpts in
  let silence := [(0%Q, 1000%Q); (0%Q, 30000%Q); (0%Q, 60000%Q)] in
  hasLoudRun (Z.to_nat (cfg_startFrames cfg)) (cfg_rmsThreshold cfg) silence.*1
    = false ∧
  ¬ (∃ blob, promise (runCapture cfg (frames silence) appCapture) = Resolved blob) ∧
  promise (runCapture cfg (frames (silence ++ [(0%Q, 60001%Q)]) ++ [Timer])
                      appCapture) = Resolved None.
Proof.
  split_and!; [vm_compute; reflexivity| |vm_compute; reflexivity].
  intros [blob Hb]. vm_compute in Hb. discriminate.
Qed.

(** C6, amended. With no stretch of [startFrames] consecutive readings above
    the threshold and no [stop()]: through every tick at which the elapsed
    time the code computes, the binary64 difference of the two readings of
    the clock, is at most [maxUtteranceMs], the capture is idle and the
    promise pending; the first tick at which that difference is more makes
    the forced stop, and when its timer fires the promise resolves to
    [null]. Against the time that has really passed: with [maxUtteranceMs] a
    binary64 number, no tick up to [maxUtteranceMs] after the call is over
    time, and with [maxUtteranceMs] below [2^53] every tick a millisecond or
    more past it is. *)
Theorem no_speech_resolves_empty_past_max (cfg : Config) (t0 : Q) :
  let c0 := recordOneUtterance cfg t0 startedSpeechOnce idleRecorder in
  let noRun (es : list (Q * Q)) :=
    hasLoudRun (Z.to_nat (cfg_startFrames cfg)) (cfg_rmsThreshold cfg) es.*1
    = false in
  (∀ readings,
     noRun readings →
     Forall (λ x, overtime cfg t0 x.2 = false) readings →
     let c := runCapture cfg (frames readings) c0 in
     promise c = Pending ∧ scheduled c = NextFrame ∧ recording c = false ∧
     calls c = []) ∧
  (∀ readings last,
     noRun (readings ++ [last]) →
     Forall (λ x, overtime cfg t0 x.2 = false) readings →
     overtime cfg t0 last.2 = true →
     let c := runCapture cfg (frames (readings ++ [last])) c0 in
     promise c = Pending ∧ scheduled c = FinalizeTimer ∧ recording c = false ∧
     calls c = [CallRequestData; CallStop] ∧
     promise (stepCapture cfg Timer c) = Resolved None) ∧
  (Binary64.representable (cfg_maxUtteranceMs cfg) →
   ∀ now, (now - t0 <= cfg_maxUtteranceMs cfg)%Q → overtime cfg t0 now = false) ∧
  ((Qabs (cfg_maxUtteranceMs cfg) < 2 ^ 53)%Q →
   ∀ now, (cfg_maxUtteranceMs cfg + 1 <= now - t0)%Q →
          overtime cfg t0 now = true).
Proof.
  intros c0 noRun.
  assert (Hpoll0 : polling c0) by done.
  split_and!.
  - intros readings Hno Hover c.
    destruct (idle_frames cfg readings [] c0 0%nat Hpoll0 eq_refl eq_refl)
      as ((Hsch & _ & _ & Hp) & Hr & _ & _ & Hcalls & _); [|done|done].
    rewrite app_nil_r. by apply hasLoudRun_noRunFrom.
  - intros readings last Hno Hover Hlast c.
    unfold noRun in Hno. rewrite fmap_app in Hno. simpl in Hno.
    destruct (idle_frames cfg readings [last.1] c0 0%nat Hpoll0 eq_refl eq_refl)
      as (Hpoll1 & Hr1 & Hi1 & Hmr1 & Hcalls1 & _ & Hst1 & s' & Hs' & Hno');
      [by apply hasLoudRun_noRunFrom|done|].
    unfold c. rewrite frames_snoc, runCapture_snoc.
    set (c1 := runCapture cfg (frames readings) c0) in *.
    simpl. pose proof Hpoll1 as (Hsch1 & _). rewrite Hsch1.
    pose proof (noRunFrom_positive _ _ _ _ Hno') as Hpos.
    destruct (tick_idle cfg last.1 last.2 c1 s' Hpoll1 Hr1 Hs')
      as (Hr2 & Hp2 & Hi2 & _ & _ & _ & Hrest); [|lia|].
    { intros Hl. apply noRunFrom_loud in Hno' as [Hlt _]; [lia|done]. }
    rewrite Hst1 in Hrest. simpl in Hrest. rewrite Hlast in Hrest.
    destruct Hrest as (Hsch2 & Hcalls2 & Hmr2).
    rewrite Hi1, Hcalls1 in Hcalls2. rewrite Hi1, Hmr1 in Hmr2.
    simpl in Hcalls2, Hmr2.
    split_and!; try done.
    rewrite Hsch2. unfold finalize. rewrite Hi2, Hi1. done.
  - intros Hrep now. by apply overtime_within.
  - intros Hmax now. by apply overtime_past.
Qed.

(** A minute of silence with the options of [App.tsx]. *)
Lemma no_speech_resolves_empty_after_a_minute :
  let cfg := resolveOpts appOpts in
  let silence := [(0%Q, 1000%Q); (0%Q, 30000%Q); (0%Q, 60000%Q)] in
  promise (runCapture cfg (frames silence) appCapture) = Pending ∧
  promise (stepCapture cfg Timer
             (runCapture cfg (frames (silence ++ [(0%Q, 60001%Q)])) appCapture))
    = Resolved None.
Proof.
  intros cfg silence.
  destruct (no_speech_resolves_empty_past_max cfg 0) as (Hidle & Hstop & _).
  split.
  - destruct (Hidle silence) as (Hp & _);
      [vm_compute; reflexivity| |exact Hp].
    repeat (apply Forall_cons; split; [vm_compute; reflexivity|]).
    apply Forall_nil. done.
  - destruct (Hstop silence (0%Q, 60001%Q)) as (_ & _ & _ & _ & Hp);
      [vm_compute; reflexivity| |vm_compute; reflexivity|exact Hp].
    repeat (apply Forall_cons; split; [vm_compute; reflexivity|]).
    apply Forall_nil. done.
Defined.

(** [recordOneUtterance] on an instance that was never started. *)
Lemma recordOneUtterance_before_start cfg now m :
  promise (recordOneUtterance cfg now newSpeechOnce m) = Resolved None.
Proof. reflexivity. Qed.

(** [stop()] while the capture is polling: the next tick resolves [null]. *)
Lemma stop_while_polling_resolves_null cfg c energy now :
  scheduled c = NextFrame →
  promise (stepCapture cfg (Frame energy now) (stepCapture cfg StopCalled c))
    = Resolved None.
Proof. intros Hsch. simpl. rewrite Hsch. reflexivity. Qed.

Lemma stepCapture_nothing cfg e c :
  scheduled c = Nothing →
  scheduled (stepCapture cfg e c) = Nothing ∧
  promise (stepCapture cfg e c) = promise c.
Proof.
  intros Hs. destruct e; simpl; rewrite ?Hs; try done.
  by destruct (mr_events (mr c)).
Qed.

Lemma runCapture_nothing cfg evs c :
  scheduled c = Nothing → promise (runCapture cfg evs c) = promise c.
Proof.
  revert c. induction evs as [|e evs IH]; intros c Hs; [done|].
  simpl. destruct (stepCapture_nothing cfg e c Hs) as [Hs' Hp'].
  by rewrite IH.
Qed.

(** The timer's callback with [_rec] null settles nothing. *)
Lemma finalize_without_rec c :
  _rec (inst c) = false →
  promise (finalize c) = promise c ∧ scheduled (finalize c) = Nothing.
Proof. intros H. unfold finalize. by rewrite H. Qed.

(** C7 at a failing input: a minute passes without speech, the tick after it
    makes the forced stop, and [stop()] runs to its end before the 150 ms
    timer fires. The timer's callback reads [this._rec!.mimeType] with
    [_rec] null and throws; the promise is pending, nothing is scheduled,
    and whatever happens later it stays pending. *)
Theorem stop_before_finalize_never_resolves :
  let cfg := resolveOpts appOpts in
  let c := runCapture cfg [Frame 0 60001; StopCalled; StopDone; Timer] appCapture in
  scheduled (runCapture cfg [Frame 0 60001] appCapture) = FinalizeTimer ∧
  promise c = Pending ∧ scheduled c = Nothing ∧
  ∀ evs, promise (runCapture cfg evs c) = Pending.
Proof.
  intros cfg c. split_and!; [reflexivity..|].
  intros evs. by rewrite runCapture_nothing.
Qed.

End RecorderTimeout.

Section TtsClamp.
Import Server.

(** C10. Whenever [POST /api/tts] calls the provider, the body's [text] was
    a string with something left after trimming, and the text passed on has
    at most 4800 code units: the request's text itself when that has at most
    4800, otherwise its first 4799 code units followed by one ellipsis.
    With the token set, every such request does reach the provider. *)
Theorem tts_text_at_most_4800 (tokenSet : bool) (body : BodyText) :
  (∀ sent, ttsRoute tokenSet body = Synthesize sent →
     ∃ text, body = Str text ∧ trim text ≠ [] ∧
       (length sent ≤ 4800)%nat ∧
       ((length text ≤ 4800)%nat → sent = text) ∧
       ((4800 < length text)%nat →
          sent = take 4799 text ++ [ellipsis] ∧ length sent = 4800%nat)) ∧
  (∀ text, tokenSet = true → body = Str text → trim text ≠ [] →
     ttsRoute tokenSet body = Synthesize (safeText text)).
Proof.
  split.
  - intros sent. unfold ttsRoute.
    destruct tokenSet; simpl; [|done].
    destruct body as [| |text]; try done.
    destruct (trim text) as [|c rest] eqn:Htrim; [done|].
    intros [= <-]. exists text. split; [done|]. split; [by rewrite Htrim|].
    unfold safeText, MAX.
    destruct (Nat.ltb_spec 4800 (length text)) as [Hlong|Hshort].
    + change (4800 - 1)%nat with 4799%nat.
      assert (Hlen : length (take 4799 text ++ [ellipsis]) = 4800%nat).
      { rewrite length_app, length_take. cbn [length]. lia. }
      split_and!; [lia|lia|done].
    + split_and!; [lia|done|lia].
  - intros text -> -> Htrim. unfold ttsRoute. simpl.
    by destruct (trim text).
Qed.

(** A text of 4801 letters. *)
Lemma tts_text_4801_letters :
  let text := repeat 97%N 4801 in
  ttsRoute true (Str text) = Synthesize (repeat 97%N 4799 ++ [ellipsis]) ∧
  length (repeat 97%N 4799 ++ [ellipsis]) = 4800%nat.
Proof.
  intros text.
  destruct (tts_text_at_most_4800 true (Str text)) as [Hsent Hgoes].
  assert (Hroute : ttsRoute true (Str text) = Synthesize (safeText text)).
  { apply Hgoes; [reflexivity..|]. vm_compute. discriminate. }
  destruct (Hsent _ Hroute) as (text' & [= <-] & _ & _ & _ & Hlong).
  destruct Hlong as [Hs Hl].
  { vm_compute. lia. }
  rewrite Hroute, Hs. split.
  - vm_compute. reflexivity.
  - vm_compute. reflexivity.
Defined.

End TtsClamp.

Section RootMeanSquare.
Import Binary64 Stt.
Local Open Scope Q_scope.

Lemma representable_Z z e :
  (Z.abs z ≤ 2 ^ 53)%Z → (-1074 ≤ e)%Z → representable (inject_Z z * 2 ^ e).
Proof. intros Hz He. by exists z, e. Qed.

Lemma round64_exact q z e :
  (Z.abs z ≤ 2 ^ 53)%Z → (-1074 ≤ e)%Z → q == inject_Z z * 2 ^ e →
  round64 q == inject_Z z * 2 ^ e.
Proof.
  intros Hz He Hq. rewrite Hq. apply round64_representable.
  by apply representable_Z.
Qed.

Lemma sample_square_bounds b :
  (0 ≤ b ≤ 255)%Z → (0 ≤ (b - 128) * (b - 128) ≤ 16384)%Z.
Proof.
  intros Hb. split; [apply Z.square_nonneg|].
  assert (H : (0 ≤ (b - 128 + 128) * (128 - (b - 128)))%Z)
    by (apply Z.mul_nonneg_nonneg; lia).
  replace ((b - 128 + 128) * (128 - (b - 128)))%Z
    with (16384 - (b - 128) * (b - 128))%Z in H by ring.
  lia.
Qed.

Lemma sumSquares_bounds buf :
  Forall (λ b, (0 ≤ b ≤ 255)%Z) buf →
  (0 ≤ sumSquares buf ≤ 16384 * Z.of_nat (length buf))%Z.
Proof.
  induction 1 as [|b buf Hb _ IH]; [done|].
  unfold sumSquares in *. cbn [fmap list_fmap fold_right length].
  rewrite Nat2Z.inj_succ.
  pose proof (sample_square_bounds b Hb). lia.
Qed.

(** One pass of the loop is exact. *)
Lemma rms_step_exact (acc : Q) (S b : Z) :
  (0 ≤ b ≤ 255)%Z → (0 ≤ S)%Z → (S + 16384 ≤ 2 ^ 53)%Z →
  acc == inject_Z S * 2 ^ (-14) →
  fadd acc (fmul (fdiv (fsub (inject_Z b) 128) 128)
                 (fdiv (fsub (inject_Z b) 128) 128))
  == inject_Z (S + (b - 128) * (b - 128)) * 2 ^ (-14).
Proof.
  intros Hb HS Hmax Hacc.
  assert (Hd : (Z.abs (b - 128) ≤ 2 ^ 53)%Z) by lia.
  assert (Hv : fdiv (fsub (inject_Z b) 128) 128 == inject_Z (b - 128) * 2 ^ (-7)).
  { unfold fdiv, fsub.
    rewrite (round64_exact (inject_Z b - 128) (b - 128) 0 Hd ltac:(lia)).
    2:{ unfold Zminus. rewrite inject_Z_plus, inject_Z_opp. by rewrite Qmult_1_r. }
    apply round64_exact; [done|lia|]. by rewrite Qmult_1_r. }
  pose proof (sample_square_bounds b Hb) as Hsq0.
  assert (Hsq : (Z.abs ((b - 128) * (b - 128)) ≤ 2 ^ 53)%Z) by lia.
  assert (Hvv : fmul (fdiv (fsub (inject_Z b) 128) 128)
                     (fdiv (fsub (inject_Z b) 128) 128)
                == inject_Z ((b - 128) * (b - 128)) * 2 ^ (-14)).
  { unfold fmul. rewrite Hv. apply round64_exact; [done|lia|].
    rewrite inject_Z_mult. change (2 ^ (-14)) with (2 ^ (-7) * 2 ^ (-7)). ring. }
  unfold fadd. rewrite Hvv, Hacc. apply round64_exact; [lia|lia|].
  rewrite inject_Z_plus. ring.
Qed.

Lemma rms_loop_exact (buf : list Z) (acc : Q) (S : Z) :
  Forall (λ b, (0 ≤ b ≤ 255)%Z) buf → (0 ≤ S)%Z →
  (S + 16384 * Z.of_nat (length buf) ≤ 2 ^ 53)%Z →
  acc == inject_Z S * 2 ^ (-14) →
  fold_left (λ (sum : Q) (b : Z),
               let v := fdiv (fsub (inject_Z b) 128) 128 in
               fadd sum (fmul v v)) buf acc
  == inject_Z (S + sumSquares buf) * 2 ^ (-14).
Proof.
  intros Hbuf. revert acc S.
  induction Hbuf as [|b buf Hb _ IH]; intros acc S HS Hmax Hacc.
  { cbn. by rewrite Z.add_0_r. }
  cbn [fold_left length] in *.
  unfold sumSquares. cbn [fmap list_fmap fold_right]. fold (sumSquares buf).
  pose proof (sample_square_bounds b Hb) as Hsq0.
  rewrite Nat2Z.inj_succ in Hmax.
  rewrite Z.add_assoc. apply IH; [lia|lia|].
  apply rms_step_exact; [done|done|lia|done].
Qed.

Lemma meanSquare_sumSquares buf :
  meanSquare buf
  == inject_Z (sumSquares buf) * 2 ^ (-14) / inject_Z (Z.of_nat (length buf)).
Proof.
  unfold meanSquare. apply Qmult_comp; [|done].
  induction buf as [|b buf IH]; [done|].
  unfold sumSquares in *. cbn [fmap list_fmap fold_right].
  rewrite IH, inject_Z_plus, inject_Z_mult.
  unfold Zminus. rewrite inject_Z_plus, inject_Z_opp.
  change (2 ^ (-14)) with (1 # 16384). change (inject_Z 128) with 128. field.
Qed.

Lemma rms_relative_error (r xq ms : Q) :
  0 <= ms →
  r * (1 - 2 ^ (-53)) * (r * (1 - 2 ^ (-53))) <= xq →
  xq <= r * (1 + 2 ^ (-53)) * (r * (1 + 2 ^ (-53))) →
  Qabs (xq - ms) <= 2 ^ (-53) * ms →
  ms * (1 - 2 ^ (-52)) ^ 2 <= r * r ∧ r * r <= ms * (1 + 2 ^ (-52)) ^ 2.
Proof.
  intros Hms HA HB HC.
  apply Qabs_Qle_condition in HC as [HC1 HC2].
  change (2 ^ (-53)) with (1 # 9007199254740992) in *.
  change (2 ^ (-52)) with (1 # 4503599627370496).
  assert (EA : r * (1 - (1 # 9007199254740992)) * (r * (1 - (1 # 9007199254740992)))
               == r * r * ((1 - (1 # 9007199254740992)) * (1 - (1 # 9007199254740992))))
    by ring.
  assert (EB : r * (1 + (1 # 9007199254740992)) * (r * (1 + (1 # 9007199254740992)))
               == r * r * ((1 + (1 # 9007199254740992)) * (1 + (1 # 9007199254740992))))
    by ring.
  rewrite EA in HA. rewrite EB in HB.
  set (R2 := r * r) in *. clearbody R2. clear EA EB.
  split; Lqa.lra.
Qed.

Lemma rms_rounded (buf : list Z) :
  buf ≠ [] → Forall (λ b, (0 ≤ b ≤ 255)%Z) buf →
  (Z.of_nat (length buf) ≤ 2 ^ 39)%Z →
  ∃ r, _rms buf = Some r ∧ 0 <= r ∧ r <= 1 ∧
       meanSquare buf * (1 - 2 ^ (-52)) ^ 2 <= r * r ∧
       r * r <= meanSquare buf * (1 + 2 ^ (-52)) ^ 2 ∧
       0 <= meanSquare buf.
Proof.
  intros Hne Hbuf Hlen.
  pose proof (sumSquares_bounds buf Hbuf) as [HS0 HS1].
  pose proof (rms_loop_exact buf 0 0 Hbuf ltac:(lia) ltac:(lia) ltac:(done)) as Hsum.
  rewrite Z.add_0_l in Hsum.
  pose proof (meanSquare_sumSquares buf) as Hms.
  set (sum := fold_left _ buf 0) in Hsum.
  set (n := inject_Z (Z.of_nat (length buf))) in *.
  assert (Hn : 1 <= n).
  { unfold n. change 1 with (inject_Z 1). rewrite <- Zle_Qle.
    destruct buf; [done|]. cbn [length]. lia. }
  assert (Hn39 : n <= 2 ^ 39).
  { unfold n. rewrite <- pow2_Z by lia. by rewrite <- Zle_Qle. }
  assert (Hr : _rms buf = Some (sqrt64 (fdiv sum n))).
  { unfold _rms. fold sum. destruct buf; [done|]. done. }
  exists (sqrt64 (fdiv sum n)). split; [done|].
  set (ms := meanSquare buf) in *.
  assert (Hq : fdiv sum n == round64 ms).
  { unfold fdiv. by rewrite Hsum, Hms. }
  set (xq := fdiv sum n) in *. clearbody xq sum.
  set (SS := inject_Z (sumSquares buf)) in *.
  assert (HSS0 : 0 <= SS).
  { unfold SS. change 0 with (inject_Z 0). by rewrite <- Zle_Qle. }
  assert (HSS1 : SS <= 16384 * n).
  { unfold SS, n. change 16384 with (inject_Z 16384).
    rewrite <- inject_Z_mult. by rewrite <- Zle_Qle. }
  assert (Hmsn : ms * (16384 * n) == SS).
  { rewrite Hms. change (2 ^ (-14)) with (1 # 16384). field.
    intros Hz. rewrite Hz in Hn. Lqa.lra. }
  assert (Hms0 : 0 <= ms).
  { apply (Qmult_le_r _ _ (16384 * n)); [Lqa.lra|]. rewrite Hmsn. Lqa.lra. }
  assert (Hms1 : ms <= 1).
  { apply (Qmult_le_r _ _ (16384 * n)); [Lqa.lra|]. rewrite Hmsn. Lqa.lra. }
  assert (Hx0 : 0 <= xq).
  { rewrite Hq. apply round64_ge; [|done]. exists 0%Z, 0%Z. split_and!; done. }
  assert (Hx1 : xq <= 1).
  { rewrite Hq. apply round64_le; [|done]. exists 1%Z, 0%Z. split_and!; done. }
  assert (Hr1 : sqrt64 xq <= 1) by (by apply sqrt64_le_1).
  destruct (Z_le_gt_dec (sumSquares buf) 0) as [Hz|Hpos].
  - (* silence *)
    assert (HSSz : SS == 0).
    { unfold SS. by replace (sumSquares buf) with 0%Z by lia. }
    assert (Hmsz : ms == 0).
    { apply (Qmult_inj_r _ _ (16384 * n)); [intros E; Lqa.lra|].
      rewrite Hmsn, HSSz. ring. }
    assert (Hxz : xq == 0).
    { rewrite Hq. by rewrite (round64_comp _ _ Hmsz). }
    rewrite (sqrt64_nonpos xq) by (rewrite Hxz; apply Qle_refl).
    rewrite Hmsz. split_and!; done.
  - assert (HSSp : 1 <= SS).
    { unfold SS. change 1 with (inject_Z 1). rewrite <- Zle_Qle. lia. }
    assert (Hnormal : 2 ^ (-53) <= ms).
    { apply (Qmult_le_r _ _ (16384 * n)); [Lqa.lra|]. rewrite Hmsn.
      change (2 ^ (-53)) with (1 # 9007199254740992).
      change (2 ^ 39) with 549755813888 in Hn39. Lqa.lra. }
    pose proof (round64_error ms) as Herr.
    rewrite (Qabs_pos ms) in Herr by done. rewrite <- Hq in Herr.
    specialize (Herr ltac:(eapply Qle_trans; [|exact Hnormal]; done)).
    assert (Hxp : 0 < xq).
    { apply Qabs_Qle_condition in Herr as [He1 _].
      change (2 ^ (-53)) with (1 # 9007199254740992) in *. Lqa.lra. }
    destruct (sqrt64_bounds xq Hxp) as (Hrp & HA & HB).
    destruct (rms_relative_error _ _ _ Hms0 HA HB Herr) as [G1 G2].
    split_and!; [by apply Qlt_le_weak|done|done|done|done].
Qed.

Lemma sumOfSquares_nil : sumOfSquares [] = 0%R.
Proof. reflexivity. Qed.

Lemma sumOfSquares_cons x xs :
  sumOfSquares (x :: xs) = (x * x + sumOfSquares xs)%R.
Proof. reflexivity. Qed.

Lemma Q2R_inject_Z z : Q2R (inject_Z z) = IZR z.
Proof. unfold Q2R. simpl. lra. Qed.

Lemma Q2R_meanSquare buf :
  buf ≠ [] →
  Q2R (meanSquare buf)
  = (sumOfSquares (normalized <$> buf) / INR (length buf))%R.
Proof.
  intros Hne. unfold meanSquare.
  assert (Hn : ¬ inject_Z (Z.of_nat (length buf)) == 0).
  { intros Hz. unfold Qeq in Hz. simpl in Hz. destruct buf; [done|].
    cbn [length] in Hz. lia. }
  unfold Qdiv. rewrite Q2R_mult, Q2R_inv by done.
  rewrite Q2R_inject_Z, <- INR_IZR_INZ. unfold Rdiv. f_equal.
  clear. induction buf as [|b buf IH].
  { cbn. unfold Q2R. simpl. lra. }
  cbn [fmap list_fmap fold_right]. rewrite Q2R_plus, IH.
  rewrite sumOfSquares_cons. f_equal.
  rewrite Q2R_mult. unfold Qdiv.
  rewrite Q2R_mult, Q2R_minus, Q2R_inject_Z.
  unfold normalized, Q2R. simpl. lra.
Qed.

(** From the squares to the roots. *)
Lemma root_within (a M w : R) :
  (0 <= a)%R → (0 <= M)%R → (0 <= w <= 1)%R →
  (M * ((1 - w) * (1 - w)) <= a * a)%R → (a * a <= M * ((1 + w) * (1 + w)))%R →
  (Rabs (a - sqrt M) <= sqrt M * w)%R.
Proof.
  intros Ha HM [Hw0 Hw1] Hlo Hhi.
  assert (Hs : (0 <= sqrt M)%R) by apply sqrt_pos.
  assert (Hlo' : (sqrt M * (1 - w) <= a)%R).
  { rewrite <- (sqrt_square a Ha), <- (sqrt_square (1 - w)) by lra.
    rewrite <- sqrt_mult_alt by done. by apply sqrt_le_1_alt. }
  assert (Hhi' : (a <= sqrt M * (1 + w))%R).
  { rewrite <- (sqrt_square a Ha), <- (sqrt_square (1 + w)) by lra.
    rewrite <- sqrt_mult_alt by done. by apply sqrt_le_1_alt. }
  apply Rabs_le. lra.
Qed.

(** C9, as stated, fails: for silence, the full positive swing and the
    full negative swing, what [_rms] returns is not the root mean square:
    its square is not the mean square [(0 + (127/128)^2 + 1) / 3]. *)
Lemma rms_is_not_the_root_mean_square :
  ∃ r, _rms [128; 255; 0]%Z = Some r ∧
       ¬ (r * r == meanSquare [128; 255; 0]%Z) ∧
       Q2R r ≠ rootMeanSquare (normalized <$> [128; 255; 0]%Z).
Proof.
  eexists. split; [vm_compute; reflexivity|].
  match goal with |- ¬ ?r * ?r == _ ∧ _ => set (x := r) end.
  assert (Hsq : ¬ x * x == meanSquare [128; 255; 0]%Z).
  { intros H. vm_compute in H. discriminate. }
  split; [done|]. intros Heq. apply Hsq. apply eqR_Qeq.
  rewrite Q2R_mult, Heq. unfold rootMeanSquare. rewrite length_fmap.
  rewrite <- Q2R_meanSquare by done.
  apply sqrt_sqrt. replace 0%R with (Q2R 0) by (unfold Q2R; simpl; lra).
  apply Qle_Rle. by vm_compute.
Qed.

(** C9, amended. On a buffer of 1 to [2^39] samples in 0..255 the loop of
    [_rms] is exact and the division and the square root round once each:
    what is returned lies between 0 and 1, and it is the root mean square
    of the normalized amplitudes [(sample - 128) / 128] to within a
    relative error of [2^-52]. *)
Theorem rms_is_root_mean_square_up_to_rounding (buf : list Z) :
  buf ≠ [] → Forall (λ b, (0 ≤ b ≤ 255)%Z) buf →
  (Z.of_nat (length buf) ≤ 2 ^ 39)%Z →
  ∃ r, _rms buf = Some r ∧ 0 <= r ∧ r <= 1 ∧
       meanSquare buf * (1 - 2 ^ (-52)) ^ 2 <= r * r ∧
       r * r <= meanSquare buf * (1 + 2 ^ (-52)) ^ 2 ∧
       (Rabs (Q2R r - rootMeanSquare (normalized <$> buf))
        <= rootMeanSquare (normalized <$> buf) / 2 ^ 52)%R.
Proof.
  intros Hne Hbuf Hlen.
  destruct (rms_rounded buf Hne Hbuf Hlen) as (r & Hr & Hr0 & Hr1 & Hlo & Hhi & Hms).
  exists r. split_and!; try done.
  unfold rootMeanSquare. rewrite length_fmap, <- Q2R_meanSquare by done.
  set (ms := meanSquare buf) in *.
  assert (Hw : Q2R (2 ^ (-52)) = (/ 2 ^ 52)%R).
  { rewrite pow_IZR. change (2 ^ Z.of_nat 52)%Z with 4503599627370496%Z.
    change (2 ^ (-52)) with (1 # 4503599627370496). unfold Q2R. simpl. lra. }
  unfold Rdiv. rewrite <- Hw.
  assert (H0 : Q2R 0 = 0%R) by (unfold Q2R; simpl; lra).
  assert (H1 : Q2R 1 = 1%R) by (unfold Q2R; simpl; lra).
  apply root_within.
  - rewrite <- H0. by apply Qle_Rle.
  - rewrite <- H0. by apply Qle_Rle.
  - rewrite <- H0, <- H1. split; apply Qle_Rle; done.
  - apply Qle_Rle in Hlo. rewrite !Q2R_mult in Hlo.
    change ((1 - 2 ^ (-52)) ^ 2) with ((1 - 2 ^ (-52)) * (1 - 2 ^ (-52))) in Hlo.
    by rewrite Q2R_mult, Q2R_minus, H1 in Hlo.
  - apply Qle_Rle in Hhi. rewrite !Q2R_mult in Hhi.
    change ((1 + 2 ^ (-52)) ^ 2) with ((1 + 2 ^ (-52)) * (1 + 2 ^ (-52))) in Hhi.
    by rewrite Q2R_mult, Q2R_plus, H1 in Hhi.
Qed.

(** Silence, full positive swing, full negative swing. *)
Lemma rms_of_three_samples :
  ∃ r, _rms [128; 255; 0]%Z = Some r ∧ 0 <= r ∧ r <= 1 ∧
       (Rabs (Q2R r - rootMeanSquare (normalized <$> [128; 255; 0]%Z))
        <= rootMeanSquare (normalized <$> [128; 255; 0]%Z) / 2 ^ 52)%R.
Proof.
  destruct (rms_is_root_mean_square_up_to_rounding [128; 255; 0]%Z)
    as (r & Hr & H0 & H1 & _ & _ & HR).
  - done.
  - repeat (apply Forall_cons; split; [lia|]). apply Forall_nil. done.
  - vm_compute. discriminate.
  - exists r. exact (conj Hr (conj H0 (conj H1 HR))).
Defined.

End RootMeanSquare.

Section SequencingGuard.
Import Review.

(** Only the block after [await API.reviewChain] appends messages. *)
Lemma resume_messages seqAtStart pc w u :
  pc ≠ AtChain →
  messages (startListeningForAnswer_resume seqAtStart pc w u).1 = messages u.
Proof.
  intros Hpc. destruct pc as [| | |[b|]| | | |], w; simpl; try done.
  destruct (negb _); [done|]. by destruct (bool_decide _).
Qed.

(** The guard before the POST: with the counter moved on, the request is
    not sent. *)
Lemma resume_guard_before_post seqAtStart url u :
  seqAtStart ≠ currentSeq u →
  startListeningForAnswer_resume seqAtStart AtDataUrl (WDataUrl url) u
    = (u, AtFinallyStop).
Proof.
  intros Hne. simpl. destruct (negb _); [done|].
  by rewrite bool_decide_eq_true_2.
Qed.

(** After the POST the counter is not looked at: the answer is applied
    whatever [seqAtStart] was. *)
Lemma resume_after_post_ignores_counter seqAtStart seqAtStart' out u :
  startListeningForAnswer_resume seqAtStart AtChain (WChain out) u
  = startListeningForAnswer_resume seqAtStart' AtChain (WChain out) u ∧
  messages (startListeningForAnswer_resume seqAtStart AtChain (WChain out) u).1
  ≠ messages u.
Proof.
  split; [done|]. simpl. unfold applyChainOut, pushMessage.
  destruct (ok out); [destruct (bool_decide _)|]; simpl;
    intros H; apply (f_equal length) in H; rewrite ?length_app in H;
    simpl in H; lia.
Qed.

(** C1 at a failing input: the flow captured sequence 1; when the answer of
    [/api/review-chain] is applied the counter is 2, and the transcript and
    the reply for card 1 are appended below the front of card 2. *)
Theorem stale_review_reply_is_appended :
  let before := pageRun (take 10 gradeDuringReview) initPage in
  let after := pageRun gradeDuringReview initPage in
  flow before = Some (1, AtChain) ∧ currentSeq (ui before) = 2 ∧
  messages (ui before) =
    [mkMsg assistant None (Some "<p>Card 1</p>");
     mkMsg assistant None (Some "<p>Card 2</p>")] ∧
  messages (ui after) =
    messages (ui before) ++
    [mkMsg user (Some "Antwort eins") None;
     mkMsg assistant (Some "Richtig.") None].
Proof. by vm_compute. Qed.

End SequencingGuard.

(* ===================================================================== *)
(** * Part III. Further properties of the code                             *)
(* ===================================================================== *)

Section CacheLookup.
Import App AppEffects.

Lemma map_get_app_fresh (m : list (Z * string)) k v :
  k ∉ m.*1 → map_get (m ++ [(k, v)]) k = Some v.
Proof.
  induction m as [|[k' v'] m IH]; simpl; intros Hk.
  - by rewrite bool_decide_eq_true_2.
  - apply not_elem_of_cons in Hk as [Hne Hk].
    rewrite bool_decide_eq_false_2 by congruence. by apply IH.
Qed.

Lemma map_get_app_other (m : list (Z * string)) k v k' :
  k' ≠ k → map_get (m ++ [(k, v)]) k' = map_get m k'.
Proof.
  intros Hne. induction m as [|[k0 v0] m IH]; simpl.
  - by rewrite bool_decide_eq_false_2.
  - by rewrite IH.
Qed.

Lemma map_get_is_Some (m : list (Z * string)) k :
  k ∈ m.*1 → is_Some (map_get m k).
Proof.
  induction m as [|[k' v'] m IH]; simpl; intros Hk.
  - by apply elem_of_nil in Hk.
  - case_bool_decide; [by eexists|].
    apply elem_of_cons in Hk as [->|Hk]; [done|by apply IH].
Qed.

Lemma map_get_None (m : list (Z * string)) k :
  k ∉ m.*1 → map_get m k = None.
Proof.
  induction m as [|[k' v'] m IH]; simpl; intros Hk; [done|].
  apply not_elem_of_cons in Hk as [Hne Hk].
  rewrite bool_decide_eq_false_2 by congruence. by apply IH.
Qed.

(** X1. [cacheSet] then [get]: the id is cached afterwards, with the URL it had
    before if it had one (the new URL is then dropped, neither stored nor
    revoked) and with the new URL otherwise; every other id keeps its entry,
    except the oldest one when the cache was full and the id new. *)
Theorem cacheSet_then_get (st : Store) (id : Z) (url : string) :
  cacheOk st →
  map_get (ttsCache (cacheSet id url st)) id
    = Some (default url (map_get (ttsCache st) id)) ∧
  (id ∈ (ttsCache st).*1 → cacheSet id url st = st) ∧
  (∀ id', id' ≠ id →
     map_get (ttsCache (cacheSet id url st)) id'
       = if evicts st id id' then None else map_get (ttsCache st) id').
Proof.
  intros [Hnd Hlen].
  destruct (decide (id ∈ (ttsCache st).*1)) as [Hin|Hin].
  { rewrite cacheSet_present by done.
    destruct (map_get_is_Some _ _ Hin) as [u Hu]. rewrite Hu. simpl.
    split_and!; [done|done|]. intros id' Hne. unfold evicts.
    by rewrite (proj2 (map_has_true _ _) Hin). }
  rewrite (map_get_None _ _ Hin). simpl.
  destruct (decide (length (ttsCache st) < MAX_CACHE)%nat) as [Hlt|Hge].
  { rewrite cacheSet_room by done. simpl.
    split_and!; [by apply map_get_app_fresh|done|].
    intros id' Hne. rewrite map_get_app_other by done. unfold evicts.
    destruct (Nat.leb_spec MAX_CACHE (length (ttsCache st))); [lia|].
    by rewrite andb_false_r. }
  destruct (ttsCache st) as [|[k0 u0] rest] eqn:Hc.
  { simpl in Hge. unfold MAX_CACHE in Hge. lia. }
  rewrite (cacheSet_overflow id url st k0 u0 rest); rewrite ?Hc; try done;
    [|simpl in *; lia].
  simpl in Hnd, Hin. apply NoDup_cons in Hnd as [Hk0 Hnd].
  apply not_elem_of_cons in Hin as [Hne0 Hin]. simpl.
  split_and!; [by apply map_get_app_fresh|intros [->|?]%elem_of_cons; done|].
  intros id' Hne. rewrite map_get_app_other by done.
  assert (Hhas : map_has ((k0, u0) :: rest) id = false).
  { apply map_has_false. simpl. by apply not_elem_of_cons. }
  unfold evicts. rewrite Hc, Hhas. cbn [negb andb map_first_key map_get].
  destruct (Nat.leb_spec MAX_CACHE (length ((k0, u0) :: rest)));
    [|cbn [length] in *; lia].
  cbn [andb]. case_bool_decide as Hk.
  - injection Hk as ->. by apply map_get_None.
  - rewrite bool_decide_eq_false_2; [done|]. intros ->. done.
Qed.

(** Card 7 is cached, then offered again with another URL. *)
Lemma cacheSet_then_get_first_url_wins :
  let st := cacheSet 7 "blob:first" emptyStore in
  map_get (ttsCache (cacheSet 7 "blob:second" st)) 7 = Some "blob:first" ∧
  cacheSet 7 "blob:second" st = st.
Proof.
  intros st.
  destruct (cacheSet_then_get st 7 "blob:second") as (Hget & Hsame & _).
  - split; [|vm_compute; lia].
    apply (bool_decide_unpack (NoDup (ttsCache st).*1)). vm_compute. exact I.
  - split; [exact Hget|]. apply Hsame. apply list_elem_of_here.
Defined.

End CacheLookup.

Section CacheTeardown.
Import App AppEffects.

Lemma revoke_all_blob urls log :
  Forall isObjectUrl urls →
  fold_left (λ log url, revokeIfBlob url log) urls log = log ++ urls.
Proof.
  intros H. revert log. induction H as [|u urls Hu _ IH]; intros log; simpl.
  - by rewrite app_nil_r.
  - rewrite IH. unfold revokeIfBlob. rewrite Hu. by rewrite <- app_assoc.
Qed.

(** What [cacheSet] does to the handles: the revoked ones followed by the
    cached ones grow by the new URL when the id was not cached, and not at
    all otherwise. *)
Lemma cacheSet_handles id url st :
  cacheOk st → Forall isObjectUrl (ttsCache st).*2 →
  revoked (cacheSet id url st) ++ (ttsCache (cacheSet id url st)).*2
  = (revoked st ++ (ttsCache st).*2)
    ++ (if map_has (ttsCache st) id then [] else [url]).
Proof.
  intros [Hnd Hlen] Hurls.
  destruct (decide (id ∈ (ttsCache st).*1)) as [Hin|Hin].
  { rewrite cacheSet_present by done.
    rewrite (proj2 (map_has_true _ _) Hin). by rewrite app_nil_r. }
  rewrite (proj2 (map_has_false _ _) Hin).
  destruct (decide (length (ttsCache st) < MAX_CACHE)%nat) as [Hlt|Hge].
  { rewrite cacheSet_room by done. simpl. by rewrite fmap_app, app_assoc. }
  destruct (ttsCache st) as [|[k0 u0] rest] eqn:Hc.
  { simpl in Hge. unfold MAX_CACHE in Hge. lia. }
  rewrite (cacheSet_overflow id url st k0 u0 rest); rewrite ?Hc; try done;
    [|simpl in *; lia].
  simpl in Hurls. apply Forall_cons in Hurls as [Hu0 _].
  simpl. unfold revokeIfBlob. rewrite Hu0, fmap_app. simpl.
  by rewrite <- !app_assoc.
Qed.

Lemma cacheSet_urls id url st :
  cacheOk st → isObjectUrl url → Forall isObjectUrl (ttsCache st).*2 →
  Forall isObjectUrl (ttsCache (cacheSet id url st)).*2.
Proof.
  intros [Hnd Hlen] Hu Hurls.
  destruct (decide (id ∈ (ttsCache st).*1)) as [Hin|Hin].
  { by rewrite cacheSet_present. }
  destruct (decide (length (ttsCache st) < MAX_CACHE)%nat) as [Hlt|Hge].
  { rewrite cacheSet_room by done. simpl. rewrite fmap_app.
    apply Forall_app. split; [done|]. by apply Forall_singleton. }
  destruct (ttsCache st) as [|[k0 u0] rest] eqn:Hc.
  { simpl in Hge. unfold MAX_CACHE in Hge. lia. }
  rewrite (cacheSet_overflow id url st k0 u0 rest); rewrite ?Hc; try done;
    [|simpl in *; lia].
  simpl in Hurls. apply Forall_cons in Hurls as [_ Hrest].
  simpl. rewrite fmap_app. apply Forall_app. split; [done|].
  by apply Forall_singleton.
Qed.

Lemma cacheSetAll_handles calls st :
  cacheOk st → Forall isObjectUrl (ttsCache st).*2 →
  Forall isObjectUrl calls.*2 →
  revoked (cacheSetAll calls st) ++ (ttsCache (cacheSetAll calls st)).*2
  = (revoked st ++ (ttsCache st).*2) ++ acceptedUrls calls st ∧
  Forall isObjectUrl (ttsCache (cacheSetAll calls st)).*2.
Proof.
  revert st. induction calls as [|[id url] calls IH]; intros st Hok Hurls Hc.
  { simpl. by rewrite app_nil_r. }
  simpl in Hc. apply Forall_cons in Hc as [Hu Hc].
  destruct (IH (cacheSet id url st)) as [IH1 IH2];
    [by apply cacheSet_cacheOk|by apply cacheSet_urls|done|].
  change (cacheSetAll ((id, url) :: calls) st)
    with (cacheSetAll calls (cacheSet id url st)).
  split; [|done].
  rewrite IH1, cacheSet_handles by done.
  cbn [acceptedUrls fst snd]. by rewrite <- !app_assoc.
Qed.

(** X2. From the empty cache, after any run of [cacheSet] calls with object
    URLs and then the teardown: the cache is empty and the URLs revoked, by
    evictions and by the teardown together, are exactly the URLs the cache
    took in, each once, in the order they were taken in. A URL offered for an
    id that was cached at the time is not among them. *)
Theorem cleanup_revokes_every_cached_url (calls : list (Z * string)) :
  Forall isObjectUrl calls.*2 →
  let st := cacheSetAll calls emptyStore in
  ttsCache (cleanup st) = [] ∧
  revoked (cleanup st) = acceptedUrls calls emptyStore ∧
  revoked (cleanup st) = revoked st ++ (ttsCache st).*2.
Proof.
  intros Hc st.
  destruct (cacheSetAll_handles calls emptyStore) as [Hh Hurls]; try done.
  { split; simpl; [constructor|lia]. }
  fold st in Hh, Hurls. simpl in Hh.
  assert (Hrev : revoked (cleanup st) = revoked st ++ (ttsCache st).*2).
  { unfold cleanup. simpl. by apply revoke_all_blob. }
  split_and!; [done| |done]. by rewrite Hrev, Hh.
Qed.

(** Fourteen clips for thirteen cards: the second clip for card 1 comes
    while card 1 is cached. *)
Lemma cleanup_revokes_thirteen_clips :
  let calls := (1, "blob:again") :: thirteenClips in
  revoked (cleanup (cacheSetAll ((1, "blob:c01") :: calls) emptyStore))
  = thirteenClips.*2.
Proof.
  intros calls.
  destruct (cleanup_revokes_every_cached_url ((1, "blob:c01") :: calls))
    as (_ & Hrev & _).
  - apply Forall_forall. intros u Hu. simpl in Hu.
    unfold thirteenClips in Hu. simpl in Hu.
    repeat (apply elem_of_cons in Hu as [->|Hu]; [reflexivity|]).
    by apply elem_of_nil in Hu.
  - rewrite Hrev. vm_compute. reflexivity.
Defined.

End CacheTeardown.

Section WorkerCount.
Import App.

Lemma run_iterate_shift p id q :
  queue p = id :: q →
  queue (run_iterate p).1 = q ∧ workers (run_iterate p).1 = workers p.
Proof.
  intros Hq. unfold run_iterate. rewrite Hq.
  by destruct (prefetchOneCard_enter id (pstore p)).
Qed.

Lemma spawn_shape fuel i p :
  let k := Nat.min fuel (Nat.min (CONCURRENCY - i)
                                 ((length (queue p) - i + 1) / 2)) in
  length (workers (spawn fuel i p)) = (length (workers p) + k)%nat ∧
  queue (spawn fuel i p) = drop k (queue p).
Proof.
  revert i p. induction fuel as [|fuel IH]; intros i p.
  { simpl. split; [lia|done]. }
  rewrite spawn_unfold.
  destruct (Nat.ltb_spec i (Nat.min CONCURRENCY (length (queue p)))) as [Hlt|Hge].
  - destruct (queue p) as [|id q] eqn:Hq; [simpl in Hlt; lia|].
    destruct (run_iterate_shift p id q Hq) as [Hq' Hw'].
    destruct (run_iterate p) as [p' w]. simpl in Hq', Hw'.
    destruct (IH (S i) (push_worker w p')) as [IHw IHq].
    assert (Hpq : queue (push_worker w p') = q) by done.
    assert (Hpw : length (workers (push_worker w p')) = S (length (workers p))).
    { unfold push_worker. cbn [workers]. rewrite Hw', length_app. simpl. lia. }
    rewrite Hpq in IHw, IHq. rewrite Hpw in IHw.
    cbn [length] in *. unfold CONCURRENCY in *.
    assert (Hdiv : ((S (length q) - i + 1) / 2
                    = S ((length q - S i + 1) / 2))%nat).
    { destruct (decide (i = length q)) as [->|Hne].
      - replace (S (length q) - length q + 1)%nat with 2%nat by lia.
        replace (length q - S (length q) + 1)%nat with 1%nat by lia.
        reflexivity.
      - replace (S (length q) - i + 1)%nat
          with ((length q - S i + 1) + 1 * 2)%nat by lia.
        rewrite Nat.div_add by lia. lia. }
    rewrite Hdiv.
    replace (Nat.min (S fuel) (Nat.min (4 - i) (S ((length q - S i + 1) / 2))))
      with (S (Nat.min fuel (Nat.min (4 - S i) ((length q - S i + 1) / 2))))
      by lia.
    split; [lia|]. by rewrite IHq.
  - assert (Hk : Nat.min (S fuel) (Nat.min (CONCURRENCY - i)
                    ((length (queue p) - i + 1) / 2)) = 0%nat).
    { unfold CONCURRENCY in *.
      destruct (decide (4 ≤ i)%nat); [lia|].
      assert (length (queue p) - i = 0)%nat as -> by lia.
      change ((0 + 1) / 2)%nat with 0%nat. lia. }
    rewrite Hk. split; [lia|done].
Qed.

(** X3. [warmPrefetch] starts one worker for every two candidates, rounded up,
    and at most [CONCURRENCY]: the loop's bound shrinks with the queue while
    the workers it has started take their first ids. Each worker has taken
    one id, so that many are gone from the queue. With the five candidates
    of [PREFETCH_COUNT] there are three workers. *)
Theorem warmPrefetch_worker_count (cands : list Z) (st : Store) :
  let p := warmPrefetch_start cands st in
  let k := Nat.min CONCURRENCY ((length cands + 1) / 2) in
  length (workers p) = k ∧ queue p = drop k cands ∧
  (length cands = PREFETCH_COUNT → length (workers p) = 3%nat).
Proof.
  intros p k.
  destruct (spawn_shape CONCURRENCY 0 (mkPool st cands [] [] [] [])) as [Hw Hq].
  cbn [queue workers length] in Hw, Hq.
  fold (warmPrefetch_start cands st) in Hw, Hq. fold p in Hw, Hq.
  assert (Hk : Nat.min CONCURRENCY
                 (Nat.min (CONCURRENCY - 0) ((length cands - 0 + 1) / 2)) = k).
  { subst k. rewrite !Nat.sub_0_r. lia. }
  rewrite Hk in Hw, Hq.
  split_and!; [exact Hw|exact Hq|].
  intros Hlen. rewrite Hw. subst k. rewrite Hlen. reflexivity.
Qed.

(** Five candidates. *)
Lemma warmPrefetch_three_workers_for_five :
  length (workers (warmPrefetch_start [11; 12; 13; 14; 15] emptyStore)) = 3%nat.
Proof.
  destruct (warmPrefetch_worker_count [11; 12; 13; 14; 15] emptyStore)
    as (_ & _ & H).
  apply H. reflexivity.
Defined.

End WorkerCount.

(** ** The clip being played and the cache *)

Section ReplayedClip.
Import App AppPlayer.

Lemma blob_not_empty url : String.prefix "blob:" url = true → url ≠ "".
Proof. by intros H ->. Qed.

Lemma step_speak_miss id text s :
  id ≠ 0 → map_get (ttsCache (store s)) id = None →
  step (CallSpeak id text) s
  = mkSys (store s) (tasks s ++ [mkTask OnDemand id (AwaitTts text)]) (ttsUrl s).
Proof.
  intros Hid Hget. cbn [step]. unfold ttsSpeakCardFront_enter.
  by rewrite bool_decide_eq_false_2, Hget.
Qed.

Lemma step_speak_hit id text url s :
  id ≠ 0 → map_get (ttsCache (store s)) id = Some url → url ≠ "" →
  step (CallSpeak id text) s = mkSys (store s) (tasks s) (Some url).
Proof.
  intros Hid Hget Hurl. cbn [step]. unfold ttsSpeakCardFront_enter.
  by rewrite bool_decide_eq_false_2, Hget, bool_decide_eq_false_2.
Qed.

Lemma step_speak_settled i id text url s :
  tasks s !! i = Some (mkTask OnDemand id (AwaitTts text)) →
  text ≠ "" → url ≠ "" →
  step (Settled i (Resolved url)) s
  = mkSys (cacheSet id url (store s)) (delete i (tasks s)) (Some url).
Proof.
  intros Htask Htext Hurl. cbn [step]. rewrite Htask.
  unfold ttsSpeakCardFront_resume, ttsFetchToBlobUrl.
  by rewrite !bool_decide_eq_false_2.
Qed.

Lemma commit_same before after :
  ttsUrl before = ttsUrl after → commit before after = after.
Proof. intros H. unfold commit. by rewrite bool_decide_eq_true_2. Qed.

Lemma commit_changed before after :
  ttsUrl before ≠ ttsUrl after →
  commit before after
  = mkSys (mkStore (ttsCache (store after)) (inflight (store after))
                   (autoplayCleanup (ttsUrl before) (revoked (store after))))
          (tasks after) (ttsUrl after).
Proof. intros H. unfold commit. by rewrite bool_decide_eq_false_2. Qed.

(** X4. A card that comes up again is played from the cache, with a URL
    that has been revoked. Card [a] is spoken and its clip cached; card [b]
    is spoken, and the autoplay effect, leaving [a]'s clip, revokes its URL
    while the cache keeps the entry; when [a] is the current card again,
    [ttsSpeakCardFront] finds the entry and sets that URL. *)
Theorem replayed_card_gets_a_revoked_url
    (a b : Z) (textA textB urlA urlB : string) :
  a ≠ 0 → b ≠ 0 → a ≠ b → textA ≠ "" → textB ≠ "" →
  String.prefix "blob:" urlA = true → urlB ≠ "" → urlA ≠ urlB →
  let s := runRendered [CallSpeak a textA; Settled 0 (Resolved urlA);
                        CallSpeak b textB; Settled 0 (Resolved urlB);
                        CallSpeak a textA] initSys in
  ttsUrl s = Some urlA ∧ urlA ∈ revoked (store s) ∧
  map_get (ttsCache (store s)) a = Some urlA ∧ tasks s = [].
Proof.
  intros Ha Hb Hab HtA HtB Hblob HuB Hne s.
  pose proof (blob_not_empty _ Hblob) as HuA.
  set (s1 := mkSys emptyStore [mkTask OnDemand a (AwaitTts textA)] None).
  set (s2 := mkSys (mkStore [(a, urlA)] ∅ []) [] (Some urlA)).
  set (s3 := mkSys (mkStore [(a, urlA)] ∅ [])
                   [mkTask OnDemand b (AwaitTts textB)] (Some urlA)).
  set (s4 := mkSys (mkStore [(a, urlA); (b, urlB)] ∅ [urlA]) [] (Some urlB)).
  assert (H1 : stepRendered (CallSpeak a textA) initSys = s1).
  { unfold stepRendered. rewrite step_speak_miss by done. by apply commit_same. }
  assert (H2 : stepRendered (Settled 0 (Resolved urlA)) s1 = s2).
  { unfold stepRendered.
    rewrite (step_speak_settled 0 a textA urlA s1) by done.
    rewrite commit_changed by done.
    change (store s1) with emptyStore.
    rewrite cacheSet_room; [done|set_solver|cbn; unfold MAX_CACHE; lia]. }
  assert (H3 : stepRendered (CallSpeak b textB) s2 = s3).
  { unfold stepRendered. rewrite step_speak_miss; [by apply commit_same|done|].
    cbn. by rewrite bool_decide_eq_false_2. }
  assert (H4 : stepRendered (Settled 0 (Resolved urlB)) s3 = s4).
  { unfold stepRendered.
    rewrite (step_speak_settled 0 b textB urlB s3) by done.
    rewrite commit_changed by (cbn; congruence).
    change (store s3) with (mkStore [(a, urlA)] ∅ []).
    rewrite cacheSet_room; [|set_solver|cbn; unfold MAX_CACHE; lia].
    cbn. rewrite bool_decide_eq_false_2 by done.
    unfold revokeIfBlob. by rewrite Hblob. }
  assert (Hget : map_get (ttsCache (store s4)) a = Some urlA).
  { cbn. by rewrite bool_decide_eq_true_2. }
  assert (H5 : s = commit s4 (mkSys (store s4) [] (Some urlA))).
  { subst s. cbn [runRendered fold_left]. rewrite H1, H2, H3, H4.
    unfold stepRendered. by rewrite (step_speak_hit a textA urlA s4). }
  rewrite H5, commit_changed by (cbn; congruence).
  cbn [ttsUrl store revoked ttsCache tasks].
  split_and!; [done| |done|done].
  change (ttsUrl s4) with (Some urlB). change (revoked (store s4)) with [urlA].
  cbn. rewrite bool_decide_eq_false_2 by done.
  unfold revokeIfBlob. destruct (String.prefix "blob:" urlB); set_solver.
Qed.

Lemma replayed_card_gets_a_revoked_url_example :
  let s := runRendered [CallSpeak 7 "das Haus"; Settled 0 (Resolved "blob:a");
                        CallSpeak 8 "der Baum"; Settled 0 (Resolved "blob:b");
                        CallSpeak 7 "das Haus"] initSys in
  ttsUrl s = Some "blob:a" ∧ "blob:a" ∈ revoked (store s).
Proof.
  intros s.
  destruct (replayed_card_gets_a_revoked_url 7 8 "das Haus" "der Baum"
              "blob:a" "blob:b") as (H1 & H2 & _); try done.
Defined.

End ReplayedClip.

Section SequenceCounter.
Import Review ReviewEvents.

Lemma resume_currentSeq seqAtStart pc w u :
  currentSeq (startListeningForAnswer_resume seqAtStart pc w u).1 = currentSeq u.
Proof.
  destruct pc as [| | |[b|]| | | |], w; simpl; try done.
  - destruct (negb _); [done|]. by destruct (bool_decide _).
  - unfold applyChainOut. destruct (ok out); [|done].
    by destruct (bool_decide _).
Qed.

Lemma settle_ui x seqAtStart : ui (settle x seqAtStart) = x.1.
Proof. unfold settle. by destruct x.2. Qed.

Lemma pageStep_currentSeq e p :
  currentSeq (ui (pageStep e p))
  = currentSeq (ui p) + (if isTransition e then 1 else 0).
Proof.
  destruct e as [|w| |front|front]; simpl; try lia.
  - destruct (flow p); [lia|]. rewrite settle_ui.
    unfold startListeningForAnswer_enter. destruct (bool_decide _); simpl; lia.
  - destruct (flow p) as [[s pc]|]; [|lia].
    rewrite settle_ui, resume_currentSeq. lia.
Qed.

(** X5. The sequence counter counts the item transitions: whatever happens on
    the page, it has grown by the number of [handleStart] and [grade] calls
    that got their card, so it never goes down, and the record-answer flow
    never changes it. *)
Theorem sequence_counter_counts_transitions (evs : list PageEvent) (p : Page) :
  currentSeq (ui (pageRun evs p))
  = currentSeq (ui p) + Z.of_nat (length (filter (λ e, isTransition e = true) evs)) ∧
  currentSeq (ui p) ≤ currentSeq (ui (pageRun evs p)).
Proof.
  assert (H : currentSeq (ui (pageRun evs p))
              = currentSeq (ui p)
                + Z.of_nat (length (filter (λ e, isTransition e = true) evs))).
  { revert p. induction evs as [|e evs IH]; intros p; [simpl; lia|].
    simpl. rewrite IH, pageStep_currentSeq.
    destruct (isTransition e) eqn:He.
    - rewrite filter_cons_True by done. simpl length. lia.
    - rewrite filter_cons_False by (rewrite He; done). lia. }
  split; [done|]. rewrite H. lia.
Qed.

End SequenceCounter.

Section FlowMessages.
Import Review.

Lemma applyChainOut_length out u :
  (length (messages u) < length (messages (applyChainOut out u))
   ≤ length (messages u) + 2)%nat.
Proof.
  unfold applyChainOut, pushMessage.
  destruct (ok out); [destruct (bool_decide _)|]; simpl;
    rewrite ?length_app; simpl; lia.
Qed.

Lemma applyChainOut_messages out u u' :
  messages u = messages u' →
  messages (applyChainOut out u) = messages (applyChainOut out u').
Proof.
  intros H. unfold applyChainOut, pushMessage.
  destruct (ok out); [destruct (bool_decide _)|]; simpl; by rewrite H.
Qed.

Lemma wakes_without_flow ws u :
  pageRun (Woken <$> ws) (mkPage u None) = mkPage u None.
Proof. induction ws as [|w ws IH]; [done|]. simpl. apply IH. Qed.

(** Once past the answer of the chain, wakes change no message. *)
Lemma wakes_after_chain ws u s pc :
  pc = AtFinallyStop ∨ pc = Finished →
  messages (ui (pageRun (Woken <$> ws) (mkPage u (Some (s, pc))))) = messages u.
Proof.
  revert u pc. induction ws as [|w ws IH]; intros u pc Hpc; [done|].
  change (pageRun (Woken <$> w :: ws) (mkPage u (Some (s, pc))))
    with (pageRun (Woken <$> ws)
            (settle (startListeningForAnswer_resume s pc w u) s)).
  destruct Hpc as [-> | ->].
  - destruct w; try (apply IH; by left);
      change (settle _ s) with (mkPage u None); by rewrite wakes_without_flow.
  - replace (settle (startListeningForAnswer_resume s Finished w u) s)
      with (mkPage u None) by (by destruct w).
    by rewrite wakes_without_flow.
Qed.

(** With no blob, the flow goes to its [finally]. *)
Lemma wakes_from_empty_blob ws u s :
  messages (ui (pageRun (Woken <$> ws) (mkPage u (Some (s, AtStop None)))))
  = messages u.
Proof.
  revert u. induction ws as [|w ws IH]; intros u; [done|].
  change (pageRun (Woken <$> w :: ws) (mkPage u (Some (s, AtStop None))))
    with (pageRun (Woken <$> ws)
            (settle (startListeningForAnswer_resume s (AtStop None) w u) s)).
  destruct w; try apply IH.
  - apply (wakes_after_chain ws u s AtFinallyStop). by left.
  - apply (wakes_after_chain ws (setRecState idle u) s AtFinallyStop). by left.
Qed.

(** X6. One record-answer flow, whatever the promises it awaits do: it appends
    nothing, or exactly what the answer of [/api/review-chain] asks for, one
    message or two; it appends nothing when that answer never comes, and in
    particular when the recorder returned no blob. *)
Theorem record_flow_appends_only_the_review (p : Page) (ws : list Wake) :
  let p' := pageRun (Woken <$> ws) p in
  (messages (ui p') = messages (ui p) ∨
   ∃ out, WChain out ∈ ws ∧
          messages (ui p') = messages (applyChainOut out (ui p))) ∧
  (length (messages (ui p')) ≤ length (messages (ui p)) + 2)%nat ∧
  ((∀ out, WChain out ∉ ws) → messages (ui p') = messages (ui p)) ∧
  (∀ s ws', flow p = Some (s, AtRecord) → ws = WBlob None :: ws' →
     messages (ui p') = messages (ui p)).
Proof.
  intros p'.
  assert (Hmain : ∀ ws p,
    messages (ui (pageRun (Woken <$> ws) p)) = messages (ui p) ∨
    ∃ out, WChain out ∈ ws ∧
           messages (ui (pageRun (Woken <$> ws) p))
           = messages (applyChainOut out (ui p))).
  { clear. induction ws as [|w ws IH]; intros p; [by left|].
    destruct p as [u [[s pc]|]]; [|left; by rewrite wakes_without_flow].
    change (pageRun (Woken <$> w :: ws) (mkPage u (Some (s, pc))))
      with (pageRun (Woken <$> ws)
              (settle (startListeningForAnswer_resume s pc w u) s)).
    cbn [ui].
    assert (pc = AtChain ∨ pc ≠ AtChain) as [->|Hpc]
      by (destruct pc; try (right; discriminate); by left).
    - destruct w as [| | | |out| |].
      5:{ right. exists out. split; [by left|].
          apply (wakes_after_chain ws (applyChainOut out u) s AtFinallyStop).
          by left. }
      2:{ left.
          apply (wakes_after_chain ws (setRecState idle u) s AtFinallyStop).
          by left. }
      all: destruct (IH (mkPage u (Some (s, AtChain)))) as [IH1|(o & Ho & IH1)];
        [left; exact IH1|right; exists o; split; [by right|exact IH1]].
    - pose proof (resume_messages s pc w u Hpc) as Hm.
      pose proof (settle_ui (startListeningForAnswer_resume s pc w u) s) as Hu.
      destruct (IH (settle (startListeningForAnswer_resume s pc w u) s))
        as [IH1|(o & Ho & IH1)].
      + left. etrans; [exact IH1|]. rewrite Hu. exact Hm.
      + right. exists o. split; [by right|]. etrans; [exact IH1|].
        apply applyChainOut_messages. rewrite Hu. exact Hm. }
  split_and!.
  - apply Hmain.
  - destruct (Hmain ws p) as [H|(o & _ & H)]; fold p' in H; rewrite H; [lia|].
    apply applyChainOut_length.
  - intros Hno. destruct (Hmain ws p) as [H|(o & Ho & _)]; [exact H|].
    by destruct (Hno o).
  - intros s ws' Hflow ->. destruct p as [u fl]. simpl in Hflow. subst fl.
    apply (wakes_from_empty_blob ws' (setRecState idle u) s).
Qed.

(** A capture that heard nothing. *)
Lemma record_flow_silent_when_no_speech :
  let p := pageRun [Started "<p>Card 1</p>"; RecordPressed; Woken WDone; Woken WDone]
                   initPage in
  flow p = Some (1, AtRecord) ∧
  messages (ui (pageRun (Woken <$> [WBlob None; WDone; WDone]) p))
  = messages (ui p).
Proof.
  intros p.
  destruct (record_flow_appends_only_the_review p [WBlob None; WDone; WDone])
    as (_ & _ & _ & Hnone).
  split; [reflexivity|]. by apply (Hnone 1 [WDone; WDone]).
Defined.

End FlowMessages.

(** ** The recording indicator *)

Section RecordingIndicator.
Import Review ReviewEvents.

Lemma pageStep_indicator e p : indicatorInv p → indicatorInv (pageStep e p).
Proof.
  unfold indicatorInv. destruct p as [[seq msgs rs] fl]. cbn. intros Hp.
  destruct e as [|w| |frontHTML|frontHTML]; cbn [pageStep flow ui]; try done.
  - destruct fl as [[s pc]|]; [done|].
    unfold startListeningForAnswer_enter.
    case_bool_decide; cbn; intros Hrec; by destruct (Hp Hrec).
  - destruct fl as [[s pc]|]; [|done].
    assert (Hidle : pc ≠ AtRecord → rs = idle).
    { intros Hpc. destruct rs; [done|..];
        (destruct Hp as [s' Hs']; [done|congruence]). }
    destruct pc as [| | |blob| | | |]; try rewrite Hidle in * by done;
      destruct w as [| |blob'|url|out| |]; try destruct blob;
      unfold settle, applyChainOut; cbn;
      repeat case_match; cbn; try done; eauto.
    unfold applyChainOut. by repeat case_match.
Qed.

(** X7. Whatever is pressed and however the awaited calls settle, the page
    shows "Listening…" or "Recording…" only while a record flow waits for
    the utterance; once the flow has gone on or ended, [recState] is idle. *)
Theorem indicator_only_while_waiting_for_the_utterance (evs : list PageEvent) :
  let p := pageRun evs initPage in
  recState (ui p) ≠ idle → ∃ seqAtStart, flow p = Some (seqAtStart, AtRecord).
Proof.
  cbn zeta.
  assert (H : ∀ p, indicatorInv p → indicatorInv (pageRun evs p)).
  { induction evs as [|e evs IH]; intros p Hp; [done|].
    cbn. by apply IH, pageStep_indicator. }
  apply H. by intros Hrec.
Qed.

Lemma indicator_on_during_the_utterance :
  ∃ seqAtStart,
    flow (pageRun [Started "<p>Card 1</p>"; RecordPressed; Woken WDone;
                   Woken WDone; Woken WStartRecording] initPage)
    = Some (seqAtStart, AtRecord).
Proof.
  by apply (indicator_only_while_waiting_for_the_utterance
              [Started "<p>Card 1</p>"; RecordPressed; Woken WDone;
               Woken WDone; Woken WStartRecording]).
Defined.

End RecordingIndicator.

(** ** The start of the recording *)

Section RecorderStart.
Import Stt SttRuns.

Lemma noRunFrom_cons_loud n thr s e es :
  loud thr e = true → (s + 1 < n)%nat → noRunFrom n thr (s + 1) es →
  noRunFrom n thr s (e :: es).
Proof.
  intros He Hs [Hrun Hk]. split.
  - cbn [hasLoudRun]. rewrite Hrun, orb_false_r. unfold loudPrefix.
    destruct (n <=? length (e :: es))%nat eqn:Hlen; [|done].
    apply Nat.leb_le in Hlen. cbn [length] in Hlen. rewrite andb_true_l.
    destruct n as [|n]; [lia|]. cbn [take forallb]. rewrite He, andb_true_l.
    apply Hk; lia.
  - intros k Hks Hlen. cbn [length] in Hlen.
    destruct k as [|k]; [lia|]. cbn [take forallb]. rewrite He, andb_true_l.
    apply Hk; lia.
Qed.

Lemma noRunFrom_cons_quiet n thr s e es :
  loud thr e = false → (s < n)%nat → noRunFrom n thr 0 es →
  noRunFrom n thr s (e :: es).
Proof.
  intros He Hs [Hrun Hk]. split.
  - cbn [hasLoudRun]. rewrite Hrun, orb_false_r. unfold loudPrefix.
    destruct n as [|n]; [lia|]. cbn [take forallb]. rewrite He.
    apply andb_false_r.
  - intros k Hks Hlen. destruct k as [|k]; [lia|].
    cbn [take forallb]. by rewrite He.
Qed.

Lemma reachesStart_noRunFrom n thr es s :
  (s < n)%nat → reachesStart n thr s es = false ↔ noRunFrom n thr s es.
Proof.
  revert s. induction es as [|e es IH]; intros s Hs.
  - split; [|done]. intros _. split.
    + cbn. unfold loudPrefix. destruct n; [lia|]. done.
    + intros k Hk Hlen. cbn [length] in Hlen. lia.
  - cbn [reachesStart]. destruct (loud thr e) eqn:He.
    + split.
      * intros [Hn Hr]%orb_false_elim. apply Nat.leb_gt in Hn.
        apply noRunFrom_cons_loud; [done|lia|]. apply IH; [lia|done].
      * intros [Hn Hr]%noRunFrom_loud; [|done].
        apply orb_false_intro; [apply Nat.leb_gt; lia|]. apply IH; [lia|done].
    + split.
      * intros Hr. apply noRunFrom_cons_quiet; [done..|]. apply IH; [lia|done].
      * intros Hr%noRunFrom_quiet. apply IH; [lia|done].
Qed.

Lemma reachesStart_hasLoudRun n thr es :
  (0 < n)%nat → reachesStart n thr 0 es = hasLoudRun n thr es.
Proof.
  intros Hn. destruct (hasLoudRun n thr es) eqn:Hrun.
  - destruct (reachesStart n thr 0 es) eqn:Hr; [done|].
    apply reachesStart_noRunFrom in Hr as [Hr _]; [congruence|done].
  - apply reachesStart_noRunFrom; [done|]. by apply hasLoudRun_noRunFrom.
Qed.

(** Animation frames neither end a recording nor call back. *)
Lemma tick_recording cfg energy now c :
  recording c = true →
  recording (tick cfg energy now c) = true ∧
  callbacks (tick cfg energy now c) = callbacks c.
Proof.
  intros Hrec. unfold tick, forceStop. rewrite Hrec.
  repeat (case_match; simpl); done.
Qed.

Lemma frames_recording cfg l c :
  recording c = true →
  recording (runCapture cfg (frames l) c) = true ∧
  callbacks (runCapture cfg (frames l) c) = callbacks c.
Proof.
  revert c. induction l as [|x l IH]; intros c Hrec; [done|].
  change (runCapture cfg (frames (x :: l)) c)
    with (runCapture cfg (frames l) (stepCapture cfg (Frame x.1 x.2) c)).
  assert (recording (stepCapture cfg (Frame x.1 x.2) c) = true ∧
          callbacks (stepCapture cfg (Frame x.1 x.2) c) = callbacks c)
    as [H1 H2].
  { simpl. destruct (scheduled c); try done. by apply tick_recording. }
  destruct (IH _ H1) as [H3 H4]. split; [done|]. by rewrite H4.
Qed.

(** Before the recording, [tick] counts the loud readings in a row. *)
Lemma frames_before_recording cfg t0 l c s :
  polling c → recording c = false → startedAt c = t0 →
  speakingFrames c = Z.of_nat s →
  (s < Z.to_nat (cfg_startFrames cfg))%nat →
  Forall (λ x, overtime cfg t0 x.2 = false) l →
  let c' := runCapture cfg (frames l) c in
  let heard := reachesStart (Z.to_nat (cfg_startFrames cfg))
                            (cfg_rmsThreshold cfg) s l.*1 in
  recording c' = heard ∧
  callbacks c' = callbacks c ++ (if heard then [OnStartRecording] else []).
Proof.
  revert c s. induction l as [|x l IH]; intros c s Hpoll Hrec Ht0 Hs Hlt Hover.
  { simpl. by rewrite app_nil_r. }
  apply Forall_cons in Hover as [Hx Hover].
  destruct Hpoll as (Hsched & Hrun & Han & Hprom).
  change (runCapture cfg (frames (x :: l)) c)
    with (runCapture cfg (frames l) (stepCapture cfg (Frame x.1 x.2) c)).
  cbn [fmap list_fmap reachesStart]. fold (@fmap list _ _ _ (@fst Q Q) l).
  cbn [stepCapture]. rewrite Hsched. unfold tick.
  rewrite Hrun, Han, Hrec, Ht0, Hx, Hs. cbn [negb orb].
  destruct (loud (cfg_rmsThreshold cfg) x.1) eqn:Hloud.
  - destruct (Z.of_nat s + 1 >=? cfg_startFrames cfg) eqn:Hge.
    + assert ((Z.to_nat (cfg_startFrames cfg) <=? s + 1)%nat = true) as ->
        by (apply Nat.leb_le; lia).
      cbn [orb]. by apply frames_recording.
    + assert ((Z.to_nat (cfg_startFrames cfg) <=? s + 1)%nat = false) as ->
        by (apply Nat.leb_gt; lia).
      cbn [orb].
      refine (IH (mkCapture _ _ _ _ _ _ _ _ _ _ _) (s + 1)%nat _ _ _ _ _ _);
        simpl; try done; lia.
  - destruct (0 >=? cfg_startFrames cfg) eqn:Hge; [lia|].
    refine (IH (mkCapture _ _ _ _ _ _ _ _ _ _ _) 0%nat _ _ _ _ _ _);
      simpl; try done; lia.
Qed.

(** X8. With the frames all before the ceiling, the recording has started
    exactly when some [startFrames] consecutive readings were above the
    threshold, and [onStartRecording] has then been called once and
    [onStopRecording] not at all. *)
Theorem recording_starts_iff_loud_run
    (cfg : Config) (t0 : Q) (readings : list (Q * Q)) :
  1 ≤ cfg_startFrames cfg →
  Forall (λ x, overtime cfg t0 x.2 = false) readings →
  let c := runCapture cfg (frames readings)
             (recordOneUtterance cfg t0 startedSpeechOnce idleRecorder) in
  let heard := hasLoudRun (Z.to_nat (cfg_startFrames cfg))
                          (cfg_rmsThreshold cfg) readings.*1 in
  recording c = heard ∧
  callbacks c = (if heard then [OnStartRecording] else []).
Proof.
  intros Hn Hover c heard. subst c heard.
  rewrite <- reachesStart_hasLoudRun by lia.
  refine (frames_before_recording cfg t0 readings
            (recordOneUtterance cfg t0 startedSpeechOnce idleRecorder) 0
            _ _ _ _ _ Hover); try done; lia.
Qed.

Lemma recording_starts_after_four_loud :
  let cfg := resolveOpts appOpts in
  let readings :=
    (λ e, (e, 10%Q)) <$> [0%Q; 0.05%Q; 0.06%Q; 0%Q; 0.05%Q; 0.06%Q; 0.07%Q;
                          0.08%Q; 0%Q] in
  let c := runCapture cfg (frames readings) appCapture in
  recording c = true ∧ callbacks c = [OnStartRecording].
Proof.
  intros cfg readings.
  apply (recording_starts_iff_loud_run cfg 0 readings); [done|].
  repeat constructor.
Defined.

End RecorderStart.

(** ** The callbacks and the promise *)

Section RecorderCallbacks.
Import Stt SttRuns.

Lemma recordOneUtterance_callbackInv cfg now i m :
  callbackInv (recordOneUtterance cfg now i m).
Proof.
  unfold recordOneUtterance.
  destruct (negb (_running i) || negb (_analyser i) || negb (_rec i));
    (constructor; simpl; [by exists false|done|done]).
Qed.

Lemma blobSize_positive chunks :
  chunks ≠ [] → Forall (λ n, (0 < n)%N) chunks → (0 < blobSize chunks)%N.
Proof.
  intros Hne Hpos. destruct Hpos as [|n l Hn Hl]; [done|].
  cbn [blobSize fold_right]. lia.
Qed.

Lemma ondataavailable_positive size i :
  Forall (λ n, (0 < n)%N) (_chunks i) →
  Forall (λ n, (0 < n)%N) (_chunks (ondataavailable size i)).
Proof.
  intros Hpos. unfold ondataavailable.
  destruct (N.ltb_spec 0 size); [|done]. simpl.
  apply Forall_app. split; [done|]. by constructor.
Qed.

Lemma tick_callbackInv cfg energy now c :
  callbackInv c → scheduled c = NextFrame → callbackInv (tick cfg energy now c).
Proof.
  intros [(stopped & Hshape & Hstop) Hblob Hchunks] Hsch.
  assert (stopped = false) as ->.
  { destruct stopped; [|done]. destruct (Hstop eq_refl) as [? _]. congruence. }
  rewrite app_nil_r in Hshape. clear Hstop.
  assert (Hpos : Forall (λ n, (0 < n)%N) (_chunks (inst c)))
    by (apply Hchunks; congruence).
  assert (Hkeep : ∀ n cbs, promise c = Resolved (Some n) →
                    OnStopRecording ∈ callbacks c ++ cbs ∧ (0 < n)%N).
  { intros n cbs [Hin Hn]%Hblob. split; [|done]. apply elem_of_app. by left. }
  unfold tick, forceStop.
  destruct (negb (_running (inst c)) || negb (_analyser (inst c))).
  { constructor; simpl; [|done|done]. exists false. by rewrite app_nil_r. }
  destruct (recording c) eqn:Hrec; cbn [negb].
  - repeat case_match; (constructor; simpl; [|done|by intros]);
      exists false; by rewrite Hshape.
  - destruct (_ >=? cfg_startFrames cfg);
      destruct (overtime cfg (startedAt c) now);
      (constructor; simpl; [|by auto|by intros]);
      exists false; by rewrite Hshape.
Qed.

Lemma stepCapture_callbackInv cfg e c :
  callbackInv c → callbackInv (stepCapture cfg e c).
Proof.
  intros Hinv. pose proof Hinv as [(stopped & Hshape & Hstop) Hblob Hchunks].
  destruct e as [energy now|n| | | | |]; simpl.
  - destruct (scheduled c) eqn:Hsch; [by apply tick_callbackInv|done..].
  - constructor; simpl; [by exists stopped|done..].
  - constructor; simpl; [by exists stopped|done..].
  - destruct (mr_events (mr c)) as [|size rest]; [done|].
    constructor; simpl; [by exists stopped|done|].
    intros Hsch. by apply ondataavailable_positive, Hchunks.
  - destruct (scheduled c) eqn:Hsch; try done.
    assert (stopped = false) as ->.
    { destruct stopped; [|done]. destruct (Hstop eq_refl) as [? _]. congruence. }
    rewrite app_nil_r in Hshape.
    unfold finalize.
    assert (Hpos : Forall (λ n, (0 < n)%N) (_chunks (inst c)))
      by (apply Hchunks; congruence).
    set (chunks := _chunks (inst c)) in *.
    destruct (_rec (inst c)); constructor; simpl; try done.
    + exists true. split; [by rewrite Hshape|]. intros _. split; [done|].
      eauto.
    + intros n Hn. split; [apply elem_of_app; right; apply list_elem_of_here|].
      destruct chunks as [|n0 l]; [done|].
      injection Hn as <-. by apply (blobSize_positive (n0 :: l)).
    + exists false. by rewrite app_nil_r.
  - constructor; simpl; [by exists stopped|done..].
  - constructor; simpl; [by exists stopped|done..].
Qed.

Lemma runCapture_callbackInv cfg evs c :
  callbackInv c → callbackInv (runCapture cfg evs c).
Proof.
  revert c. induction evs as [|e evs IH]; intros c Hc; [done|].
  simpl. by apply IH, stepCapture_callbackInv.
Qed.

(** X9. Whatever the instance, the recorder and the events (frames,
    recorder events, the timer, [stop()]): [onStartRecording] is called at
    most once and exactly when the capture has started recording;
    [onStopRecording] is called at most once, after it, and only by the
    timer callback that resolves the promise; and a blob the promise
    delivers is never empty. *)
Theorem callbacks_at_most_once
    (cfg : Config) (t0 : Q) (i : SpeechOnce) (m : MediaRecorder) (evs : list Ev) :
  let c := runCapture cfg evs (recordOneUtterance cfg t0 i m) in
  (callbacks c = [] ∨ callbacks c = [OnStartRecording] ∨
   callbacks c = [OnStopRecording] ∨
   callbacks c = [OnStartRecording; OnStopRecording]) ∧
  (OnStartRecording ∈ callbacks c ↔ recording c = true) ∧
  (OnStopRecording ∈ callbacks c →
   scheduled c = Nothing ∧ ∃ blob, promise c = Resolved blob) ∧
  (∀ n, promise c = Resolved (Some n) →
        OnStopRecording ∈ callbacks c ∧ (0 < n)%N).
Proof.
  intros c.
  destruct (runCapture_callbackInv cfg evs _
              (recordOneUtterance_callbackInv cfg t0 i m))
    as [(stopped & Hshape & Hstop) Hblob _].
  fold c in Hshape, Hstop, Hblob.
  split_and!.
  - rewrite Hshape. destruct (recording c), stopped; auto.
  - rewrite Hshape. destruct (recording c), stopped; simpl; split;
      try done; try (intros _; apply list_elem_of_here);
      intros Hin;
      repeat match goal with H : _ ∈ _ |- _ => inversion H; subst; clear H end.
  - intros Hin. apply Hstop. destruct stopped; [done|].
    rewrite Hshape, app_nil_r in Hin.
    destruct (recording c);
      repeat match goal with H : _ ∈ _ |- _ => inversion H; subst; clear H end.
  - exact Hblob.
Qed.

End RecorderCallbacks.

(** ** One utterance, from the first frame to the blob *)

Section UtteranceCapture.
Import Stt SttRuns.

Lemma isFrame_inv cfg t0 above e :
  isFrame cfg t0 above e = true →
  ∃ energy now, e = Frame energy now ∧
    loud (cfg_rmsThreshold cfg) energy = above ∧ overtime cfg t0 now = false.
Proof.
  destruct e as [energy now| | | | | |]; try done. simpl.
  intros [Hl Ho]%andb_true_iff. exists energy, now.
  split_and!; [done|by apply bool_decide_eq_true in Hl|by apply negb_true_iff].
Qed.

(** Before any loud frame a started capture does not move: the recorder is
    inactive, so the audio is dropped. *)
Lemma before_speech_nothing_moves cfg t0 evs :
  1 ≤ cfg_startFrames cfg →
  Forall (λ e, beforeSpeech cfg t0 e = true) evs →
  runCapture cfg evs (recordOneUtterance cfg t0 startedSpeechOnce idleRecorder)
  = recordOneUtterance cfg t0 startedSpeechOnce idleRecorder.
Proof.
  intros Hn. induction 1 as [|e evs He _ IH]; [done|].
  change (runCapture cfg (e :: evs) ?c)
    with (runCapture cfg evs (stepCapture cfg e c)).
  replace (stepCapture cfg e _)
    with (recordOneUtterance cfg t0 startedSpeechOnce idleRecorder); [done|].
  apply orb_true_iff in He as [He|He].
  - by destruct e.
  - apply isFrame_inv in He as (energy & now & -> & Hl & Ho).
    cbn. unfold tick. cbn. rewrite Hl, Ho.
    destruct (Z.geb_spec 0 (cfg_startFrames cfg)); [lia|done].
Qed.

(** [startFrames] loud frames in a row start the recorder. *)
Lemma loud_run_starts cfg t0 l s :
  0 ≤ s → l ≠ [] → s + Z.of_nat (length l) = cfg_startFrames cfg →
  Forall (λ x, loud (cfg_rmsThreshold cfg) x.1 = true) l →
  Forall (λ x, overtime cfg t0 x.2 = false) l →
  runCapture cfg (frames l)
    (mkCapture startedSpeechOnce idleRecorder s 0 false t0 NextFrame Pending
               [] [] 0)
  = mkCapture startedSpeechOnce (mkRecorder true 0 []) (cfg_startFrames cfg) 0
              true t0 NextFrame Pending [CallStart 250] [OnStartRecording] 0.
Proof.
  revert s. induction l as [|x l IH]; intros s Hs Hne Hlen Hloud Hover; [done|].
  apply Forall_cons in Hloud as [Hx Hloud].
  apply Forall_cons in Hover as [Ho Hover].
  change (runCapture cfg (frames (x :: l)) ?c)
    with (runCapture cfg (frames l) (stepCapture cfg (Frame x.1 x.2) c)).
  cbn [length] in Hlen. cbn. unfold tick. cbn. rewrite Hx, Ho.
  destruct l as [|y l].
  - cbn [length] in Hlen.
    destruct (Z.geb_spec (s + 1) (cfg_startFrames cfg)); [|lia].
    cbn. f_equal. lia.
  - cbn [length] in Hlen.
    destruct (Z.geb_spec (s + 1) (cfg_startFrames cfg)); [lia|].
    apply IH; try done; cbn [length]; lia.
Qed.

Lemma recordingInv_start cfg t0 :
  1 ≤ cfg_startFrames cfg →
  recordingInv t0 0
    (mkCapture startedSpeechOnce (mkRecorder true 0 []) (cfg_startFrames cfg) 0
               true t0 NextFrame Pending [CallStart 250] [OnStartRecording] 0).
Proof. by constructor. Qed.

(** During the utterance the recorder keeps running and gathers every byte
    the encoder delivers; only a 250 ms boundary queues an event. *)
Lemma during_speech_step cfg t0 e c :
  1 ≤ cfg_endFrames cfg →
  duringSpeech cfg t0 e = true → recordingInv t0 0 c →
  recordingInv t0 0 (stepCapture cfg e c) ∧
  captured (stepCapture cfg e c) = (captured c + audioBytes [e])%N ∧
  (length (mr_events (mr (stepCapture cfg e c)))
   ≤ length (mr_events (mr c)) + timeslices [e])%nat.
Proof.
  intros Hend He [Hpoll Hrec Hrecg Hmr Hsil Ht0 Hcbs Hcalls].
  pose proof Hpoll as (Hsch & Hrun & Han & Hprom).
  apply orb_true_iff in He as [He|He].
  - destruct e as [|n| | | | |]; try done; cbn.
    + unfold mr_audio. rewrite Hmr. split_and!; [by constructor|lia|cbn; lia].
    + unfold mr_requestData. rewrite Hmr.
      split_and!; [by constructor|lia|cbn; rewrite length_app; cbn; lia].
    + destruct (mr_events (mr c)) as [|size rest] eqn:Hev.
      { split_and!; [by constructor|lia|rewrite Hev; cbn; lia]. }
      destruct (ondataavailable_refs size (inst c)) as (Hr1 & Hr2 & Hr3).
      split_and!; [|cbn; lia|cbn; lia].
      constructor; cbn; try done; [|congruence].
      unfold polling; cbn. by rewrite Hr1, Hr2, Hrun, Han.
  - apply isFrame_inv in He as (energy & now & -> & Hl & Ho).
    cbn. rewrite Hsch. unfold tick.
    rewrite Hrun, Han, Hrecg, Hl, Ht0, Ho. cbn.
    destruct (Z.geb_spec 0 (cfg_endFrames cfg)); [lia|].
    split_and!; [by constructor|cbn; lia|cbn; lia].
Qed.

Lemma timeslices_cons e evs :
  timeslices (e :: evs) = (timeslices [e] + timeslices evs)%nat.
Proof. unfold timeslices. destruct e; cbn [fold_right]; lia. Qed.

Lemma audioBytes_cons e evs :
  audioBytes (e :: evs) = (audioBytes [e] + audioBytes evs)%N.
Proof. unfold audioBytes. destruct e; cbn [fold_right]; lia. Qed.

Lemma during_speech cfg t0 evs c :
  1 ≤ cfg_endFrames cfg →
  Forall (λ e, duringSpeech cfg t0 e = true) evs → recordingInv t0 0 c →
  recordingInv t0 0 (runCapture cfg evs c) ∧
  captured (runCapture cfg evs c) = (captured c + audioBytes evs)%N ∧
  (length (mr_events (mr (runCapture cfg evs c)))
   ≤ length (mr_events (mr c)) + timeslices evs)%nat.
Proof.
  intros Hend Hevs. revert c.
  induction Hevs as [|e evs He _ IH]; intros c Hc.
  { split_and!; [done|cbn; lia|cbn; lia]. }
  destruct (during_speech_step cfg t0 e c Hend He Hc) as (H1 & H2 & H2').
  destruct (IH _ H1) as (H3 & H4 & H4').
  change (runCapture cfg (e :: evs) c)
    with (runCapture cfg evs (stepCapture cfg e c)).
  split_and!; [done| |].
  - rewrite H4, H2, (audioBytes_cons e evs). lia.
  - rewrite (timeslices_cons e evs). lia.
Qed.

(** [endFrames] quiet frames in a row end in the forced stop. *)
Lemma quiet_run_stops cfg t0 l k c :
  0 ≤ k → l ≠ [] → k + Z.of_nat (length l) = cfg_endFrames cfg →
  Forall (λ x, loud (cfg_rmsThreshold cfg) x.1 = false) l →
  Forall (λ x, overtime cfg t0 x.2 = false) l →
  recordingInv t0 k c →
  let c' := runCapture cfg (frames l) c in
  scheduled c' = FinalizeTimer ∧ _rec (inst c') = true ∧
  calls c' = [CallStart 250; CallRequestData; CallStop] ∧
  callbacks c' = [OnStartRecording] ∧ captured c' = captured c ∧
  length (mr_events (mr c')) = (length (mr_events (mr c)) + 2)%nat.
Proof.
  revert k c. induction l as [|x l IH];
    intros k c Hk Hne Hlen Hquiet Hover Hc; [done|].
  destruct Hc as [Hpoll Hrec Hrecg Hmr Hsil Ht0 Hcbs Hcalls].
  pose proof Hpoll as (Hsch & Hrun & Han & Hprom).
  apply Forall_cons in Hquiet as [Hx Hquiet].
  apply Forall_cons in Hover as [Ho Hover].
  change (runCapture cfg (frames (x :: l)) c)
    with (runCapture cfg (frames l) (stepCapture cfg (Frame x.1 x.2) c)).
  cbn [length] in Hlen. cbn [stepCapture]. rewrite Hsch. unfold tick.
  rewrite Hrun, Han, Hrecg, Hx, Ht0, Ho, Hsil. cbn [negb orb].
  destruct l as [|y l].
  - cbn [length] in Hlen.
    destruct (Z.geb_spec (k + 1) (cfg_endFrames cfg)); [|lia].
    cbn. unfold logRec, onRec, mr_stop, mr_requestData.
    rewrite Hrec, Hcalls, Hmr. cbn. rewrite !length_app. cbn.
    split_and!; try done. lia.
  - cbn [length] in Hlen.
    destruct (Z.geb_spec (k + 1) (cfg_endFrames cfg)); [lia|].

    refine (IH (k + 1) (mkCapture _ _ _ _ _ _ _ _ _ _ _) _ _ _ Hquiet Hover _);
      [lia|done|cbn [length]; lia|by constructor].
Qed.

(** The timer of a forced stop, on an instance that still has its recorder
    and with no event left in the queue: the blob holds what the encoder
    produced, and is [null] if that is nothing. *)
Lemma timer_delivers_captured cfg c :
  captureInv c → callbackInv c →
  scheduled c = FinalizeTimer → _rec (inst c) = true →
  mr_events (mr c) = [] →
  promise (stepCapture cfg Timer c)
  = Resolved (if (captured c =? 0)%N then None else Some (captured c)) ∧
  callbacks (stepCapture cfg Timer c) = callbacks c ++ [OnStopRecording] ∧
  calls (stepCapture cfg Timer c) = calls c.
Proof.
  intros [Hb Hidle Hfin _ _ _ _] [_ _ Hchunks] Hsch Hrec Hq.
  cbn [stepCapture]. rewrite Hsch. unfold finalize.
  rewrite Hrec. cbn. split; [|done].
  assert (Hcap : blobSize (_chunks (inst c)) = captured c).
  { rewrite (Hidle (Hfin Hsch)), Hq in Hb. cbn in Hb. lia. }
  assert (Hpos : Forall (λ n, (0 < n)%N) (_chunks (inst c)))
    by (apply Hchunks; congruence).
  destruct (_chunks (inst c)) as [|n l] eqn:Hc.
  - cbn in Hcap. by rewrite <- Hcap.
  - assert (0 < blobSize (n :: l))%N as Hlt by (by apply blobSize_positive).
    rewrite <- Hcap. by destruct (N.eqb_spec (blobSize (n :: l)) 0); [lia|].
Qed.

(** X10. One utterance. Before the speech only quiet frames and recorder
    events; [startFrames] loud frames; loud frames and recorder events; then
    [endFrames] quiet frames, the dispatch of the events that are queued,
    of which there are at most two more than 250 ms boundaries during the
    speech, and the timer. The promise resolves with a blob of exactly the
    bytes the encoder delivered after the start of the recording ([null] if
    there were none): what it delivered earlier is not part of it. The
    recorder saw [start(250)], [requestData()], [stop()], the caller
    [onStartRecording] then [onStopRecording]. *)
Theorem utterance_blob_is_speech_audio
    (cfg : Config) (t0 : Q) (before : list Ev) (run : list (Q * Q))
    (speech : list Ev) (quiet : list (Q * Q)) (k : nat) :
  1 ≤ cfg_startFrames cfg → 1 ≤ cfg_endFrames cfg →
  Forall (λ e, beforeSpeech cfg t0 e = true) before →
  Z.of_nat (length run) = cfg_startFrames cfg →
  Forall (λ x, loud (cfg_rmsThreshold cfg) x.1 = true) run →
  Forall (λ e, duringSpeech cfg t0 e = true) speech →
  Z.of_nat (length quiet) = cfg_endFrames cfg →
  Forall (λ x, loud (cfg_rmsThreshold cfg) x.1 = false) quiet →
  Forall (λ x, overtime cfg t0 x.2 = false) (run ++ quiet) →
  (timeslices speech + 2 ≤ k)%nat →
  let c := runCapture cfg
             (before ++ frames run ++ speech ++ frames quiet
              ++ repeat Dispatch k ++ [Timer])
             (recordOneUtterance cfg t0 startedSpeechOnce idleRecorder) in
  promise c = Resolved (if (audioBytes speech =? 0)%N then None
                        else Some (audioBytes speech)) ∧
  calls c = [CallStart 250; CallRequestData; CallStop] ∧
  callbacks c = [OnStartRecording; OnStopRecording].
Proof.
  intros Hn Hend Hbefore Hrunlen Hloud Hspeech Hqlen Hquiet Hover Hk c.
  apply Forall_app in Hover as [Hover1 Hover2].
  set (c0 := recordOneUtterance cfg t0 startedSpeechOnce idleRecorder) in *.
  set (evs := before ++ frames run ++ speech ++ frames quiet).
  assert (Hc : c = stepCapture cfg Timer
                     (runCapture cfg (repeat Dispatch k) (runCapture cfg evs c0))).
  { subst c evs. rewrite <- runCapture_snoc, <- runCapture_app. f_equal.
    by rewrite <- !app_assoc. }
  assert (Hrun : runCapture cfg (before ++ frames run) c0
                 = mkCapture startedSpeechOnce (mkRecorder true 0 [])
                     (cfg_startFrames cfg) 0 true t0 NextFrame Pending
                     [CallStart 250] [OnStartRecording] 0).
  { unfold c0. rewrite runCapture_app, before_speech_nothing_moves by done.
    apply loud_run_starts; try done. intros ->. cbn in Hrunlen. lia. }
  assert (Hrecg0 : recordingInv t0 0 (runCapture cfg (before ++ frames run) c0))
    by (rewrite Hrun; by apply recordingInv_start).
  assert (Hcap0 : captured (runCapture cfg (before ++ frames run) c0) = 0%N)
    by (by rewrite Hrun).
  assert (Hq0 : mr_events (mr (runCapture cfg (before ++ frames run) c0)) = [])
    by (by rewrite Hrun).
  destruct (during_speech cfg t0 speech _ Hend Hspeech Hrecg0)
    as (Hrecg & Hcap & Hqueue).
  rewrite Hcap0, N.add_0_l in Hcap. rewrite Hq0 in Hqueue. cbn [length] in Hqueue.
  rewrite <- runCapture_app, <- app_assoc in Hrecg, Hcap, Hqueue.
  assert (Hqne : quiet ≠ []) by (intros ->; cbn in Hqlen; lia).
  assert (Hqlen' : 0 + Z.of_nat (length quiet) = cfg_endFrames cfg) by lia.
  pose proof (quiet_run_stops cfg t0 quiet 0 _ (Z.le_refl 0) Hqne Hqlen'
                Hquiet Hover2 Hrecg)
    as (Hsch & Hrec & Hcalls & Hcbs & Hsame & Hqueue').
  rewrite Hcap in Hsame.
  rewrite <- runCapture_app, <- !app_assoc in Hsch, Hrec, Hcalls, Hcbs, Hsame,
    Hqueue'.
  fold evs in Hsch, Hrec, Hcalls, Hcbs, Hsame, Hqueue'.
  destruct (dispatch_drains cfg k (runCapture cfg evs c0))
    as (Hq & Hsch' & Hrec' & _ & Hcalls' & Hcbs' & Hcap').
  { rewrite Hqueue'. lia. }
  set (c1 := runCapture cfg (repeat Dispatch k) (runCapture cfg evs c0)) in *.
  assert (Hinv : captureInv c1).
  { apply runCapture_inv, runCapture_inv, recordOneUtterance_inv. }
  assert (Hcb : callbackInv c1).
  { apply runCapture_callbackInv, runCapture_callbackInv,
      recordOneUtterance_callbackInv. }
  destruct (timer_delivers_captured cfg c1 Hinv Hcb)
    as (Hp & Hcb'' & Hcalls''); [congruence|congruence|done|].
  rewrite Hc, Hp, Hcb'', Hcalls''. by rewrite Hcap', Hsame, Hcalls', Hcalls, Hcbs', Hcbs.
Qed.

Lemma utterance_blob_drops_the_lead_in :
  let cfg := resolveOpts appOpts in
  let before := [Audio 300; Frame 0 5; Timeslice; Dispatch] in
  let run := (λ e, (e, 10%Q)) <$> [0.05%Q; 0.06%Q; 0.07%Q; 0.08%Q] in
  let speech := [Audio 100; Timeslice; Frame 0.09 15; Dispatch; Audio 50] in
  let quiet := (λ e, (e, 20%Q)) <$> repeat 0%Q 60 in
  let c := runCapture cfg
             (before ++ frames run ++ speech ++ frames quiet
              ++ repeat Dispatch 3 ++ [Timer])
             appCapture in
  promise c = Resolved (Some 150%N) ∧
  calls c = [CallStart 250; CallRequestData; CallStop] ∧
  callbacks c = [OnStartRecording; OnStopRecording].
Proof.
  intros cfg before run speech quiet.
  refine (utterance_blob_is_speech_audio cfg 0 before run speech quiet 3
            _ _ _ _ _ _ _ _ _ _).
  - by vm_compute.
  - by vm_compute.
  - repeat (apply Forall_cons; split; [vm_compute; reflexivity|]).
    apply Forall_nil. done.
  - vm_compute. reflexivity.
  - repeat (apply Forall_cons; split; [vm_compute; reflexivity|]).
    apply Forall_nil. done.
  - repeat (apply Forall_cons; split; [vm_compute; reflexivity|]).
    apply Forall_nil. done.
  - vm_compute. reflexivity.
  - repeat (apply Forall_cons; split; [vm_compute; reflexivity|]).
    apply Forall_nil. done.
  - repeat (apply Forall_cons; split; [vm_compute; reflexivity|]).
    apply Forall_nil. done.
  - cbn. lia.
Defined.

End UtteranceCapture.

(** ** The default of [endFrames] *)

Section DefaultEndFrames.
Import Binary64 Stt SttRuns.

Lemma Math_max_one m :
  (1 <= Math_max 1 m)%Q ∧
  ((1 <= m)%Q → Math_max 1 m = m) ∧ ((m < 1)%Q → Math_max 1 m = 1%Q).
Proof.
  unfold Math_max. destruct (Qle_bool 1 m) eqn:Hm.
  - apply Qle_bool_iff in Hm. split_and!; [done|done|]. intros Hlt.
    by apply Qlt_not_le in Hlt.
  - split_and!; [apply Qle_refl| |done]. intros Hle.
    apply Qle_bool_iff in Hle. congruence.
Qed.

Lemma Math_round_bounds q :
  (inject_Z (Math_round q) <= q + (1 # 2) ∧
   q + (1 # 2) < inject_Z (Math_round q) + 1)%Q.
Proof.
  unfold Math_round. split; [apply Qfloor_le|].
  pose proof (Qlt_floor (q + (1 # 2))) as H.
  by rewrite inject_Z_plus in H.
Qed.

Lemma Math_round_comp q q' : (q == q')%Q → Math_round q = Math_round q'.
Proof. intros H. unfold Math_round. apply Qfloor_comp. by rewrite H. Qed.

(** X11. With [endFrames] left out, the silence that ends an utterance is
    never less than one frame, and for a [frameMs] from 1 to 6000 it lasts,
    at [frameMs] a frame, 3000 ms to within half a frame and the rounding of
    the quotient, which shifts the product by at most [3000 * 2^-53]; a
    [frameMs] of at most 1 gives 3000 frames, one above 6000 a single
    frame. *)
Theorem default_endFrames_is_three_seconds (m : Q) :
  let n := inject_Z (defaultEndFrames m) in
  1 ≤ defaultEndFrames m ∧
  ((m <= 1)%Q → defaultEndFrames m = 3000) ∧
  ((1 <= m)%Q → (m <= 6000)%Q →
   (3000 - m / 2 - 3000 * 2 ^ (-53) < n * m)%Q ∧
   (n * m <= 3000 + m / 2 + 3000 * 2 ^ (-53))%Q) ∧
  ((6000 < m)%Q → defaultEndFrames m = 1).
Proof.
  intros n. subst n.
  change (defaultEndFrames m)
    with (Z.max 1 (Math_round (fdiv 3000 (Math_max 1 m)))).
  destruct (Math_max_one m) as (Hd & Hge & Hlt).
  destruct (Math_round_bounds (fdiv 3000 (Math_max 1 m))) as [Hlo Hhi].
  assert (Hhalf : representable (1 # 2)).
  { exists 1%Z, (-1)%Z. split_and!; done. }
  split_and!.
  - lia.
  - intros Hm. destruct (Qlt_le_dec m 1) as [Hm1|Hm1].
    + rewrite Hlt by done. by vm_compute.
    + rewrite Hge by done.
      assert (m == 1)%Q as Heq by (by apply Qle_antisym).
      assert (Hq : (fdiv 3000 m == 3000)%Q).
      { unfold fdiv. rewrite Heq. by vm_compute. }
      rewrite (Math_round_comp _ _ Hq). by vm_compute.
  - intros Hm1 Hm2. rewrite Hge in * by done.
    assert (0 < m)%Q as Hpos by (eapply Qlt_le_trans; [|exact Hm1]; done).
    assert (¬ m == 0)%Q as Hnz
      by (intros Hz; rewrite Hz in Hpos; by apply Qlt_irrefl in Hpos).
    assert (3000 / m * m == 3000)%Q as Hq by (field; done).
    assert ((1 # 2) <= 3000 / m)%Q as Hexact.
    { apply Qle_shift_div_l; [done|]. clear -Hm2. Lqa.lra. }
    assert (Hqhalf : ((1 # 2) <= fdiv 3000 m)%Q) by (by apply round64_ge).
    pose proof (round64_error (3000 / m)) as Herr.
    rewrite (Qabs_pos (3000 / m)) in Herr by (clear -Hexact; Lqa.lra).
    specialize (Herr ltac:(eapply Qle_trans; [|exact Hexact]; done)).
    apply Qabs_Qle_condition in Herr as [He1 He2].
    fold (fdiv 3000 m) in He1, He2.
    remember (fdiv 3000 m) as q eqn:Heqq. clear Heqq.
    remember (3000 / m)%Q as x eqn:Heqx. clear Heqx.
    assert (1 ≤ Math_round q) as Hone.
    { unfold Math_round. rewrite <- (Qfloor_Z 1) at 1.
      apply Qfloor_resp_le. change (inject_Z 1) with 1%Q. Lqa.lra. }
    rewrite Z.max_r by done.
    change (2 ^ (-53))%Q with (1 # 9007199254740992) in *.
    apply (Qmult_le_compat_r _ _ m) in Hlo; [|Lqa.lra].
    apply (Qmult_lt_compat_r _ _ m) in Hhi; [|done].
    apply (Qmult_le_compat_r _ _ m) in He1; [|Lqa.lra].
    apply (Qmult_le_compat_r _ _ m) in He2; [|Lqa.lra].
    assert (E1 : ((q + (1 # 2)) * m == q * m + (1 # 2) * m)%Q) by ring.
    assert (E2 : ((inject_Z (Math_round q) + 1) * m
                  == inject_Z (Math_round q) * m + m)%Q) by ring.
    assert (E3 : (- ((1 # 9007199254740992) * x) * m
                  == - ((1 # 9007199254740992) * 3000))%Q)
      by (rewrite <- Hq; ring).
    assert (E4 : ((1 # 9007199254740992) * x * m
                  == (1 # 9007199254740992) * 3000)%Q)
      by (rewrite <- Hq; ring).
    assert (E5 : ((q - x) * m == q * m - 3000)%Q) by (rewrite <- Hq; ring).
    rewrite E1 in Hlo, Hhi. rewrite E2 in Hhi.
    rewrite E3, E5 in He1. rewrite E4, E5 in He2.
    remember (inject_Z (Math_round q) * m)%Q as a eqn:Heqa.
    remember (q * m)%Q as b eqn:Heqb.
    assert (m / 2 == (1 # 2) * m)%Q as E6 by field.
    rewrite E6. clear -Hlo Hhi He1 He2. split; Lqa.lra.
  - intros Hm.
    assert (0 < m)%Q as Hpos by (clear -Hm; Lqa.lra).
    assert (1 <= m)%Q as Hm1 by (clear -Hm; Lqa.lra).
    rewrite Hge in * by done.
    assert (3000 / m <= 1 # 2)%Q as Hexact.
    { apply Qle_shift_div_r; [done|]. clear -Hm. Lqa.lra. }
    assert (Hq : (fdiv 3000 m <= 1 # 2)%Q) by (by apply round64_le).
    remember (fdiv 3000 m) as q eqn:Heqq. clear Heqq.
    assert (Math_round q ≤ 1) as Hzero.
    { assert (Math_round q < 2); [|lia].
      rewrite Zlt_Qlt. change (inject_Z 2) with 2%Q. Lqa.lra. }
    lia.
Qed.

(** 50 ms a frame gives 60 frames. At 6000/11 ms a frame the quotient
    computed is 5.5, the true one being a little less, and the frames are
    6. *)
Lemma default_endFrames_at_fifty_ms :
  defaultEndFrames 50 = 60 ∧ 1 ≤ defaultEndFrames 50 ∧
  (3000 - 50 / 2 - 3000 * 2 ^ (-53) < inject_Z (defaultEndFrames 50) * 50)%Q ∧
  (inject_Z (defaultEndFrames 50) * 50 <= 3000 + 50 / 2 + 3000 * 2 ^ (-53))%Q ∧
  defaultEndFrames (literal 5454545454545455 13) = 6.
Proof.
  destruct (default_endFrames_is_three_seconds 50) as (H1 & _ & H2 & _).
  destruct H2 as [H2 H3]; [done|done|]. split_and!; try done; by vm_compute.
Defined.

End DefaultEndFrames.

(** ** [ankiInvoke]: the retries *)

Section AnkiRetries.
Import Anki.
Context {V : Type}.

Lemma ankiInvoke_from_unfold retries (env : nat → Attempt V) i :
  ankiInvoke_from retries env i =
  match tryOnce (env i) with
  | inr result => (inr result, S i)
  | inl err =>
      match retries with
      | S retries' =>
          if transient (messageOf err) then ankiInvoke_from retries' env (S i)
          else (inl err, S i)
      | O => (inl err, S i)
      end
  end.
Proof. by destruct retries. Qed.

(** X12. [ankiInvoke] makes between one and [retries + 1] requests and ends
    with the outcome of the last one it made; every request before that one
    failed with a message that has "socket hang up", "ECONNRESET" or
    "timeout" in it; and if it stopped before using all its retries, its
    outcome is a result or an error without these words. *)
Theorem ankiInvoke_ends_at_first_settled_attempt
    (retries : nat) (env : nat → Attempt V) (i : nat) :
  let out := (ankiInvoke_from retries env i).1 in
  let n := (ankiInvoke_from retries env i).2 in
  (i < n ≤ i + retries + 1)%nat ∧
  out = tryOnce (env (n - 1)%nat) ∧
  (∀ j, (i ≤ j < n - 1)%nat →
        ∃ e, tryOnce (env j) = inl e ∧ transient (messageOf e) = true) ∧
  ((n ≤ i + retries)%nat →
   match out with
   | inl e => transient (messageOf e) = false
   | inr _ => True
   end).
Proof.
  revert i. induction retries as [|retries IH]; intros i; cbn zeta.
  - rewrite ankiInvoke_from_unfold.
    destruct (tryOnce (env i)) as [e|v] eqn:Hi; cbn [fst snd];
      replace (S i - 1)%nat with i by lia;
      (split; [lia|]; split_and!; [by rewrite Hi|intros; lia|intros; lia]).
  - rewrite ankiInvoke_from_unfold.
    destruct (tryOnce (env i)) as [e|v] eqn:Hi.
    + destruct (transient (messageOf e)) eqn:Ht.
      * destruct (IH (S i)) as (Hn & Hout & Hbefore & Hearly).
        split; [lia|]. split_and!; [done| |].
        -- intros j Hj. destruct (decide (j = i)) as [->|Hne]; [eauto|].
           apply Hbefore. lia.
        -- intros Hle. apply Hearly. lia.
      * cbn [fst snd]. replace (S i - 1)%nat with i by lia.
        split; [lia|]; split_and!; [by rewrite Hi|intros; lia|done].
    + cbn [fst snd]. replace (S i - 1)%nat with i by lia.
      split; [lia|]; split_and!; [by rewrite Hi|intros; lia|done].
Qed.

End AnkiRetries.

Section AnkiTransient.
Import Anki.
Context {V : Type}.

Lemma digits_string_of_uint d : digits (NilEmpty.string_of_uint d) = true.
Proof.
  induction d; [done|..];
    cbn [NilEmpty.string_of_uint digits]; by rewrite IHd.
Qed.

Lemma digits_decimal n : digits (decimal n) = true.
Proof.
  unfold decimal, NilZero.string_of_uint.
  destruct (N.to_uint n) eqn:Hn; try apply digits_string_of_uint. done.
Qed.

(** A pattern that starts with a letter is not found among digits. *)
Lemma includes_digits c pat s :
  isDigit c = false → digits s = true → includes (String c pat) s = false.
Proof.
  intros Hc. induction s as [|b s IH]; intros Hs; [done|].
  cbn [digits] in Hs. apply andb_true_iff in Hs as [Hb Hs].
  cbn [includes String.prefix].
  destruct (Ascii.ascii_dec c b) as [->|_]; [congruence|]. by apply IH.
Qed.

Lemma transient_http_status status :
  transient ("AnkiConnect HTTP " +:+ decimal status) = false.
Proof.
  pose proof (digits_decimal status) as Hd.
  unfold transient. simpl.
  change ("" +:+ decimal status) with (decimal status).
  by rewrite !includes_digits.
Qed.

Lemma transient_anki_error error :
  transient ("AnkiConnect: " +:+ error) = transient error.
Proof.
  unfold transient. by simpl.
Qed.

(** X13. Which answers of AnkiConnect are asked for again. An HTTP status
    outside 200..299 never is: the call throws "AnkiConnect HTTP <status>"
    after that one request. An error reported in the body is, as long as
    retries are left, exactly when its text has one of the three words in
    it. *)
Theorem ankiInvoke_retries_by_message
    (retries : nat) (env : nat → Attempt V) (i : nat) (status : N) (body : Body V) :
  env i = Responds status body →
  (ok status = false →
   ankiInvoke_from retries env i
   = (inl (Error ("AnkiConnect HTTP " +:+ decimal status)), S i)) ∧
  (∀ error result,
     ok status = true → body = Parsed (Some error) result →
     ankiInvoke_from (S retries) env i
     = if transient error then ankiInvoke_from retries env (S i)
       else (inl (Error ("AnkiConnect: " +:+ error)), S i)).
Proof.
  intros Henv. split.
  - intros Hok. rewrite ankiInvoke_from_unfold, Henv. cbn [tryOnce].
    rewrite Hok. cbn [negb].
    replace (messageOf (Error ("AnkiConnect HTTP " +:+ decimal status)))
      with ("AnkiConnect HTTP " +:+ decimal status) by done.
    rewrite transient_http_status. by destruct retries.
  - intros error result Hok ->. rewrite ankiInvoke_from_unfold, Henv.
    cbn [tryOnce]. rewrite Hok. cbn [negb].
    replace (messageOf (Error ("AnkiConnect: " +:+ error)))
      with ("AnkiConnect: " +:+ error) by done.
    by rewrite transient_anki_error.
Qed.

End AnkiTransient.

Section AnkiRetriesExample.
Import Anki.

Lemma ankiInvoke_gives_up_on_http_500 :
  let env := λ i : nat,
    if (i =? 0)%nat then Responds 200 (Parsed (Some "request timeout") 7)
    else Responds 500 (Parsed None 7) in
  ankiInvoke_from 1 env 1 = (inl (Error "AnkiConnect HTTP 500"), 2%nat) ∧
  ankiInvoke_from 2 env 0 = ankiInvoke_from 1 env 1.
Proof.
  intros env. split.
  - by apply (ankiInvoke_retries_by_message 1 env 1 500 (Parsed None 7)).
  - by apply (proj2 (ankiInvoke_retries_by_message 1 env 0 200 _ eq_refl)
                    "request timeout" 7).
Defined.

End AnkiRetriesExample.

(** ** [GET /api/candidates] *)

Section Candidates.
Import Anki.

Lemma clamp_floor q :
  let q' := (if Qle_bool 1 (if Qle_bool q 20 then q else 20)
             then (if Qle_bool q 20 then q else 20) else 1)%Q in
  truncate q' = Z.max 1 (Z.min 20 (Qfloor q)) ∧ 1 ≤ truncate q' ≤ 20.
Proof.
  assert (Hfl : ∀ z : Z, Qfloor (inject_Z z) = z) by apply Qfloor_Z.
  destruct (Qle_bool q 20) eqn:H20.
  - apply Qle_bool_iff in H20.
    assert (Qfloor q ≤ 20) as Hle.
    { rewrite <- (Hfl 20). by apply Qfloor_resp_le. }
    destruct (Qle_bool 1 q) eqn:H1; cbn zeta.
    + apply Qle_bool_iff in H1.
      assert (1 ≤ Qfloor q) as Hge.
      { rewrite <- (Hfl 1). by apply Qfloor_resp_le. }
      unfold truncate.
      assert (Qle_bool 0 q = true) as ->.
      { apply Qle_bool_iff. eapply Qle_trans; [|exact H1]. done. }
      lia.
    + assert (q < 1)%Q as Hlt.
      { apply Qnot_le_lt. intros Hq. apply Qle_bool_iff in Hq. congruence. }
      assert (Qfloor q < 1) as Hfloor.
      { rewrite Zlt_Qlt. eapply Qle_lt_trans; [apply Qfloor_le|exact Hlt]. }
      change (truncate 1) with 1. lia.
  - assert (20 < q)%Q as Hlt.
    { apply Qnot_le_lt. intros Hq. apply Qle_bool_iff in Hq. congruence. }
    assert (20 ≤ Qfloor q) as Hge.
    { rewrite <- (Hfl 20). apply Qfloor_resp_le. by apply Qlt_le_weak. }
    cbn zeta. change (truncate (if Qle_bool 1 20 then 20 else 1)%Q) with 20.
    lia.
Qed.

(** X14. Without a deck name the route answers 400 and asks AnkiConnect
    nothing. Otherwise a failure of [findCards] is answered with its message
    and a result with its first cards: 10 when no limit is given, else as
    many as the whole part of the limit brought into 1..20; never more than
    20, and, for a limit that is not a number, none at all. *)
Theorem candidates_are_a_bounded_prefix
    (deckName : string) (limit : option JsNumber)
    (env : nat → Attempt (option (list Z))) :
  (deckName = "" → candidates deckName limit env = (BadRequest, 0%nat)) ∧
  (deckName ≠ "" →
   (∀ e n, ankiInvoke env = (inl e, n) →
           candidates deckName limit env = (ServerError (messageOf e), n)) ∧
   (∀ found n, ankiInvoke env = (inr found, n) →
      let ids := default [] found in
      ∃ cs, candidates deckName limit env = (CardIds cs, n) ∧
            cs `prefix_of` ids ∧ (length cs ≤ 20)%nat ∧
            cs = match limit with
                 | None => take 10 ids
                 | Some NaN => []
                 | Some NegInfinity => take 1 ids
                 | Some (Finite q) =>
                     take (Z.to_nat (Z.max 1 (Z.min 20 (Qfloor q)))) ids
                 | Some Infinity => take 20 ids
                 end)).
Proof.
  split.
  - intros ->. done.
  - intros Hname. split.
    + intros e n He. unfold candidates.
      by rewrite bool_decide_eq_false_2, He.
    + intros found n Hfound ids. unfold candidates.
      rewrite bool_decide_eq_false_2, Hfound by done. fold ids.
      eexists. split; [done|].
      destruct limit as [[| |q|]|].
      * split_and!; [apply prefix_nil|cbn; lia|done].
      * change (sliceTo ids _) with (take 1 ids).
        split_and!; [apply prefix_take|rewrite length_take; lia|done].
      * cbn [default from_option Datatypes.id min20 max1 sliceTo].
        destruct (clamp_floor q) as [Heq Hrange]. cbn zeta in Heq, Hrange.
        destruct (Z.ltb_spec (truncate
                   (if Qle_bool 1 (if Qle_bool q 20 then q else 20)
                    then if Qle_bool q 20 then q else 20 else 1)%Q) 0);
          [lia|].
        rewrite Heq.
        split_and!; [apply prefix_take|rewrite length_take; lia|done].
      * change (sliceTo ids _) with (take 20 ids).
        split_and!; [apply prefix_take|rewrite length_take; lia|done].
      * change (sliceTo ids _) with (take 10 ids).
        split_and!; [apply prefix_take|rewrite length_take; lia|done].
Qed.

Lemma candidates_limit_not_a_number :
  let env := λ _ : nat, Responds 200 (Parsed None (Some [11; 12; 13])) in
  candidates "Default" (Some NaN) env = (CardIds [], 1%nat) ∧
  candidates "Default" (Some (Finite 2.7)) env = (CardIds [11; 12], 1%nat) ∧
  candidates "" (Some (Finite 5)) env = (BadRequest, 0%nat).
Proof.
  intros env.
  destruct (candidates_are_a_bounded_prefix "Default" (Some NaN) env)
    as [_ H1].
  destruct (H1 ltac:(done)) as [_ H2].
  destruct (H2 (Some [11; 12; 13]) 1%nat eq_refl) as (cs & Hcs & _ & _ & ->).
  split; [exact Hcs|]. split; [done|].
  by apply (candidates_are_a_bounded_prefix "" (Some (Finite 5)) env).
Defined.

End Candidates.

(** ** [POST /api/review-chain] *)

Section ReviewChainRoute.
Import Server ReviewChain.

Lemma approxBytes_threshold audio :
  1000000 ≤ approxBytes audio ↔ 1333333 ≤ Z.of_nat (length audio).
Proof.
  unfold approxBytes, Stt.Math_round.
  set (n := Z.of_nat (length audio)).
  assert (inject_Z n / 4 * 3 + (1 # 2) == (3 * n + 2) # 4)%Q as Hq.
  { unfold Qeq, Qdiv, Qmult, Qplus, Qinv, inject_Z. cbn. lia. }
  rewrite (Qfloor_comp _ _ Hq). unfold Qfloor. cbn.
  split; intros H; Z.div_mod_to_equations; lia.
Qed.

(** X15. The request of the record flow is never refused for a missing
    field: the front text sent is never empty, the placeholder standing in
    for a blank one, and the audio is the data URL. The server hands that
    data URL to the transcription as it is when it has fewer than 1333333
    characters, and uploads it first otherwise. *)
Theorem review_chain_accepts_the_client_request
    (dataUrl frontTxt audio front : list N) :
  chainPayload dataUrl frontTxt = Some (audio, front) →
  audio = dataUrl ∧ trim front ≠ [] ∧
  reviewChain (truthy audio) (truthy front)
  = Transcribe (if bool_decide (1333333 ≤ Z.of_nat (length dataUrl))
                then UploadedFile else DataUri).
Proof.
  unfold chainPayload. destruct (startsWith _ _) eqn:Hstart; [|done].
  intros [= <- <-].
  assert (Hfront : trim (frontOrPlaceholder frontTxt) ≠ []).
  { unfold frontOrPlaceholder. destruct (trim frontTxt) eqn:Ht; [done|].
    by rewrite Ht. }
  assert (Haudio : dataUrl ≠ []).
  { intros ->. by apply bool_decide_eq_true in Hstart. }
  split_and!; [done|done|].
  unfold reviewChain, truthy.
  destruct dataUrl as [|c dataUrl]; [done|].
  destruct (frontOrPlaceholder frontTxt) as [|c' front] eqn:Hf; [done|].
  destruct (Z.geb_spec (approxBytes (c :: dataUrl)) 1000000) as [Hge|Hlt].
  - apply approxBytes_threshold in Hge. by rewrite bool_decide_eq_true_2.
  - rewrite bool_decide_eq_false_2; [done|].
    intros Hlen. apply approxBytes_threshold in Hlen. lia.
Qed.

Lemma review_chain_accepts_a_blank_front :
  let dataUrl := codeUnits "data:audio/webm;base64,GkXf" in
  reviewChain (truthy dataUrl) (truthy (codeUnits "(front text missing)"))
  = Transcribe DataUri.
Proof.
  intros dataUrl.
  by destruct (review_chain_accepts_the_client_request dataUrl [32%N; 10%N]
                 dataUrl (codeUnits "(front text missing)") eq_refl)
    as (_ & _ & ->).
Defined.

End ReviewChainRoute.

(** ** The data URL of an upload *)

Section DataUrl.
Import Server ReviewChain.

Lemma span_spec f s :
  s = (span f s).1 ++ (span f s).2 ∧
  forallb f (span f s).1 = true ∧
  match (span f s).2 with
  | [] => True
  | c :: _ => f c = false
  end.
Proof.
  induction s as [|c s IH]; [done|]. cbn [span].
  destruct (f c) eqn:Hc; [|by cbn].
  destruct (span f s) as [run rest]. cbn [fst snd] in *.
  destruct IH as (Hs & Hrun & Hrest).
  split_and!; [cbn; by rewrite <- Hs|cbn; by rewrite Hc|done].
Qed.

Lemma span_app f run rest :
  forallb f run = true →
  match rest with
  | [] => True
  | c :: _ => f c = false
  end →
  span f (run ++ rest) = (run, rest).
Proof.
  intros Hrun Hrest. induction run as [|c run IH].
  - destruct rest as [|c rest]; [done|]. cbn. by rewrite Hrest.
  - cbn in Hrun |- *. apply andb_true_iff in Hrun as [-> Hrun].
    by rewrite IH.
Qed.

(** X16. The data URLs the upload accepts are exactly the strings
    [data:<type><parameters>,<base64>] with a type that is not empty and has
    no [;] or [,], parameters that are empty or start with [;] and have no
    [,], and a base64 part that is not empty and stays in the alphabet; the
    content type sent with the file is [<type>], the bytes are decoded from
    [<base64>]. *)
Theorem matchDataUrl_accepts_exactly
    (dataUrl contentType base64 : list N) :
  matchDataUrl dataUrl = Some (contentType, base64) ↔
  ∃ parameters,
    dataUrl = codeUnits "data:" ++ contentType ++ parameters ++ [44%N] ++ base64 ∧
    contentType ≠ [] ∧ forallb notSemicolonComma contentType = true ∧
    (parameters = [] ∨ ∃ rest, parameters = 59%N :: rest) ∧
    forallb notComma parameters = true ∧
    base64 ≠ [] ∧ forallb isBase64 base64 = true.
Proof.
  split.
  - unfold matchDataUrl. destruct (startsWith _ _) eqn:Hstart; [|done].
    apply bool_decide_eq_true in Hstart.
    pose proof (take_drop 5 dataUrl) as Hsplit.
    change (length (codeUnits "data:")) with 5%nat in Hstart.
    rewrite Hstart in Hsplit.
    destruct (span_spec notSemicolonComma (drop 5 dataUrl))
      as (Hs1 & Hrun1 & Hrest1).
    destruct (span notSemicolonComma (drop 5 dataUrl)) as [ct rest].
    cbn [fst snd] in *.
    destruct ct as [|c0 ct]; [done|].
    destruct (span_spec notComma rest) as (Hs2 & Hrun2 & Hrest2).
    destruct (span notComma rest) as [params rest2]. cbn [fst snd] in *.
    destruct rest2 as [|comma b64]; [done|].
    destruct b64 as [|b b64]; [done|].
    destruct (forallb isBase64 (b :: b64)) eqn:Hb64; [|done].
    intros [= <- <-]. exists params.
    assert (comma = 44%N) as ->.
    { unfold notComma in Hrest2. apply negb_false_iff, N.eqb_eq in Hrest2.
      done. }
    split_and!; try done.
    + by rewrite <- Hsplit, Hs1, Hs2.
    + destruct params as [|p params]; [by left|right].
      exists params. f_equal. subst rest. cbn in Hrest1, Hrun2.
      apply andb_true_iff in Hrun2 as [Hp _].
      unfold notSemicolonComma in Hrest1. unfold notComma in Hp.
      apply negb_false_iff, orb_true_iff in Hrest1 as [H|H];
        apply N.eqb_eq in H; [done|].
      subst p. done.
  - intros (params & -> & Hne & Hct & Hparams & Hnc & Hb & Hb64).
    unfold matchDataUrl.
    assert (startsWith (codeUnits "data:" ++ contentType ++ params ++ [44%N] ++ base64)
                       (codeUnits "data:") = true) as -> by done.
    change (drop 5 (codeUnits "data:" ++ ?x)) with x.
    rewrite (span_app notSemicolonComma contentType); [|done|].
    2:{ destruct Hparams as [->|[rest ->]]; done. }
    destruct contentType as [|c0 ct]; [done|].
    rewrite (span_app notComma params); [|done|done].
    cbn [snd app]. destruct base64 as [|b b64]; [done|]. by rewrite Hb64.
Qed.

Lemma matchDataUrl_webm_with_codec :
  matchDataUrl (codeUnits "data:audio/webm;codecs=opus;base64,GkXf+w==")
  = Some (codeUnits "audio/webm", codeUnits "GkXf+w==").
Proof.
  apply matchDataUrl_accepts_exactly.
  exists (codeUnits ";codecs=opus;base64"). split_and!; try done.
  right. by eexists.
Defined.

End DataUrl.

(** ** The cards to prefetch *)

Section PrefetchList.
Import App Anki Prefetch.

Lemma filter_all (cur : Z) (l : list Z) :
  cur ∉ l → filter (λ id, Some id ≠ Some cur) l = l.
Proof.
  induction l as [|x l IH]; [done|]. intros [Hne Hl]%not_elem_of_cons.
  rewrite filter_cons_True by congruence. by rewrite IH.
Qed.

Lemma filter_drops_one (cur : Z) (l : list Z) :
  NoDup l →
  (length l - 1 ≤ length (filter (λ id, Some id ≠ Some cur) l))%nat.
Proof.
  induction 1 as [|x l Hx Hnd IH]; [done|].
  destruct (decide (x = cur)) as [->|Hne].
  - rewrite filter_cons_False by (intros H; by apply H).
    rewrite filter_all by done. cbn. lia.
  - rewrite filter_cons_True by congruence. cbn. lia.
Qed.

Lemma take_filter_take (cur : Z) (l : list Z) :
  NoDup l →
  take 5 (filter (λ id, Some id ≠ Some cur) (take 10 l))
  = take 5 (filter (λ id, Some id ≠ Some cur) l).
Proof.
  intros Hnd. destruct (decide (length l ≤ 10)%nat) as [Hle|Hgt].
  { by rewrite (take_ge l 10). }
  rewrite <- (take_drop 10 l) at 2. rewrite filter_app.
  rewrite take_app_le; [done|].
  assert (Hnd10 : NoDup (take 10 l)).
  { apply (sublist_NoDup _ l); [done|apply sublist_take]. }
  pose proof (filter_drops_one cur (take 10 l) Hnd10) as Hlen.
  rewrite length_take in Hlen. lia.
Qed.

(** X17. The cards [warmPrefetch] goes through are the first five cards due
    in the deck other than the current one, in the order AnkiConnect lists
    them; if the deck name is empty or AnkiConnect fails there are none. *)
Theorem warmPrefetch_list_is_the_next_five
    (deckName : string) (current : Z) (env : nat → Attempt (option (list Z)))
    (found : list Z) (n : nat) :
  deckName ≠ "" → ankiInvoke env = (inr (Some found), n) → NoDup found →
  warmPrefetch_list deckName (Some current) env
  = take 5 (filter (λ id, id ≠ current) found) ∧
  warmPrefetch_list "" (Some current) env = [] ∧
  (length (warmPrefetch_list deckName (Some current) env) ≤ PREFETCH_COUNT)%nat.
Proof.
  intros Hname Hfound Hnd.
  assert (Hlist : warmPrefetch_list deckName (Some current) env
                  = take 5 (filter (λ id, Some id ≠ Some current) (take 10 found))).
  { unfold warmPrefetch_list, candidates.
    rewrite bool_decide_eq_false_2, Hfound by done. done. }
  split_and!.
  - rewrite Hlist, take_filter_take by done. f_equal.
    apply list_filter_iff. intros id. split; congruence.
  - done.
  - rewrite Hlist, length_take. unfold PREFETCH_COUNT. lia.
Qed.

Lemma warmPrefetch_list_skips_the_current_card :
  let env := λ _ : nat,
    Responds 200 (Parsed None (Some [11; 12; 13; 14; 15; 16; 17; 18; 19; 20; 21; 22])) in
  warmPrefetch_list "Default" (Some 12) env = [11; 13; 14; 15; 16].
Proof.
  intros env.
  destruct (warmPrefetch_list_is_the_next_five "Default" 12 env
              [11; 12; 13; 14; 15; 16; 17; 18; 19; 20; 21; 22] 1)
    as (-> & _ & _); try done.
  apply (bool_decide_unpack (NoDup _)). vm_compute. exact I.
Defined.

End PrefetchList.

(** ** The URL answered by [/api/tts] *)

Section TtsOutputUrl.
Import TtsOutput.

Lemma isHttp_not_empty s : isHttp s = true → s ≠ "".
Proof. by intros H ->. Qed.

(** The deep scan collects only [http(s)] URLs. *)
Lemma walk_http : ∀ v, Forall (λ u, isHttp u = true) (walk v).
Proof.
  fix IH 1. intros [|b|s|items|call props]; cbn [walk]; try done.
  - destruct (isHttp s) eqn:Hs; [by constructor|done].
  - induction items as [|x items IHitems]; [done|].
    cbn [flat_map]. apply Forall_app. split; [apply IH|apply IHitems].
  - induction props as [|[k x] props IHprops]; [done|].
    cbn [flat_map]. apply Forall_app. split; [apply IH|apply IHprops].
Qed.

Lemma nonEmpty_Some s u : nonEmpty s = Some u → s = Some u ∧ u ≠ "".
Proof.
  destruct s as [u'|]; [|done]. cbn. case_bool_decide; [done|].
  by intros [= <-].
Qed.

Lemma pickUrl_Some urls v :
  Forall (λ u, isHttp u = true) urls →
  pickUrl urls = Some v →
  ∃ u, v = VStr u ∧ u ∈ urls ∧ isHttp u = true ∧
       (isMp3 u = true ∨ Forall (λ u', isMp3 u' = false) urls).
Proof.
  intros Hhttp. unfold pickUrl.
  destruct (nonEmpty (List.find isMp3 urls)) as [u|] eqn:Hfind; cbn.
  - intros [= <-]. apply nonEmpty_Some in Hfind as [Hfind _].
    apply find_some in Hfind as [Hin Hmp3]. apply list_elem_of_In in Hin.
    exists u. split_and!; [done|done| |by left].
    by apply (proj1 (Forall_forall _ _) Hhttp).
  - destruct (nonEmpty (head urls)) as [u|] eqn:Hhead; cbn; [|done].
    intros [= <-]. apply nonEmpty_Some in Hhead as [Hhead _].
    destruct urls as [|u0 urls]; [done|]. injection Hhead as ->.
    exists u. split_and!; [done|apply list_elem_of_here| |right].
    + by apply Forall_cons in Hhttp as [? _].
    + destruct (List.find isMp3 (u :: urls)) as [m|] eqn:Hm.
      * apply find_some in Hm as [Hin Hmp3].
        cbn in Hfind. case_bool_decide as He; [|done]. subst m.
        apply list_elem_of_In in Hin.
        pose proof (proj1 (Forall_forall _ _) Hhttp _ Hin). done.
      * apply Forall_forall. intros u' Hin. apply list_elem_of_In in Hin.
        by apply (find_none _ _ Hm).
Qed.

(** X18. What [/api/tts] answers as [url] is truthy, and it is a string
    that is not empty unless the output of the model is an array, or an
    object whose [output] is an array: then it is the first element of that
    array whatever its type, and the other elements are not looked at. When
    it is the deep scan that finds it, it is an [http(s)] URL of the output,
    one with [.mp3] as its ending if the output has any. *)
Theorem tts_url_is_a_string_or_a_first_element (out v : Value) :
  ttsAnswer out = Url200 v →
  truthy v = true ∧
  ((∃ s, v = VStr s ∧ s ≠ "") ∨
   (∃ rest, out = VArr (v :: rest)) ∨
   (∃ call props rest,
      out = VObj call props ∧ prop props "output" = Some (VArr (v :: rest)))) ∧
  (returnedEarly out = None →
   ∃ u, v = VStr u ∧ u ∈ walk out ∧ isHttp u = true ∧
        (isMp3 u = true ∨ Forall (λ u', isMp3 u' = false) (walk out))).
Proof.
  unfold ttsAnswer.
  destruct (normalizeUrlFromOutput out) as [url|] eqn:Hn; [|done].
  destruct (truthy url) eqn:Ht; [|done]. intros [= <-].
  assert (Hstr : ∀ s, url = VStr s → s ≠ "") by (by intros s -> ->).
  unfold normalizeUrlFromOutput in Hn.
  split; [done|]. split.
  - destruct (returnedEarly out) as [early|] eqn:Hearly.
    + subst early. unfold returnedEarly in Hearly.
      destruct out as [|b|s|items|call props]; try done.
      * injection Hearly as <-. left. eauto.
      * destruct items as [|first rest]; [done|].
        destruct (truthy first); [|done]. injection Hearly as <-.
        right. left. eauto.
      * assert (Hrest :
          match match call with
                | Some _ => None
                | None => prop props "url"
                end,
                prop props "audio", prop props "output" with
          | Some (VStr url), _, _ => Some (Some (VStr url))
          | _, Some (VStr audio), _ => Some (Some (VStr audio))
          | _, _, Some (VArr (first :: rest)) =>
              if truthy first then Some (Some first) else None
          | _, _, _ => None
          end = Some (Some url) →
          (∃ s, url = VStr s ∧ s ≠ "") ∨
          (∃ rest, VObj call props = VArr (url :: rest)) ∨
          (∃ call' props' rest,
             VObj call props = VObj call' props' ∧
             prop props' "output" = Some (VArr (url :: rest)))).
        { intros H. repeat (case_match; simplify_eq; eauto 10). }
        destruct call as [call|]; [|by apply Hrest].
        destruct (fromUrlCall call) as [u|] eqn:Hcall; [|by apply Hrest].
        injection Hearly as <-. left.
        unfold fromUrlCall in Hcall.
        repeat (case_match; simplify_eq); eauto.
    + apply pickUrl_Some in Hn as (u & -> & _); [|apply walk_http].
      left. eauto.
  - intros Hscan. rewrite Hscan in Hn.
    by apply pickUrl_Some; [apply walk_http|].
Qed.

Lemma tts_url_can_be_an_object :
  ttsAnswer (VArr [VObj None [("size", VPrimitive true)];
                   VStr "https://replicate.delivery/out.mp3"])
  = Url200 (VObj None [("size", VPrimitive true)]) ∧
  truthy (VObj None [("size", VPrimitive true)]) = true.
Proof.
  split; [done|].
  by apply (tts_url_is_a_string_or_a_first_element
              (VArr [VObj None [("size", VPrimitive true)];
                     VStr "https://replicate.delivery/out.mp3"])
              (VObj None [("size", VPrimitive true)])).
Defined.

End TtsOutputUrl.

(** ** Conversations *)

Section ConversationInvariant.
Import Gpt.

Lemma startMessages_wellFormed system seed : wellFormed (startMessages system seed).
Proof.
  unfold startMessages. eexists _, _. split_and!; [done| |].
  - unfold orElse. destruct system as [s|]; [|done]. by case_bool_decide.
  - destruct seed as [s|]; [|done].
    case_bool_decide; [done|]. by repeat constructor.
Qed.

Lemma wellFormed_snoc messages m :
  wellFormed messages → role m ≠ System → wellFormed (messages ++ [m]).
Proof.
  intros (system & rest & -> & Hsys & Hrest) Hm.
  exists system, (rest ++ [m]). split_and!; [done|done|].
  apply Forall_app. split; [done|]. by constructor.
Qed.

Lemma push_length a m objs : length (push a m objs) = length objs.
Proof. unfold push. apply length_alter. Qed.

Lemma push_wellFormed a m objs :
  Forall wellFormed objs → role m ≠ System → Forall wellFormed (push a m objs).
Proof.
  intros Hobjs Hm. unfold push. apply Forall_alter; [done|].
  intros messages _. intros Hwf. by apply wellFormed_snoc.
Qed.

Lemma apply_inv op st : conversationsInv st → conversationsInv (apply op st).
Proof.
  intros [Hobjs Hsess Hpend]. destruct op as [sid system seed|sid|sid user|k reply].
  - constructor; cbn.
    + apply Forall_app. split; [done|].
      constructor; [apply startMessages_wellFormed|done].
    + intros sid' a. rewrite length_app. cbn.
      destruct (decide (sid = sid')) as [->|Hne].
      * rewrite lookup_insert_eq. intros [= <-]. lia.
      * rewrite lookup_insert_ne by done. intros Ha%Hsess. lia.
    + eapply Forall_impl; [done|]. intros a Ha. rewrite length_app. cbn in *. lia.
  - constructor; cbn; [done| |done].
    intros sid' a Ha. apply lookup_delete_Some in Ha as [_ Ha]. eauto.
  - cbn. unfold sendConversation_enter.
    destruct (sessions st !! sid) as [a|] eqn:Ha; [|done].
    constructor; cbn.
    + by apply push_wellFormed.
    + intros sid' a' Ha'. rewrite push_length. eauto.
    + apply Forall_app. split.
      * eapply Forall_impl; [done|]. intros a' Ha'. by rewrite push_length.
      * constructor; [|done]. rewrite push_length. eauto.
  - cbn. unfold sendConversation_resume.
    destruct (pending st !! k) as [a|] eqn:Ha; [|done].
    assert (Hlen : length (match reply with
                           | Some r => push a (mkMessage Assistant r) (objects st)
                           | None => objects st
                           end) = length (objects st)).
    { destruct reply; [apply push_length|done]. }
    constructor; cbn.
    + destruct reply; [by apply push_wellFormed|done].
    + intros sid' a' Ha'. rewrite Hlen. eauto.
    + rewrite Hlen. by apply Forall_delete.
Qed.

Lemma runOps_inv ops st : conversationsInv st → conversationsInv (runOps ops st).
Proof.
  revert st. induction ops as [|op ops IH]; intros st Hst; [done|].
  cbn. by apply IH, apply_inv.
Qed.

Lemma noConversations_inv : conversationsInv noConversations.
Proof. constructor; cbn; [done| |done]. intros sid a. by rewrite lookup_empty. Qed.

Lemma modelInput_wellFormed system rest :
  Forall (λ m, role m ≠ System) rest →
  modelInput (mkMessage System system :: rest) = (system, rest).
Proof.
  intros Hrest.
  assert (Hf : List.filter (λ m, negb (bool_decide (role m = System))) rest
               = rest).
  { induction Hrest as [|m rest Hm _ IH]; [done|].
    cbn [List.filter]. rewrite bool_decide_eq_false_2 by done.
    cbn [negb]. by rewrite IH. }
  unfold modelInput. cbn [List.find List.filter role content].
  rewrite bool_decide_eq_true_2 by done. cbn [negb]. by rewrite Hf.
Qed.

(** X19. Whatever conversations were started, reset and written to, in any
    order and with any replies or failures of the model: a call of
    [sendConversation] on a known session gives the model, as system
    prompt, the one system message the conversation was started with, which
    is never empty, and as messages all the others in order, ending with the
    new question; none of these has the role [system]. On an unknown session
    it throws and changes nothing. *)
Theorem send_passes_the_system_prompt_once
    (ops : list Op) (sessionId user : string) :
  let st := runOps ops noConversations in
  match conversation sessionId st with
  | None => sendConversation_enter sessionId user st = None
  | Some messages =>
      ∃ system rest st',
        messages = mkMessage System system :: rest ∧ system ≠ "" ∧
        Forall (λ m, role m ≠ System) rest ∧
        sendConversation_enter sessionId user st
        = Some (st', (system, rest ++ [mkMessage User user])) ∧
        conversation sessionId st' = Some (messages ++ [mkMessage User user])
  end.
Proof.
  intros st.
  pose proof (runOps_inv ops _ noConversations_inv) as [Hobjs Hsess _].
  fold st in Hobjs, Hsess.
  unfold conversation, sendConversation_enter.
  destruct (sessions st !! sessionId) as [a|] eqn:Ha; cbn; [|done].
  pose proof (Hsess _ _ Ha) as Hlt.
  destruct (lookup_lt_is_Some_2 _ _ Hlt) as [messages Hm]. rewrite Hm.
  destruct (proj1 (Forall_lookup _ _) Hobjs _ _ Hm)
    as (system & rest & -> & Hsys & Hrest).
  assert (Hpush : push a (mkMessage User user) (objects st) !! a
                  = Some ((mkMessage System system :: rest) ++ [mkMessage User user])).
  { unfold push. by rewrite list_lookup_alter_eq, Hm. }
  eexists system, rest, _. split_and!; [done|done|done| |].
  - rewrite Hpush. cbn [default from_option Datatypes.id app].
    rewrite modelInput_wellFormed; [done|].
    apply Forall_app. split; [done|]. by constructor.
  - cbn. by rewrite Ha.
Qed.

End ConversationInvariant.

Section ConversationReplies.
Import Gpt.

Lemma push_lookup a m objs messages :
  objs !! a = Some messages → push a m objs !! a = Some (messages ++ [m]).
Proof. intros Ha. unfold push. by rewrite list_lookup_alter_eq, Ha. Qed.

Lemma push_lookup_ne a b m objs : a ≠ b → push a m objs !! b = objs !! b.
Proof. intros Hne. unfold push. by rewrite list_lookup_alter_ne. Qed.

(** X20. A reply is appended to the conversation object the question was
    put in. With nothing in between, the conversation grows by the question
    and the reply; if the model fails, by the question alone. If the session
    is started again while the model is still answering, the new
    conversation holds its opening messages only, neither the question nor
    the late reply; if it is reset, there is no conversation. *)
Theorem reply_stays_in_its_conversation
    (ops : list Op) (sessionId user reply : string)
    (system seedContext : option string) (messages : list Message) :
  let st := runOps ops noConversations in
  let k := length (pending st) in
  let question := mkMessage User user in
  let answer := mkMessage Assistant reply in
  conversation sessionId st = Some messages →
  conversation sessionId
    (runOps [SendBegin sessionId user; SendEnd k (Some reply)] st)
  = Some (messages ++ [question; answer]) ∧
  conversation sessionId (runOps [SendBegin sessionId user; SendEnd k None] st)
  = Some (messages ++ [question]) ∧
  conversation sessionId
    (runOps [SendBegin sessionId user; Start sessionId system seedContext;
             SendEnd k (Some reply)] st)
  = Some (startMessages system seedContext) ∧
  conversation sessionId
    (runOps [SendBegin sessionId user; Reset sessionId; SendEnd k (Some reply)] st)
  = None.
Proof.
  intros st k question answer Hconv.
  pose proof (runOps_inv ops _ noConversations_inv) as [_ Hsess _].
  fold st in Hsess.
  unfold conversation in Hconv.
  destruct (sessions st !! sessionId) as [a|] eqn:Ha; [|done]. cbn in Hconv.
  pose proof (Hsess _ _ Ha) as Hlt.
  assert (Hk : (pending st ++ [a]) !! k = Some a).
  { subst k. by rewrite lookup_app_r, Nat.sub_diag. }
  assert (Hbegin : apply (SendBegin sessionId user) st
                   = mkConversations (push a question (objects st))
                                     (sessions st) (pending st ++ [a])).
  { cbn. unfold sendConversation_enter. by rewrite Ha. }
  pose proof (push_lookup a question _ _ Hconv) as Hq.
  split_and!.
  - cbn [runOps fold_left]. rewrite Hbegin.
    cbn. unfold sendConversation_resume. cbn. rewrite Hk.
    unfold conversation. cbn. rewrite Ha. cbn.
    rewrite (push_lookup a _ _ _ Hq). by rewrite <- app_assoc.
  - cbn [runOps fold_left]. rewrite Hbegin.
    cbn. unfold sendConversation_resume. cbn. rewrite Hk.
    unfold conversation. cbn. by rewrite Ha.
  - cbn [runOps fold_left]. rewrite Hbegin.
    cbn. unfold sendConversation_resume. cbn. rewrite Hk.
    unfold conversation. cbn. rewrite lookup_insert_eq. cbn.
    rewrite push_length, push_lookup_ne by lia.
    rewrite lookup_app_r by (rewrite push_length; lia).
    by rewrite push_length, Nat.sub_diag.
  - cbn [runOps fold_left]. rewrite Hbegin.
    cbn. unfold sendConversation_resume. cbn. rewrite Hk.
    unfold conversation. cbn. by rewrite lookup_delete_eq.
Qed.

Lemma reply_after_restart_is_dropped :
  let ops := [Start "s1" None (Some "Card front: Haus")] in
  let opening := startMessages None (Some "Card front: Haus") in
  conversation "s1"
    (runOps (ops ++ [SendBegin "s1" "Why?"; Start "s1" None None;
                     SendEnd 0 (Some "Because.")]) noConversations)
  = Some (startMessages None None) ∧
  conversation "s1"
    (runOps (ops ++ [SendBegin "s1" "Why?"; SendEnd 0 (Some "Because.")])
            noConversations)
  = Some (opening ++ [mkMessage User "Why?"; mkMessage Assistant "Because."]).
Proof.
  intros ops opening.
  destruct (reply_stays_in_its_conversation ops "s1" "Why?" "Because."
              None None opening eq_refl) as (H1 & _ & H3 & _).
  unfold runOps in *. rewrite !fold_left_app. split; [exact H3|exact H1].
Defined.

End ConversationReplies.

(** ** [extractFieldHTML] *)

Section FieldExtraction.
Import Server Sanitize.

Lemma contentOf_trim v s : contentOf v = Some s → trim s ≠ [].
Proof.
  destruct v as [s'|[s'|]|]; cbn; try done;
    destruct (trim s') eqn:Ht; try done; intros [= <-]; by rewrite Ht.
Qed.

Lemma field_entry fields k v : field fields k = Some v → (k, v) ∈ fields.
Proof.
  induction fields as [|[k' v'] fields IH]; [done|]. cbn.
  case_bool_decide as Hk.
  - intros [= <-]. subst k'. apply list_elem_of_here.
  - intros Hf. apply list_elem_of_further. by apply IH.
Qed.

Lemma firstSome_Some {A B} (f : A → option B) l y :
  firstSome f l = Some y → ∃ x, x ∈ l ∧ f x = Some y.
Proof.
  induction l as [|x l IH]; [done|]. cbn.
  destruct (f x) as [y'|] eqn:Hx.
  - intros [= <-]. exists x. split; [apply list_elem_of_here|done].
  - intros (x' & Hin & Hx')%IH. exists x'.
    split; [by apply list_elem_of_further|done].
Qed.

Lemma firstSome_None {A B} (f : A → option B) l :
  firstSome f l = None ↔ ∀ x, x ∈ l → f x = None.
Proof.
  induction l as [|x l IH]; cbn.
  - split; [|done]. intros _ x Hx. by apply elem_of_nil in Hx.
  - destruct (f x) as [y|] eqn:Hx.
    + split; [done|]. intros H. specialize (H x (list_elem_of_here _ _)).
      congruence.
    + rewrite IH. split.
      * intros H x' [->|Hin]%elem_of_cons; [done|by apply H].
      * intros H x' Hin. apply H. by apply list_elem_of_further.
Qed.

(** X21. The text [extractFieldHTML] returns is that of a field of the note,
    and is not blank; it returns the empty string exactly when no field of
    the note has text. A first candidate name with text decides ("Front"
    for the front, "Back" for the back). *)
Theorem extractFieldHTML_returns_a_field_with_text
    (fields : list (string * FieldValue)) (which : Side) :
  let html := extractFieldHTML (Some fields) which in
  (html ≠ [] →
   trim html ≠ [] ∧ ∃ k v, (k, v) ∈ fields ∧ contentOf v = Some html) ∧
  (html = [] ↔ ∀ k v, (k, v) ∈ fields → contentOf v = None) ∧
  (∀ v s, field fields (match which with front => "Front" | back => "Back" end)
          = Some v →
          contentOf v = Some s → html = s).
Proof.
  intros html. subst html. unfold extractFieldHTML.
  set (keys := match which with front => candidatesFront | back => candidatesBack end).
  assert (Hfirst : ∀ v s,
            field fields (match which with front => "Front" | back => "Back" end)
            = Some v → contentOf v = Some s →
            firstSome (λ k, v ← field fields k; contentOf v) keys = Some s).
  { intros v s Hf Hc. subst keys.
    destruct which; cbn [candidatesFront candidatesBack firstSome];
      rewrite Hf; cbn; by rewrite Hc. }
  destruct (firstSome (λ k, v ← field fields k; contentOf v) keys)
    as [s|] eqn:Hkeys.
  - pose proof Hkeys as (k & _ & Hk)%firstSome_Some.
    destruct (field fields k) as [v|] eqn:Hf; [|done]. cbn in Hk.
    pose proof (contentOf_trim _ _ Hk) as Htrim.
    assert (s ≠ []) as Hne by (by intros ->).
    split_and!.
    + intros _. split; [done|]. exists k, v. split; [by apply field_entry|done].
    + split; [done|]. intros Hnone.
      rewrite (Hnone k v) in Hk; [done|by apply field_entry].
    + intros v' s' Hf' Hc'. specialize (Hfirst v' s' Hf' Hc'). congruence.
  - destruct (firstSome (λ kv : string * FieldValue, contentOf kv.2) fields)
      as [s|] eqn:Hany.
    + pose proof Hany as ([k v] & Hin & Hk)%firstSome_Some. cbn in Hk.
      pose proof (contentOf_trim _ _ Hk) as Htrim.
      assert (s ≠ []) as Hne by (by intros ->).
      split_and!.
      * intros _. split; [done|]. by exists k, v.
      * split; [done|]. intros Hnone. rewrite (Hnone k v) in Hk; done.
      * intros v' s' Hf' Hc'. specialize (Hfirst v' s' Hf' Hc'). congruence.
    + split_and!; [done| |].
      * split; [|done]. intros _ k v Hin.
        by apply (proj1 (firstSome_None _ _) Hany (k, v)).
      * intros v' s' Hf' Hc'. specialize (Hfirst v' s' Hf' Hc'). congruence.
Qed.

(** X22. When none of the fourteen candidate names has text, the front and
    the back are the same text, that of the first field with text in the
    order of the note: the fall-back does not look at the side asked for. *)
Theorem extractFieldHTML_falls_back_to_the_same_field
    (fields : list (string * FieldValue)) :
  (∀ k v, k ∈ candidatesFront ++ candidatesBack →
          field fields k = Some v → contentOf v = None) →
  extractFieldHTML (Some fields) front = extractFieldHTML (Some fields) back ∧
  extractFieldHTML (Some fields) front
  = default [] (firstSome (λ kv : string * FieldValue, contentOf kv.2) fields).
Proof.
  intros Hnone.
  assert (Hkeys : ∀ keys, keys ⊆ candidatesFront ++ candidatesBack →
            firstSome (λ k, v ← field fields k; contentOf v) keys = None).
  { intros keys Hsub. apply firstSome_None. intros k Hk.
    destruct (field fields k) as [v|] eqn:Hf; [|done]. cbn.
    apply (Hnone k v); [by apply Hsub|done]. }
  unfold extractFieldHTML.
  rewrite !Hkeys.
  - split; [done|]. by destruct (firstSome _ fields).
  - intros k Hk. apply elem_of_app. by right.
  - intros k Hk. apply elem_of_app. by left.
Qed.

Lemma extractFieldHTML_german_note :
  let fields := [("Vorderseite", FObject (Some (ReviewChain.codeUnits "das Haus")));
                 ("Rueckseite", FObject (Some (ReviewChain.codeUnits "the house")))] in
  extractFieldHTML (Some fields) back = ReviewChain.codeUnits "das Haus".
Proof.
  intros fields.
  destruct (extractFieldHTML_falls_back_to_the_same_field fields) as [<- ->];
    [|done].
  intros k v Hk Hf.
  repeat (apply elem_of_cons in Hk as [->|Hk]; [done|]).
  by apply elem_of_nil in Hk.
Defined.

Lemma extractFieldHTML_front_field_first :
  let fields := [("Extra", FString (ReviewChain.codeUnits "note"));
                 ("Front", FObject (Some (ReviewChain.codeUnits "das Haus")))] in
  extractFieldHTML (Some fields) front = ReviewChain.codeUnits "das Haus".
Proof.
  intros fields.
  destruct (extractFieldHTML_returns_a_field_with_text fields front)
    as (_ & _ & Hfront).
  by apply (Hfront (FObject (Some (ReviewChain.codeUnits "das Haus")))).
Defined.

End FieldExtraction.

(** ** [tidyWhitespace] *)

Section TidyWhitespace.
Import Server Sanitize.

Lemma replaceAll_from_skip matchAt replacement k s :
  replaceAll_from matchAt replacement k s
  = replaceAll_from matchAt replacement 0 (drop k s).
Proof.
  revert k. induction s as [|c s IH]; intros [|k]; try done. cbn. apply IH.
Qed.

Lemma replaceAll_cons matchAt replacement c s :
  replaceAll matchAt replacement (c :: s) =
  match matchAt (c :: s) with
  | Some (S len) => replacement ++ replaceAll matchAt replacement (drop len s)
  | _ => c :: replaceAll matchAt replacement s
  end.
Proof.
  unfold replaceAll. cbn [replaceAll_from].
  destruct (matchAt (c :: s)) as [[|len]|]; try done.
  by rewrite replaceAll_from_skip.
Qed.

Lemma lastLineFeed_drop s j :
  lastLineFeed s = Some j → lastLineFeed (drop (S j) s) = None.
Proof.
  revert j. induction s as [|c s IH]; intros j; [done|]. cbn [lastLineFeed].
  destruct (isSpace c); [|done].
  destruct (lastLineFeed s) as [j'|] eqn:Hs.
  - intros [= <-]. by apply IH.
  - destruct (c =? LF)%N; [|done]. by intros [= <-].
Qed.

Lemma isSpace_LF c : (c =? LF)%N = true → isSpace c = true.
Proof. intros ->%N.eqb_eq. done. Qed.

Lemma spaceBeforeLineFeed_cons b c t :
  spaceBeforeLineFeed b (c :: t)
  = ((c =? LF)%N && b) || spaceBeforeLineFeed (isSpace c) t.
Proof. done. Qed.

(** After [/\s+\n/g] no line feed follows whitespace. *)
Lemma spacesThenLineFeed_replaced n s b :
  (length s ≤ n)%nat → (b = true → lastLineFeed s = None) →
  spaceBeforeLineFeed b (replaceAll spacesThenLineFeed [LF] s) = false.
Proof.
  revert s b. induction n as [|n IH]; intros [|c s] b Hlen Hb; try done.
  { cbn in Hlen. lia. }
  cbn [length] in Hlen. rewrite replaceAll_cons. cbn [spacesThenLineFeed].
  destruct (isSpace c) eqn:Hc.
  - destruct (lastLineFeed s) as [j|] eqn:Hs; cbn [mbind option_bind].
    + assert (b = false) as ->.
      { destruct b; [|done]. specialize (Hb eq_refl). cbn in Hb.
        by rewrite Hc, Hs in Hb. }
      cbn [app]. rewrite spaceBeforeLineFeed_cons, andb_false_r.
      cbn [orb]. apply IH.
      * rewrite length_drop. lia.
      * intros _. by apply lastLineFeed_drop.
    + rewrite spaceBeforeLineFeed_cons, Hc.
      apply orb_false_intro.
      * destruct b; [|apply andb_false_r]. specialize (Hb eq_refl).
        cbn in Hb. rewrite Hc, Hs in Hb. by destruct (c =? LF)%N.
      * apply IH; [lia|done].
  - rewrite spaceBeforeLineFeed_cons, Hc. apply orb_false_intro.
    + destruct (c =? LF)%N eqn:Hlf; [|done].
      apply isSpace_LF in Hlf. congruence.
    + apply IH; [lia|done].
Qed.

(** Then [/\n{3,}/g] finds nothing. *)
Lemma lineFeeds_not_found b t :
  spaceBeforeLineFeed b t = false →
  replaceAll (atLeast 3 (N.eqb LF)) [LF; LF] t = t.
Proof.
  revert b. induction t as [|c t IH]; intros b Ht; [done|].
  rewrite spaceBeforeLineFeed_cons in Ht.
  apply orb_false_elim in Ht as [_ Ht].
  rewrite replaceAll_cons.
  assert (atLeast 3 (N.eqb LF) (c :: t) = None) as ->.
  { unfold atLeast. cbn [runLength].
    destruct (N.eqb_spec LF c) as [<-|]; [|done].
    destruct t as [|c' t]; [done|]. cbn [runLength].
    destruct (N.eqb_spec LF c') as [<-|]; [|done].
    by rewrite spaceBeforeLineFeed_cons in Ht. }
  f_equal. by apply (IH (isSpace c)).
Qed.

Lemma isSpace_isBlank c : isBlank c = true → isSpace c = true.
Proof.
  unfold isBlank. intros [->%N.eqb_eq| ->%N.eqb_eq]%orb_true_iff; done.
Qed.

Lemma spaceBeforeLineFeed_after_blanks b t :
  spaceBeforeLineFeed b t = false → (0 < runLength isBlank t)%nat →
  spaceBeforeLineFeed true (drop (runLength isBlank t) t) = false.
Proof.
  revert b. induction t as [|c t IH]; intros b Ht Hrun; [cbn in Hrun; lia|].
  cbn [runLength] in *. destruct (isBlank c) eqn:Hc; [|lia].
  rewrite spaceBeforeLineFeed_cons, (isSpace_isBlank _ Hc) in Ht.
  apply orb_false_elim in Ht as [_ Ht]. cbn [drop].
  destruct (runLength isBlank t) as [|r] eqn:Hr; [done|].
  apply (IH true); [done|lia].
Qed.

(** [/[ \t]{2,}/g] puts no whitespace before a line feed. *)
Lemma blanks_replaced n t b :
  (length t ≤ n)%nat → spaceBeforeLineFeed b t = false →
  spaceBeforeLineFeed b (replaceAll (atLeast 2 isBlank) [32%N] t) = false.
Proof.
  revert t b. induction n as [|n IH]; intros [|c t] b Hlen Ht; try done.
  { cbn in Hlen. lia. }
  cbn [length] in Hlen. rewrite replaceAll_cons. unfold atLeast.
  destruct (2 <=? runLength isBlank (c :: t))%nat eqn:Hrun.
  - apply Nat.leb_le in Hrun.
    pose proof (spaceBeforeLineFeed_after_blanks b (c :: t) Ht ltac:(lia)) as Hd.
    destruct (runLength isBlank (c :: t)) as [|len] eqn:Hr; [lia|].
    cbn [drop] in Hd. cbn [app].
    rewrite spaceBeforeLineFeed_cons. cbn [N.eqb orb andb].
    change (isSpace 32) with true.
    assert (length (drop len t) ≤ n)%nat by (rewrite length_drop; lia).
    replace ((32 =? LF)%N && b) with false by done. cbn [orb].
    by apply IH.
  - rewrite spaceBeforeLineFeed_cons in Ht |- *.
    apply orb_false_elim in Ht as [Hc Ht]. rewrite Hc. cbn [orb].
    apply IH; [lia|done].
Qed.

Lemma spaceBeforeLineFeed_weaken b t :
  spaceBeforeLineFeed b t = false → spaceBeforeLineFeed false t = false.
Proof.
  destruct t as [|c t]; [done|]. rewrite !spaceBeforeLineFeed_cons.
  intros [_ Ht]%orb_false_elim. by rewrite andb_false_r.
Qed.

Lemma spaceBeforeLineFeed_suffix b p t :
  spaceBeforeLineFeed b (p ++ t) = false → spaceBeforeLineFeed false t = false.
Proof.
  revert b. induction p as [|c p IH]; intros b; cbn [app].
  - apply spaceBeforeLineFeed_weaken.
  - rewrite spaceBeforeLineFeed_cons. intros [_ Ht]%orb_false_elim. eauto.
Qed.

Lemma spaceBeforeLineFeed_prefix b t q :
  spaceBeforeLineFeed b (t ++ q) = false → spaceBeforeLineFeed b t = false.
Proof.
  revert b. induction t as [|c t IH]; intros b; [done|]. cbn [app].
  rewrite !spaceBeforeLineFeed_cons. intros [Hc Ht]%orb_false_elim.
  rewrite Hc. cbn [orb]. eauto.
Qed.

Lemma trimStart_suffix s : ∃ p, s = p ++ trimStart s.
Proof.
  induction s as [|c s [p IH]]; [by exists []|]. cbn.
  destruct (isTrimmed c); [|by exists []].
  exists (c :: p). cbn. by rewrite <- IH.
Qed.

Lemma trim_kept b t :
  spaceBeforeLineFeed b t = false → spaceBeforeLineFeed false (trim t) = false.
Proof.
  intros Ht. unfold trim.
  destruct (trimStart_suffix t) as [p Hp].
  destruct (trimStart_suffix (rev (trimStart t))) as [q Hq].
  assert (trimStart t = rev (trimStart (rev (trimStart t))) ++ rev q) as Hu.
  { rewrite <- rev_app_distr, <- Hq. by rewrite rev_involutive. }
  rewrite Hp in Ht. apply spaceBeforeLineFeed_suffix in Ht.
  rewrite Hu in Ht. by apply spaceBeforeLineFeed_prefix in Ht.
Qed.

Lemma spaceBeforeLineFeed_lookup b t i c :
  spaceBeforeLineFeed b t = false →
  t !! i = Some c → t !! S i = Some LF → isSpace c = false.
Proof.
  revert b i. induction t as [|c0 t IH]; intros b i Ht; [done|].
  rewrite spaceBeforeLineFeed_cons in Ht.
  apply orb_false_elim in Ht as [_ Ht].
  destruct i as [|i]; cbn.
  - intros [= ->] Hlf. destruct t as [|c1 t]; [done|]. cbn in Hlf.
    injection Hlf as ->. rewrite spaceBeforeLineFeed_cons in Ht.
    apply orb_false_elim in Ht as [Hc _]. by destruct (isSpace c).
  - apply (IH _ _ Ht).
Qed.

(** X23. In what [tidyWhitespace] returns no line feed follows a whitespace
    character: there is no empty line and no line that ends in blanks.
    Paragraphs set apart by empty lines come out as consecutive lines, for
    the first replacement, [/\s+\n/g], takes whole runs of line feeds, and
    the second, [/\n{3,}/g] to ["\n\n"], never finds anything to replace. *)
Theorem tidyWhitespace_leaves_no_empty_line (s : list N) :
  (∀ i c, tidyWhitespace s !! i = Some c → tidyWhitespace s !! S i = Some LF →
          isSpace c = false) ∧
  replaceAll (atLeast 3 (N.eqb LF)) [LF; LF] (replaceAll spacesThenLineFeed [LF] s)
  = replaceAll spacesThenLineFeed [LF] s.
Proof.
  pose proof (spacesThenLineFeed_replaced (length s) s false
                (Nat.le_refl _) ltac:(done)) as H1.
  pose proof (lineFeeds_not_found _ _ H1) as H2.
  split; [|done].
  intros i c. apply (spaceBeforeLineFeed_lookup false).
  unfold tidyWhitespace. rewrite H2.
  apply (trim_kept false). by apply (blanks_replaced _ _ _ (Nat.le_refl _)).
Qed.

End TidyWhitespace.

(** ** [stripTags] *)

Section StripTags.
Import Sanitize SanitizeTags.

Lemma replaceEach_from_skip matchAt k s :
  replaceEach_from matchAt k s = replaceEach_from matchAt 0 (drop k s).
Proof.
  revert k. induction s as [|c s IH]; intros [|k]; try done. cbn. apply IH.
Qed.

Lemma replaceEach_cons matchAt c s :
  replaceEach matchAt (c :: s) =
  match matchAt (c :: s) with
  | Some (S len, replacement) => replacement ++ replaceEach matchAt (drop len s)
  | _ => c :: replaceEach matchAt s
  end.
Proof.
  unfold replaceEach. cbn [replaceEach_from].
  destruct (matchAt (c :: s)) as [[[|len] r]|]; try done.
  by rewrite replaceEach_from_skip.
Qed.

(** A replacement that only keeps part of what it replaces deletes
    characters and adds none. *)
Lemma replaceEach_sublist matchAt n s :
  (∀ t len r, matchAt t = Some (len, r) → r `sublist_of` take len t) →
  (length s ≤ n)%nat → replaceEach matchAt s `sublist_of` s.
Proof.
  intros Hr. revert s. induction n as [|n IH]; intros [|c s] Hlen; try done.
  { cbn in Hlen. lia. }
  cbn [length] in Hlen. rewrite replaceEach_cons.
  destruct (matchAt (c :: s)) as [[[|len] r]|] eqn:Hm.
  - apply sublist_skip, IH. lia.
  - rewrite <- (take_drop (S len) (c :: s)).
    apply sublist_app; [by apply Hr|].
    cbn [drop]. apply IH. rewrite length_drop. lia.
  - apply sublist_skip, IH. lia.
Qed.

Lemma anchor_inner t len r :
  anchor t = Some (len, r) → r `sublist_of` take len t.
Proof.
  unfold anchor. destruct t as [|lt [|a rest]]; try done.
  destruct (_ && _); [|done].
  destruct (firstIndex GT rest) as [j|]; [|done]. cbn [mbind option_bind].
  destruct (firstClose (drop (S j) rest)) as [k|]; [|done]. cbn [mbind option_bind].
  intros [= <- <-].
  replace (2 + S j + k + 4)%nat with (S (S (S j + (k + 4)))) by lia.
  rewrite !firstn_cons. do 2 apply sublist_cons.
  replace (S (j + k + 4)) with (S j + (k + 4))%nat by lia.
  rewrite <- (take_take_drop rest (S j) (k + 4)).
  apply sublist_inserts_l.
  replace (take k (drop (S j) rest))
    with (take k (take (k + 4) (drop (S j) rest)))
    by (rewrite take_take; f_equal; lia).
  apply sublist_take.
Qed.

Lemma firstIndex_None c s : firstIndex c s = None ↔ c ∉ s.
Proof.
  induction s as [|x s IH]; cbn.
  - split; [|done]. intros _. apply not_elem_of_nil.
  - destruct (N.eqb_spec x c) as [->|Hne].
    + split; [done|]. intros H. destruct H. apply list_elem_of_here.
    + rewrite fmap_None, IH, not_elem_of_cons. naive_solver.
Qed.

Lemma tag_None_GT s : GT ∉ s → ∀ c, tag (c :: s) = None.
Proof.
  intros Hs c. unfold tag. destruct s as [|x rest]; [done|].
  apply not_elem_of_cons in Hs as [Hx Hrest].
  destruct (_ && _); [|done].
  by rewrite (proj2 (firstIndex_None GT rest) Hrest).
Qed.

Lemma tag_replacement t len r :
  (n ← tag t; Some (n, @nil N)) = Some (len, r) → r `sublist_of` take len t.
Proof.
  destruct (tag t); [|done]. cbn. intros [= <- <-]. apply sublist_nil_l.
Qed.

Lemma tag_not_LT c s : c ≠ LT → tag (c :: s) = None.
Proof.
  intros Hc. unfold tag. destruct s as [|x rest]; [done|].
  by destruct (N.eqb_spec c LT).
Qed.

(** After [/<\/?[^>]+>/g] the pattern matches nowhere. *)
Lemma tags_replaced n s i :
  (length s ≤ n)%nat →
  tag (drop i (replaceEach (λ s, n ← tag s; Some (n, [])) s)) = None.
Proof.
  revert s i. induction n as [|n IH]; intros [|c s] i Hlen;
    try (by destruct i).
  { cbn in Hlen. lia. }
  cbn [length] in Hlen. rewrite replaceEach_cons.
  destruct (tag (c :: s)) as [[|len]|] eqn:Htag; cbn [mbind option_bind].
  - exfalso. unfold tag in Htag. destruct s as [|x rest]; [done|].
    destruct (_ && _); [|done]. by destruct (firstIndex GT rest).
  - cbn [app]. apply IH. rewrite length_drop. lia.
  - destruct i as [|i]; [|cbn [drop]; apply IH; lia].
    cbn [drop].
    destruct (decide (c = LT)) as [->|Hc]; [|by apply tag_not_LT].
    destruct s as [|y r]; [done|].
    destruct (decide (y = GT)) as [->|Hy].
    + rewrite replaceEach_cons, (tag_not_LT GT r) by (unfold GT, LT; lia).
      unfold tag. by rewrite !N.eqb_refl.
    + apply tag_None_GT. intros Hin.
      apply (elem_of_sublist _ (y :: r)) in Hin.
      2:{ apply (replaceEach_sublist _ (length (y :: r))); [|done].
          apply tag_replacement. }
      unfold tag in Htag.
      destruct (N.eqb_spec y GT) as [?|_]; [done|]. cbn in Htag.
      destruct (firstIndex GT r) as [j|] eqn:Hj; [done|].
      apply firstIndex_None in Hj.
      apply elem_of_cons in Hin as [?|?]; done.
Qed.

(** X24. [stripTags] only deletes: its result is the input with characters
    left out, none added or moved. And no tag is left in it: nowhere in the
    result does [<], then a character other than [>], then later a [>]
    occur, which is what the last pattern, [/<\/?[^>]+>/], matches. *)
Theorem stripTags_deletes_every_tag (html : list N) :
  stripTags html `sublist_of` html ∧
  (∀ i, tag (drop i (stripTags html)) = None) ∧
  (∀ i j c, stripTags html !! i = Some LT → stripTags html !! S i = Some c →
            c ≠ GT → (i < j)%nat → stripTags html !! j ≠ Some GT).
Proof.
  assert (Hsub : stripTags html `sublist_of` html).
  { unfold stripTags. etrans.
    - apply (replaceEach_sublist _ _ _ tag_replacement (Nat.le_refl _)).
    - apply (replaceEach_sublist _ _ _ anchor_inner (Nat.le_refl _)). }
  assert (Hnone : ∀ i, tag (drop i (stripTags html)) = None).
  { intros i. by apply (tags_replaced (length (replaceEach anchor html))). }
  split_and!; [done|done|].
  intros i j c Hi Hc Hne Hij Hj.
  specialize (Hnone i).
  rewrite (drop_S _ LT i Hi), (drop_S _ c (S i) Hc) in Hnone.
  unfold tag in Hnone. rewrite N.eqb_refl in Hnone.
  destruct (N.eqb_spec c GT) as [?|_]; [done|]. cbn in Hnone.
  destruct (firstIndex GT (drop (S (S i)) (stripTags html))) as [k|] eqn:Hk;
    [done|].
  apply firstIndex_None in Hk. apply Hk.
  destruct (decide (j = S i)) as [->|Hne']; [congruence|].
  apply list_elem_of_lookup. exists (j - S (S i))%nat.
  rewrite lookup_drop. by replace (S (S i) + (j - S (S i)))%nat with j by lia.
Qed.

End StripTags.
